(** * ipx: CIDR network helpers (Collapse, Supernet, Broadcast)

    A shallow embedding of [collapse.go] and of the supernet / broadcast
    helpers that ship with it, together with the properties of the
    natural-language specification that concern them.

    Conventions
    - a Go [uintN] is a [Z] in [0, 2^N) and every operation that can leave
      that range is followed by its wrap-around ([u8], [u32], [u64]);
    - a Go [byte] is a [Z] in [0, 256), a [[]byte] a [list Z];
    - [ip4Net] / [ip6Net] are the two structs of the source, a pair of an
      address and an 8-bit prefix length;
    - the Go map [supers] is a [gmap]; the order in which [range] walks a
      map is not fixed by the language and changes from one loop to the
      next, so it is an explicit argument of the model (the [rho] of the
      engine, the [rangeOrder] of [Collapse]) and every general theorem
      holds for all orders;
    - a panic is the outcome [Panic] of a [result];
    - the first part holds the definitions (the code, then the memory model
      and the vocabulary of the properties), the second part the lemmas
      and theorems. *)

From Stdlib Require Import ZArith Lia List Sorting.Sorted Sorting.Permutation.
From stdpp Require Import base decidable countable strings gmap list fin_maps sorting.

Local Open Scope Z_scope.

(** ** Machine integers *)

Definition u8 (x : Z) : Z := x mod 2 ^ 8.
Definition u32 (x : Z) : Z := x mod 2 ^ 32.
Definition u64 (x : Z) : Z := x mod 2 ^ 64.

(** [x << c] on a [uint32]; Go gives 0 once [c] reaches the width. *)
Definition shl32 (x c : Z) : Z := u32 (Z.shiftl x c).
(** [^x] on a [uint32]. *)
Definition not32 (x : Z) : Z := u32 (Z.lnot x).

(** ** Outcome of a call that may panic *)

Inductive result (A : Type) : Type :=
| Ok (a : A)
| Panic (msg : string).
Arguments Ok {A} a.
Arguments Panic {A} msg.

(** ** Typed networks

    [type ip4Net struct { addr uint32; prefix uint8 }] and
    [type ip6Net struct { addr uint128; prefix uint8 }]. *)

Record typedNet (A : Type) : Type := TypedNet { addr : A; prefix : Z }.
Arguments TypedNet {A} addr prefix.
Arguments addr {A} t.
Arguments prefix {A} t.

#[global] Instance typedNet_eq_dec `{EqDecision A} : EqDecision (typedNet A).
Proof. solve_decision. Defined.

#[global] Program Instance typedNet_countable `{Countable A} : Countable (typedNet A) :=
  inj_countable' (fun n => (addr n, prefix n)) (fun p => TypedNet (fst p) (snd p)) _.
Next Obligation. intros A ? ? [a p]. reflexivity. Qed.

(** *** IPv4 *)

Definition ip4Net : Type := typedNet Z.

(** [func (n ip4Net) super() ip4Net]: [32 - n.prefix] is computed on
    [uint8], the shift on [uint32], and [n.prefix--] wraps on [uint8]. *)
Definition ip4Net_super (n : ip4Net) : ip4Net :=
  {| addr := Z.ldiff (addr n) (shl32 1 (u8 (32 - prefix n)));
     prefix := u8 (prefix n - 1) |}.

(** [func (n ip4Net) mask() uint32] *)
Definition ip4Net_mask (n : ip4Net) : Z :=
  not32 (u32 (shl32 1 (u8 (32 - prefix n)) - 1)).

(** [func (n ip4Nets) Less(i, j int) bool], on the two elements. *)
Definition ip4Nets_Less (x y : ip4Net) : bool := addr x <? addr y.

(** *** The 128-bit integer *)

(** Modelled from the spec: the type [uint128] and its methods are not in
    the source file; section 4.1 of the specification describes them as a
    value type of two 64-bit halves (high, low) whose operations return a
    new value and leave the receiver alone. [uint128{0, 1}] is the number
    one. *)
Record uint128 : Type := U128 { hi : Z; lo : Z }.

#[global] Instance uint128_eq_dec : EqDecision uint128.
Proof. solve_decision. Defined.

#[global] Program Instance uint128_countable : Countable uint128 :=
  inj_countable' (fun u => (hi u, lo u)) (fun p => U128 (fst p) (snd p)) _.
Next Obligation. intros [h l]. reflexivity. Qed.

(** Modelled from the spec: bitwise AND, half by half. *)
Definition u128_And (a b : uint128) : uint128 :=
  U128 (Z.land (hi a) (hi b)) (Z.land (lo a) (lo b)).

(** Modelled from the spec: bitwise OR, half by half. *)
Definition u128_Or (a b : uint128) : uint128 :=
  U128 (Z.lor (hi a) (hi b)) (Z.lor (lo a) (lo b)).

(** Modelled from the spec: bitwise NOT of both halves. *)
Definition u128_Not (a : uint128) : uint128 :=
  U128 (u64 (Z.lnot (hi a))) (u64 (Z.lnot (lo a))).

(** Modelled from the spec: logical left shift by [k] bits,
    [0 <= k <= 128]; bits of the low half move into the high half, a shift
    of 64 or more moves whole halves, and what leaves the top is lost. *)
Definition u128_Lsh (a : uint128) (k : Z) : uint128 :=
  if k <? 64 then
    U128 (u64 (Z.lor (Z.shiftl (hi a) k) (Z.shiftr (lo a) (64 - k))))
         (u64 (Z.shiftl (lo a) k))
  else if k <? 128 then U128 (u64 (Z.shiftl (lo a) (k - 64))) 0
  else U128 0 0.

(** Modelled from the spec: subtraction with a borrow out of the low half. *)
Definition u128_Minus (a b : uint128) : uint128 :=
  U128 (u64 (hi a - hi b - (if lo a <? lo b then 1 else 0)))
       (u64 (lo a - lo b)).

(** Modelled from the spec: three-way comparison, high half first. *)
Definition u128_Cmp (a b : uint128) : Z :=
  if hi a <? hi b then -1
  else if hi b <? hi a then 1
  else if lo a <? lo b then -1
  else if lo b <? lo a then 1
  else 0.

(** The number a [uint128] stands for. *)
Definition u128_Z (a : uint128) : Z := hi a * 2 ^ 64 + lo a.

(** *** IPv6 *)

Definition ip6Net : Type := typedNet uint128.

(** [func (n ip6Net) super() ip6Net]: [128 - uint(n.prefix)] is computed
    on [uint]. *)
Definition ip6Net_super (n : ip6Net) : ip6Net :=
  {| addr := u128_And (addr n)
               (u128_Not (u128_Lsh (U128 0 1) (u64 (128 - prefix n))));
     prefix := u8 (prefix n - 1) |}.

(** [func (n ip6Net) mask() uint128] *)
Definition ip6Net_mask (n : ip6Net) : uint128 :=
  u128_Not (u128_Minus (u128_Lsh (U128 0 1) (u64 (128 - prefix n))) (U128 0 1)).

(** [func (n ip6Nets) Less(i, j int) bool], on the two elements. *)
Definition ip6Nets_Less (x y : ip6Net) : bool := u128_Cmp (addr x) (addr y) =? -1.

(** ** The parts of Go's [net] package that the code calls *)

(** [net.IPNet]: the address bytes and the mask bytes. A [nil] slice is
    the empty list. *)
Record IPNet : Type := { IP : list Z; Mask : list Z }.

(** [func (ip IP) To4() IP]; [None] is [nil]. *)
Definition To4 (ip : list Z) : option (list Z) :=
  if decide (length ip = 4%nat) then Some ip
  else if bool_decide (length ip = 16%nat)
          && forallb (Z.eqb 0) (take 10 ip)
          && (nth 10 ip 0 =? 255) && (nth 11 ip 0 =? 255)
       then Some (drop 12 ip)
       else None.

(** The inner loop of [simpleMaskLength]:
    [for v&0x80 != 0 { n++; v <<= 1 }] on a byte. *)
Fixpoint lead_ones (fuel : nat) (v n : Z) : Z * Z :=
  match fuel with
  | O => (n, v)
  | S f => if Z.land v 128 =? 0 then (n, v) else lead_ones f (u8 (Z.shiftl v 1)) (n + 1)
  end.

(** [func simpleMaskLength(mask IPMask) int], with the count so far. *)
Fixpoint simpleMaskLength (mask : list Z) (n : Z) : Z :=
  match mask with
  | [] => n
  | v :: rest =>
      if v =? 255 then simpleMaskLength rest (n + 8)
      else
        let '(n', v') := lead_ones 8 v n in
        if negb (v' =? 0) then -1
        else if forallb (Z.eqb 0) rest then n' else -1
  end.

(** [func (m IPMask) Size() (ones, bits int)] *)
Definition Size (m : list Z) : Z * Z :=
  let ones := simpleMaskLength m 0 in
  if ones =? -1 then (0, 0) else (ones, 8 * Z.of_nat (length m)).

(** The loop of [net.CIDRMask] over the [l] bytes that are left. *)
Fixpoint cidr_bytes (l : nat) (n : Z) : list Z :=
  match l with
  | O => []
  | S l' =>
      if 8 <=? n then 255 :: cidr_bytes l' (n - 8)
      else u8 (Z.lnot (Z.shiftr 255 n)) :: cidr_bytes l' 0
  end.

(** [func CIDRMask(ones, bits int) IPMask] *)
Definition CIDRMask (ones bits : Z) : list Z :=
  if negb (bits =? 32) && negb (bits =? 128) then []
  else if (ones <? 0) || (bits <? ones) then []
  else cidr_bytes (Z.to_nat (bits / 8)) ones.

(** ** Byte conversions *)

(** Big-endian value of a byte string, and the [n] bytes of a value. *)
Definition be_decode (bs : list Z) : Z := foldl (fun acc b => acc * 256 + b) 0 bs.

Fixpoint be_encode (n : nat) (x : Z) : list Z :=
  match n with
  | O => []
  | S n' => be_encode n' (x / 256) ++ [x mod 256]
  end.

(** Modelled from the spec: [to32] is not in the source file; it reads the
    address as a big-endian 32-bit integer (section 4.2), from the last
    four bytes of the slice. *)
Definition to32 (ip : list Z) : Z := be_decode (drop (length ip - 4)%nat ip).

(** Modelled from the spec: [from32] is not in the source file; it stores
    a 32-bit integer big-endian into the last four bytes of the slice. *)
Definition from32 (n : Z) (ip : list Z) : list Z :=
  take (length ip - 4)%nat ip ++ be_encode 4 n.

(** Modelled from the spec: [to128] is not in the source file; it reads a
    16-byte address big-endian into the two halves. *)
Definition to128 (ip : list Z) : uint128 :=
  U128 (be_decode (take 8 ip)) (be_decode (take 8 (drop 8 ip))).

(** Modelled from the spec: [from128] is not in the source file; it stores
    the two halves big-endian into the 16 bytes of the slice. *)
Definition from128 (u : uint128) (ip : list Z) : list Z :=
  be_encode 8 (hi u) ++ be_encode 8 (lo u) ++ drop 16 ip.

(** [make([]byte, n)] *)
Definition make (n : nat) : list Z := replicate n 0.

(** [func newIP4Net(ipN *net.IPNet) ip4Net] *)
Definition newIP4Net (ipN : IPNet) : ip4Net :=
  let '(ones, _) := Size (Mask ipN) in
  TypedNet (to32 (IP ipN)) (u8 ones).

(** [func (n ip4Net) asNet() *net.IPNet] *)
Definition ip4Net_asNet (n : ip4Net) : IPNet :=
  {| IP := from32 (addr n) (make 4); Mask := from32 (ip4Net_mask n) (make 4) |}.

(** [func newIP6Net(ipN *net.IPNet) ip6Net] *)
Definition newIP6Net (ipN : IPNet) : ip6Net :=
  let '(ones, _) := Size (Mask ipN) in
  TypedNet (to128 (IP ipN)) (u8 ones).

(** [func (n ip6Net) asNet() *net.IPNet] *)
Definition ip6Net_asNet (n : ip6Net) : IPNet :=
  {| IP := from128 (addr n) (make 16); Mask := from128 (ip6Net_mask n) (make 16) |}.

(** ** The collapse engine

    [collapse4] and [collapse6] are the same text up to the element type
    and its methods, so the loop, the sort and the final pass are written
    once over the methods they call. *)

Section engine.
Context {A : Type} `{Countable A}.
Abbreviation N := (typedNet A).

Variable super : N -> N.
Variable mask : N -> A.
Variable and_ : A -> A -> A.
Variable less : N -> N -> bool.

(** One iteration of [for len(nets) > 0]: [n] has been popped, [nets] is
    what is left of the stack (top first). *)
Definition merge_step (n : N) (nets : list N) (supers : gmap N N)
  : list N * gmap N N :=
  let s := super n in
  match supers !! s with
  | None => (nets, <[s := n]> supers)
  | Some other =>
      if decide (other = n) then (nets, supers)
      else (s :: nets, delete s supers)
  end.

Fixpoint merge_loop (fuel : nat) (nets : list N) (supers : gmap N N)
  : list N * gmap N N :=
  match fuel, nets with
  | S f, n :: rest =>
      let '(nets', supers') := merge_step n rest supers in
      merge_loop f nets' supers'
  | _, _ => (nets, supers)
  end.

(** Every iteration lowers [2 * len(nets) + len(supers)], so this many
    iterations empty the stack (lemma [merge_loop_done]). *)
Definition merge_fuel (nets : list N) (supers : gmap N N) : nat :=
  (2 * length nets + size supers)%nat.

(** The map left when the loop ends, from a stack (top first). *)
Definition merge_all (nets : list N) : gmap N N :=
  snd (merge_loop (merge_fuel nets ∅) nets ∅).

(** [sort.Sort] is an insertion sort driven by [Less] on a short
    slice. It keeps entries that [Less] does not order in the order it
    finds them, so with [rho] below ranging over all orders the model
    reaches every sorted arrangement, which is all that [sort.Sort]
    promises on longer slices. *)
Fixpoint sort_insert (x : N) (l : list N) : list N :=
  match l with
  | [] => [x]
  | y :: l' => if less x y then x :: y :: l' else y :: sort_insert x l'
  end.

Definition sort_nets (l : list N) : list N := foldl (fun acc x => sort_insert x acc) [] l.

(** The loop over [merged[1:]]. *)
Fixpoint coalesce_from (lastMask lastAddr : A) (ms : list N) : list N :=
  match ms with
  | [] => []
  | m :: ms' =>
      if decide (lastAddr = and_ (addr m) lastMask)
      then coalesce_from lastMask lastAddr ms'
      else m :: coalesce_from (mask m) (addr m) ms'
  end.

(** [merged[0]] panics on an empty slice. *)
Definition coalesce (merged : list N) : result (list N) :=
  match merged with
  | [] => Panic "index out of range"
  | m0 :: rest => Ok (m0 :: coalesce_from (mask m0) (addr m0) rest)
  end.

(** Every value sits under the key that [super] gives it. *)
Definition keyed (supers : gmap N N) : Prop :=
  forall k v, supers !! k = Some v -> super v = k.

(** The values of the map, as [range] may list them. *)
Definition values (m : gmap N N) : list N := (map_to_list m).*2.

(** [rho] is the order in which [range supers] delivers the values. *)
Variable rho : list N -> list N.

Definition survivors (nets : list N) : list N :=
  rho (values (merge_all nets)).

(** The typed part of [collapse4] / [collapse6]: from the converted
    inputs (in input order) to the entries that are rendered. *)
Definition collapse_nets (nets : list N) : result (list N) :=
  coalesce (sort_nets (survivors (rev nets))).
End engine.

(** ** Invariants of the loop *)

Section invariants.
Context {A : Type} `{Countable A}.
Abbreviation N := (typedNet A).
Variable super : N -> N.
Variable ok : N -> Prop.

(** Stack and map hold [ok] entries and [n0] sits under its key. *)
Definition settled_at (n0 : N) (nets : list N) (supers : gmap N N) : Prop :=
  Forall ok nets /\ supers !! super n0 = Some n0.

(** Stack and map hold [ok] entries, each value under its key. *)
Definition all_good_at (nets : list N) (supers : gmap N N) : Prop :=
  Forall ok nets /\ keyed super supers /\ map_Forall (fun _ v => ok v) supers.

(** Ascending, and strictly ascending, in the number [val] gives. *)
Definition le_by (val : N -> Z) (x y : N) : Prop := val x <= val y.
Definition lt_by (val : N -> Z) (x y : N) : Prop := val x < val y.
End invariants.

(** ** The public functions *)

(** The order in which [range supers] delivers the values, for a call. *)
Record rangeOrder : Type :=
  { range4 : list ip4Net -> list ip4Net;
    range6 : list ip6Net -> list ip6Net }.

(** The typed networks that [collapse4] / [collapse6] render. *)
Definition collapse4_nets (ro : rangeOrder) (nets : list ip4Net) : result (list ip4Net) :=
  collapse_nets ip4Net_super ip4Net_mask Z.land ip4Nets_Less (range4 ro) nets.

Definition collapse6_nets (ro : rangeOrder) (nets : list ip6Net) : result (list ip6Net) :=
  collapse_nets ip6Net_super ip6Net_mask u128_And ip6Nets_Less (range6 ro) nets.

(** [func collapse4(toMerge []*net.IPNet) []*net.IPNet] *)
Definition collapse4 (ro : rangeOrder) (toMerge : list IPNet) : result (list IPNet) :=
  match collapse4_nets ro (newIP4Net <$> toMerge) with
  | Ok ms => Ok (ip4Net_asNet <$> ms)
  | Panic e => Panic e
  end.

(** [func collapse6(toMerge []*net.IPNet) []*net.IPNet] *)
Definition collapse6 (ro : rangeOrder) (toMerge : list IPNet) : result (list IPNet) :=
  match collapse6_nets ro (newIP6Net <$> toMerge) with
  | Ok ms => Ok (ip6Net_asNet <$> ms)
  | Panic e => Panic e
  end.

(** [ipN.IP.To4() != nil] *)
Definition is4 (ipN : IPNet) : bool := bool_decide (To4 (IP ipN) <> None).

(** [func Collapse(toMerge []*net.IPNet) []*net.IPNet] *)
Definition Collapse (ro : rangeOrder) (toMerge : list IPNet) : result (list IPNet) :=
  match toMerge with
  | [] => Ok []
  | first :: others =>
      let four := is4 first in
      if forallb (fun ipN => Bool.eqb four (is4 ipN)) others
      then if four then collapse4 ro toMerge else collapse6 ro toMerge
      else Panic "all versions must be the same"
  end.

(** [func Supernet(ipN *net.IPNet, newPrefix int) *net.IPNet]. In the
    IPv6 branch the results of [mask.Lsh], [mask.Minus] and [ip.And] are
    not assigned, so [mask] and [ip] keep their values. *)
Definition Supernet (ipN : IPNet) (newPrefix : Z) : result IPNet :=
  let '(ones, bits) := Size (Mask ipN) in
  if (newPrefix <? 0) || (ones <? newPrefix) || (bits <? newPrefix)
  then Panic "new prefix must be less than current"
  else
    let out_IP := make (length (IP ipN)) in
    let out_Mask := CIDRMask newPrefix bits in
    match To4 (IP ipN) with
    | Some _ =>
        let ip := to32 (IP ipN) in
        let ip := Z.land ip (shl32 (u32 (shl32 1 newPrefix - 1)) (bits - newPrefix)) in
        Ok {| IP := from32 ip out_IP; Mask := out_Mask |}
    | None =>
        let ip := to128 (IP ipN) in
        let mask := U128 0 1 in
        let _ := u128_Lsh mask newPrefix in
        let _ := u128_Minus mask (U128 0 1) in
        let _ := u128_Lsh mask (bits - newPrefix) in
        let _ := u128_And ip mask in
        Ok {| IP := from128 ip out_IP; Mask := out_Mask |}
    end.

(** [func Broadcast(a *net.IPNet) net.IP]. In the IPv6 branch the results
    of [hostMask.Lsh], [hostMask.Minus] and [ip.Or] are not assigned. *)
Definition Broadcast (a : IPNet) : list Z :=
  let out := take (length (IP a)) (IP a) in
  let '(ones, bits) := Size (Mask a) in
  match To4 (IP a) with
  | Some _ =>
      let ip := to32 (IP a) in
      let ip := Z.lor ip (u32 (shl32 1 (bits - ones) - 1)) in
      from32 ip out
  | None =>
      let ip := to128 (IP a) in
      let hostMask := U128 0 1 in
      let _ := u128_Lsh hostMask (bits - ones) in
      let _ := u128_Minus hostMask (U128 0 1) in
      let _ := u128_Or ip hostMask in
      from128 ip out
  end.

(** ** The same functions on memory

    [net.IPNet] values reach the functions through pointers and hold
    slices, so what a call may change is modelled on a store: byte arrays,
    and [IPNet] structs whose two fields are slice headers. The addresses
    are the positions in the two lists; an allocation appends. *)

(** A slice header: backing array, offset, length. *)
Record sliceRef : Type := SliceRef { s_arr : nat; s_off : nat; s_len : nat }.

(** A [net.IPNet] struct; [None] is a [nil] slice. *)
Record netCell : Type := NetCell { c_IP : option sliceRef; c_Mask : option sliceRef }.

Record heap : Type := Heap { arrays : list (list Z); cells : list netCell }.

(** The bytes a slice shows. *)
Definition read (h : heap) (s : option sliceRef) : list Z :=
  match s with
  | None => []
  | Some r => take (s_len r) (drop (s_off r) (default [] (arrays h !! s_arr r)))
  end.

(** Overwriting the window of a slice with [bs]. *)
Definition store (h : heap) (r : sliceRef) (bs : list Z) : heap :=
  {| arrays :=
       alter (fun arr => take (s_off r) arr ++ take (s_len r) bs
                         ++ drop (s_off r + s_len r) arr)
             (s_arr r) (arrays h);
     cells := cells h |}.

(** [make([]byte, n)] and array literals: a new array and a slice of all
    of it. *)
Definition alloc_bytes (h : heap) (bs : list Z) : heap * sliceRef :=
  ({| arrays := arrays h ++ [bs]; cells := cells h |},
   SliceRef (length (arrays h)) 0 (length bs)).

(** [&net.IPNet{...}] *)
Definition alloc_cell (h : heap) (c : netCell) : heap * nat :=
  ({| arrays := arrays h; cells := cells h ++ [c] |}, length (cells h)).

(** What a struct shows: the [IPNet] value of the pure functions. *)
Definition snapshot (h : heap) (c : netCell) : IPNet :=
  {| IP := read h (c_IP c); Mask := read h (c_Mask c) |}.

(** [from32(n, ip)] and [from128(u, ip)] write through the slice they are
    given; on a [nil] slice there is nothing to write to. *)
Definition from32_mem (h : heap) (n : Z) (ip : option sliceRef) : heap :=
  match ip with
  | None => h
  | Some r => store h r (from32 n (read h ip))
  end.

Definition from128_mem (h : heap) (u : uint128) (ip : option sliceRef) : heap :=
  match ip with
  | None => h
  | Some r => store h r (from128 u (read h ip))
  end.

(** [net.CIDRMask]: a new array, or [nil]. *)
Definition CIDRMask_mem (h : heap) (ones bits : Z) : heap * option sliceRef :=
  if negb (bits =? 32) && negb (bits =? 128) then (h, None)
  else if (ones <? 0) || (bits <? ones) then (h, None)
  else let '(h', r) := alloc_bytes h (cidr_bytes (Z.to_nat (bits / 8)) ones) in
       (h', Some r).

(** [Broadcast] with its reads and writes. *)
Definition Broadcast_mem (h : heap) (a : nat) : heap * result (option sliceRef) :=
  match cells h !! a with
  | None => (h, Panic "nil pointer dereference")
  | Some c =>
      let '(h1, out) := alloc_bytes h (make (length (read h (c_IP c)))) in
      let h2 := store h1 out (read h1 (c_IP c)) in
      let '(ones, bits) := Size (read h2 (c_Mask c)) in
      match To4 (read h2 (c_IP c)) with
      | Some _ =>
          let ip := to32 (read h2 (c_IP c)) in
          let ip := Z.lor ip (u32 (shl32 1 (bits - ones) - 1)) in
          (from32_mem h2 ip (Some out), Ok (Some out))
      | None =>
          let ip := to128 (read h2 (c_IP c)) in
          let hostMask := U128 0 1 in
          let _ := u128_Lsh hostMask (bits - ones) in
          let _ := u128_Minus hostMask (U128 0 1) in
          let _ := u128_Or ip hostMask in
          (from128_mem h2 ip (Some out), Ok (Some out))
      end
  end.

(** [Supernet] with its reads and writes; the result is a pointer to a
    new struct. *)
Definition Supernet_mem (h : heap) (ipN : nat) (newPrefix : Z) : heap * result nat :=
  match cells h !! ipN with
  | None => (h, Panic "nil pointer dereference")
  | Some c =>
      let '(ones, bits) := Size (read h (c_Mask c)) in
      if (newPrefix <? 0) || (ones <? newPrefix) || (bits <? newPrefix)
      then (h, Panic "new prefix must be less than current")
      else
        let '(h1, out_IP) := alloc_bytes h (make (length (read h (c_IP c)))) in
        let '(h2, out_Mask) := CIDRMask_mem h1 newPrefix bits in
        match To4 (read h2 (c_IP c)) with
        | Some _ =>
            let ip := to32 (read h2 (c_IP c)) in
            let ip := Z.land ip (shl32 (u32 (shl32 1 newPrefix - 1)) (bits - newPrefix)) in
            let h3 := from32_mem h2 ip (Some out_IP) in
            let '(h4, p) := alloc_cell h3 (NetCell (Some out_IP) out_Mask) in
            (h4, Ok p)
        | None =>
            let ip := to128 (read h2 (c_IP c)) in
            let mask := U128 0 1 in
            let _ := u128_Lsh mask newPrefix in
            let _ := u128_Minus mask (U128 0 1) in
            let _ := u128_Lsh mask (bits - newPrefix) in
            let _ := u128_And ip mask in
            let h3 := from128_mem h2 ip (Some out_IP) in
            let '(h4, p) := alloc_cell h3 (NetCell (Some out_IP) out_Mask) in
            (h4, Ok p)
        end
  end.

(** [asNet] with its allocations and writes. *)
Definition ip4Net_asNet_mem (h : heap) (n : ip4Net) : heap * nat :=
  let '(h1, ipS) := alloc_bytes h (make 4) in
  let '(h2, maskS) := alloc_bytes h1 (make 4) in
  let '(h3, r) := alloc_cell h2 (NetCell (Some ipS) (Some maskS)) in
  let h4 := from32_mem h3 (addr n) (Some ipS) in
  let h5 := from32_mem h4 (ip4Net_mask n) (Some maskS) in
  (h5, r).

Definition ip6Net_asNet_mem (h : heap) (n : ip6Net) : heap * nat :=
  let '(h1, ipS) := alloc_bytes h (make 16) in
  let '(h2, maskS) := alloc_bytes h1 (make 16) in
  let '(h3, r) := alloc_cell h2 (NetCell (Some ipS) (Some maskS)) in
  let h4 := from128_mem h3 (addr n) (Some ipS) in
  let h5 := from128_mem h4 (ip6Net_mask n) (Some maskS) in
  (h5, r).

(** [result = append(result, m.asNet())] for each rendered entry. *)
Fixpoint render {T} (asNet_mem : heap -> T -> heap * nat) (h : heap) (ms : list T)
  : heap * list nat :=
  match ms with
  | [] => (h, [])
  | m :: ms' =>
      let '(h1, p) := asNet_mem h m in
      let '(h2, ps) := render asNet_mem h1 ms' in
      (h2, p :: ps)
  end.

(** [Collapse] with its reads and writes: the inputs are read through
    their pointers into typed values, the engine works on those, and the
    results are rendered into new structs. *)
Definition Collapse_mem (ro : rangeOrder) (h : heap) (toMerge : list nat)
  : heap * result (list nat) :=
  match mapM (fun p => cells h !! p) toMerge with
  | None => (h, Panic "nil pointer dereference")
  | Some cs =>
      match snapshot h <$> cs with
      | [] => (h, Ok [])
      | first :: others =>
          let four := is4 first in
          if forallb (fun ipN => Bool.eqb four (is4 ipN)) others
          then
            if four then
              match collapse4_nets ro (newIP4Net <$> first :: others) with
              | Ok ms => let '(h', ps) := render ip4Net_asNet_mem h ms in (h', Ok ps)
              | Panic e => (h, Panic e)
              end
            else
              match collapse6_nets ro (newIP6Net <$> first :: others) with
              | Ok ms => let '(h', ps) := render ip6Net_asNet_mem h ms in (h', Ok ps)
              | Panic e => (h, Panic e)
              end
          else (h, Panic "all versions must be the same")
      end
  end.

(** ** Vocabulary of the properties *)

(** [range] delivers every value of the map exactly once. *)
Definition range_ok (ro : rangeOrder) : Prop :=
  (forall l, range4 ro l ≡ₚ l) /\ (forall l, range6 ro l ≡ₚ l).

(** The order that walks the map as [map_to_list] lists it. *)
Definition range_id : rangeOrder := {| range4 := fun l => l; range6 := fun l => l |}.

(** No two entries of [ms], at different places, have the same parent. *)
Definition distinct_parents {A} (super : typedNet A -> typedNet A)
    (ms : list (typedNet A)) : Prop :=
  forall i j x y, ms !! i = Some x -> ms !! j = Some y -> super x = super y -> i = j.

(** An IPv4 network from its four bytes and prefix length. *)
Definition cidr4 (a b c d p : Z) : IPNet := {| IP := [a; b; c; d]; Mask := CIDRMask p 32 |}.

(** The fields are in the range of their Go types and the prefix length
    does not exceed the width of the address. *)
Definition valid4 (n : ip4Net) : Prop :=
  0 <= addr n < 2 ^ 32 /\ 0 <= prefix n <= 32.

Definition valid128 (u : uint128) : Prop :=
  0 <= hi u < 2 ^ 64 /\ 0 <= lo u < 2 ^ 64.

Definition valid6 (n : ip6Net) : Prop :=
  valid128 (addr n) /\ 0 <= prefix n <= 128.

(** No host bit is set: the network's own mask leaves the address as it is. *)
Definition masked4 (n : ip4Net) : Prop := Z.land (addr n) (ip4Net_mask n) = addr n.

Definition masked6 (n : ip6Net) : Prop := u128_And (addr n) (ip6Net_mask n) = addr n.

(** The two address families, and the methods of a typed network by
    family. *)
Inductive family : Type -> Type :=
| IPv4 : family Z
| IPv6 : family uint128.

Definition super_of {A} (f : family A) : typedNet A -> typedNet A :=
  match f with IPv4 => ip4Net_super | IPv6 => ip6Net_super end.

Definition mask_of {A} (f : family A) : typedNet A -> A :=
  match f with IPv4 => ip4Net_mask | IPv6 => ip6Net_mask end.

Definition and_of {A} (f : family A) : A -> A -> A :=
  match f with IPv4 => Z.land | IPv6 => u128_And end.

Definition valid_of {A} (f : family A) : typedNet A -> Prop :=
  match f with IPv4 => valid4 | IPv6 => valid6 end.

Definition masked_of {A} (f : family A) (n : typedNet A) : Prop :=
  and_of f (addr n) (mask_of f n) = addr n.

(** What the Go types alone guarantee: the address fits its integer type
    and the prefix length is a [uint8]. *)
Definition in_range {A} (f : family A) : A -> Prop :=
  match f in family T return T -> Prop with
  | IPv4 => fun a => 0 <= a < 2 ^ 32
  | IPv6 => valid128
  end.

Definition typed_ok {A} (f : family A) (n : typedNet A) : Prop :=
  in_range f (addr n) /\ 0 <= prefix n < 256.

(** An IPv6 network from its sixteen bytes and prefix length. *)
Definition cidr6 (bs : list Z) (p : Z) : IPNet := {| IP := bs; Mask := CIDRMask p 128 |}.

(** 2001:db8:0:1::/64 *)
Definition net6_example : IPNet :=
  cidr6 [32; 1; 13; 184; 0; 0; 0; 1; 0; 0; 0; 0; 0; 0; 0; 0] 64.

(** Values of Go's [byte]. *)
Definition is_bytes (bs : list Z) : Prop := Forall (fun b => 0 <= b < 256) bs.

(** The address [ip] lies in the range of [n]: it agrees with the
    network address under the mask, byte by byte. *)
Definition covers (n : IPNet) (ip : list Z) : bool :=
  bool_decide (length ip = length (IP n))
  && bool_decide (zip_with Z.land ip (Mask n) = zip_with Z.land (IP n) (Mask n)).

(** Two orders in which the map may be walked: the values with the longer
    prefix first, or those with the shorter prefix first. *)
Definition range_long_first : rangeOrder :=
  {| range4 := sort_nets (fun x y => prefix y <? prefix x);
     range6 := sort_nets (fun x y => prefix y <? prefix x) |}.

Definition range_short_first : rangeOrder :=
  {| range4 := sort_nets (fun x y => prefix x <? prefix y);
     range6 := sort_nets (fun x y => prefix x <? prefix y) |}.

(** Not of the form ::ffff:a.b.c.d, which [To4] takes for IPv4. *)
Definition unmapped (u : uint128) : Prop :=
  ~ (hi u = 0 /\ lo u / 2 ^ 32 = 65535).

(** A typed network that is in range and has no host bit set. *)
Definition good4 (n : ip4Net) : Prop := valid4 n /\ masked4 n.

Definition good6 (n : ip6Net) : Prop := valid6 n /\ masked6 n /\ unmapped (addr n).

(** An input of [Collapse] that the code takes for IPv4 (for IPv6) and
    reads as such a typed network. *)
Definition well_formed4 (ipN : IPNet) : Prop :=
  is4 ipN = true /\ good4 (newIP4Net ipN).

Definition well_formed6 (ipN : IPNet) : Prop :=
  is4 ipN = false /\ good6 (newIP6Net ipN).

(** A homogeneous list of well-formed networks. *)
Definition well_formed (toMerge : list IPNet) : Prop :=
  Forall well_formed4 toMerge \/ Forall well_formed6 toMerge.

(** Every array and every struct of [h] is in [h'], at the same place
    and with the same content. *)
Definition preserved (h h' : heap) : Prop :=
  (forall i bs, arrays h !! i = Some bs -> arrays h' !! i = Some bs)
  /\ (forall p c, cells h !! p = Some c -> cells h' !! p = Some c).

(** The struct holds slices of arrays of [h]. *)
Definition cell_in (h : heap) (c : netCell) : Prop :=
  (forall r, c_IP c = Some r -> (s_arr r < length (arrays h))%nat)
  /\ (forall r, c_Mask c = Some r -> (s_arr r < length (arrays h))%nat).

(** What was in memory before is there after, and every struct that
    held slices of arrays of [h] shows the same [IPNet] value. *)
Definition unchanged (h h' : heap) : Prop :=
  preserved h h'
  /\ (forall p c, cells h !! p = Some c -> cell_in h c ->
                 cells h' !! p = Some c /\ snapshot h' c = snapshot h c).

(** A struct that [h'] holds at [p] and the [IPNet] value it shows. *)
Definition shows (h' : heap) (p : nat) (v : IPNet) : Prop :=
  exists c, cells h' !! p = Some c /\ cell_in h' c /\ snapshot h' c = v.

(** A store with 10.0.0.0/24 and 2001:db8:0:1::/64 in it. *)
Definition heap_example : heap :=
  {| arrays := [[10; 0; 0; 0]; [255; 255; 255; 0];
                [32; 1; 13; 184; 0; 0; 0; 1; 0; 0; 0; 0; 0; 0; 0; 0];
                [255; 255; 255; 255; 255; 255; 255; 255; 0; 0; 0; 0; 0; 0; 0; 0]];
     cells := [NetCell (Some (SliceRef 0 0 4)) (Some (SliceRef 1 0 4));
               NetCell (Some (SliceRef 2 0 16)) (Some (SliceRef 3 0 16))] |}.

(** ** Subnet tests

    [IsSubnet] calls [Contains] of package [net], which is modelled with
    the helper it calls. *)

(** [func networkNumberAndMask(n *IPNet) (ip IP, m IPMask)] of package
    [net]; the result [nil, nil] is [([], [])]. *)
Definition networkNumberAndMask (n : IPNet) : list Z * list Z :=
  let ip := match To4 (IP n) with Some x => x | None => IP n end in
  if bool_decide (To4 (IP n) = None) && negb (bool_decide (length ip = 16%nat))
  then ([], [])
  else
    let m := Mask n in
    if bool_decide (length m = 4%nat) then
      if negb (bool_decide (length ip = 4%nat)) then ([], []) else (ip, m)
    else if bool_decide (length m = 16%nat) then
      if bool_decide (length ip = 4%nat) then (ip, drop 12 m) else (ip, m)
    else ([], []).

(** The loop [for i := 0; i < l; i++] of [Contains], at index [i] with
    [k] iterations to go. *)
Fixpoint contains_from (nn m ip : list Z) (i k : nat) : bool :=
  match k with
  | O => true
  | S k' =>
      if negb (Z.land (nth i nn 0) (nth i m 0) =? Z.land (nth i ip 0) (nth i m 0))
      then false
      else contains_from nn m ip (S i) k'
  end.

(** [func (n *IPNet) Contains(ip IP) bool] of package [net]. *)
Definition Contains (n : IPNet) (ip : list Z) : bool :=
  let '(nn, m) := networkNumberAndMask n in
  let ip := match To4 ip with Some x => x | None => ip end in
  let l := length ip in
  if negb (bool_decide (l = length nn)) then false
  else contains_from nn m ip 0 l.

(** [func maskPrefix(a, b net.IPMask) bool] *)
Definition maskPrefix (a b : list Z) : bool :=
  let '(aOnes, aBits) := Size a in
  let '(bOnes, bBits) := Size b in
  (aBits =? bBits) && (aOnes <=? bOnes).

(** [func IsSubnet(a, b *net.IPNet) bool] *)
Definition IsSubnet (a b : IPNet) : bool :=
  Contains a (IP b) && maskPrefix (Mask a) (Mask b).

(** [func IsSupernet(a, b *net.IPNet) bool] *)
Definition IsSupernet (a b : IPNet) : bool := IsSubnet b a.

(** ** Vocabulary of the further properties *)

(** The typed part of [collapse4] / [collapse6], by family. *)
Definition collapse_of {A} (f : family A) (ro : rangeOrder)
  : list (typedNet A) -> result (list (typedNet A)) :=
  match f with IPv4 => collapse4_nets ro | IPv6 => collapse6_nets ro end.

(** The address [x] agrees with the address of [n] under the mask of
    [n]: the test of the final pass of [collapse4] / [collapse6]. *)
Definition inside_of {A} (f : family A) (n : typedNet A) (x : A) : Prop :=
  and_of f x (mask_of f n) = and_of f (addr n) (mask_of f n).

(** ** Invariant of the loop: coverage *)

Section cover.
Context {A : Type} `{Countable A}.
Abbreviation N := (typedNet A).
Variable super : N -> N.
Variable ok : N -> Prop.
Variable inside : N -> A -> Prop.

(** Stack and map hold [ok] entries and together they are [inside] the
    same addresses as the stack [nets0] the loop started from. *)
Definition cover_at (nets0 nets : list N) (supers : gmap N N) : Prop :=
  all_good_at super ok nets supers
  /\ forall x, (exists e, (e ∈ nets \/ e ∈ values supers) /\ inside e x)
               <-> (exists n, n ∈ nets0 /\ inside n x).
End cover.

(** ** Invariant of the loop: origin *)

Section origin.
Context {A : Type} `{Countable A}.
Abbreviation N := (typedNet A).
Variable super : N -> N.
Variable ok : N -> Prop.
Variable rel : N -> N -> Prop.

(** Stack and map hold [ok] entries, each in relation [rel] with one of
    the entries of the stack [nets0] the loop started from. *)
Definition origin_at (nets0 nets : list N) (supers : gmap N N) : Prop :=
  all_good_at super ok nets supers
  /\ forall e, e ∈ nets \/ e ∈ values supers -> exists n, n ∈ nets0 /\ rel e n.
End origin.

(** [e] is [n] or stands above it: its prefix length is not longer and
    the address of [n] agrees with its address under its mask. *)
Definition above_of {A} (f : family A) (e n : typedNet A) : Prop :=
  prefix e <= prefix n /\ inside_of f e (addr n).

(** An IPv4 network from its address as a number and its prefix length. *)
Definition net4 (a p : Z) : IPNet := {| IP := be_encode 4 a; Mask := CIDRMask p 32 |}.

(** The number that the bytes of the address of a network spell. *)
Definition ip_number (n : IPNet) : Z := be_decode (IP n).

(** Following the words of the specification ("immediate parent"): the
    network one bit shorter that contains [x]. It keeps the first
    [ones - 1] bits of the address of [x] and has every other bit clear;
    it is given by its address as a number, its prefix length and the
    width of the mask. The code's [super] is not used. *)
Definition immediate_parent (x : IPNet) : Z * Z * Z :=
  let '(ones, bits) := Size (Mask x) in
  (ip_number x / 2 ^ (bits - ones + 1) * 2 ^ (bits - ones + 1), ones - 1, bits).

(** ::ffff:10.0.1.0/120 as [net.ParseCIDR] returns it: sixteen address
    bytes and a 128-bit mask. *)
Definition mapped_example : IPNet :=
  {| IP := [0; 0; 0; 0; 0; 0; 0; 0; 0; 0; 255; 255; 10; 0; 1; 0];
     Mask := CIDRMask 120 128 |}.

(** A network laid out as [net.ParseCIDR] lays out its result, with or
    without host bits: four address bytes and the 4-byte mask of a prefix
    length, or sixteen address bytes (not IPv4-mapped) and the 16-byte
    mask of a prefix length. *)
Definition plain4 (n : IPNet) : Prop :=
  length (IP n) = 4%nat /\ is_bytes (IP n)
  /\ exists p, 0 <= p <= 32 /\ Mask n = CIDRMask p 32.

Definition plain6 (n : IPNet) : Prop :=
  length (IP n) = 16%nat /\ is_bytes (IP n) /\ To4 (IP n) = None
  /\ exists p, 0 <= p <= 128 /\ Mask n = CIDRMask p 128.

Definition plain (n : IPNet) : Prop := plain4 n \/ plain6 n.

(** The address as [Contains] compares it: [To4] of it when that is not
    [nil]. *)
Definition as4 (ip : list Z) : list Z :=
  match To4 ip with Some x => x | None => ip end.

(** The mask bytes and prefix length of a network in canonical form. *)
Definition canonical (n : IPNet) (p : Z) : Prop :=
  Mask n = cidr_bytes (length (IP n)) p
  /\ 0 <= p <= 8 * Z.of_nat (length (IP n))
  /\ Size (Mask n) = (p, 8 * Z.of_nat (length (IP n)))
  /\ (length (IP n) = 4%nat \/ length (IP n) = 16%nat /\ To4 (IP n) = None).

(** The width of the addresses of a family and the number an address
    stands for. *)
Definition width_of {A} (f : family A) : Z :=
  match f with IPv4 => 32 | IPv6 => 128 end.

Definition number_of {A} (f : family A) : A -> Z :=
  match f in family T return T -> Z with
  | IPv4 => fun a => a
  | IPv6 => u128_Z
  end.

(** [asNet] and [newIP4Net] / [newIP6Net], by family. *)
Definition asNet_of {A} (f : family A) : typedNet A -> IPNet :=
  match f with IPv4 => ip4Net_asNet | IPv6 => ip6Net_asNet end.

Definition newNet_of {A} (f : family A) : IPNet -> typedNet A :=
  match f with IPv4 => newIP4Net | IPv6 => newIP6Net end.

(** The slices of the struct are slices of arrays that [h] does not
    have. *)
Definition fresh_cell (h : heap) (c : netCell) : Prop :=
  (forall r, c_IP c = Some r -> (length (arrays h) <= s_arr r)%nat)
  /\ (forall r, c_Mask c = Some r -> (length (arrays h) <= s_arr r)%nat).

(** What [asNet] allocates: the struct is new, at the next free place,
    and so are its arrays. *)
Definition allocates {T} (asNet_mem : heap -> T -> heap * nat) : Prop :=
  forall h n,
    (asNet_mem h n).2 = length (cells h)
    /\ exists c, cells (asNet_mem h n).1 !! length (cells h) = Some c
                 /\ fresh_cell h c
                 /\ length (cells (asNet_mem h n).1) = S (length (cells h)).

(** * Properties *)

(** ** Arithmetic of masks *)

(** A property of the integers of a range, checked one by one. *)
Lemma forall_range (P : Z -> Prop) `{!forall z, Decision (P z)} (a : Z) (n : nat) :
  bool_decide (Forall P (seqZ a (Z.of_nat n))) = true ->
  forall z, a <= z < a + Z.of_nat n -> P z.
Proof.
  intros Hb%bool_decide_eq_true_1 z Hz.
  rewrite Forall_forall in Hb. apply Hb. apply elem_of_seqZ. lia.
Qed.

Lemma testbit_above W a i : 0 <= a < 2 ^ W -> W <= i -> Z.testbit a i = false.
Proof.
  intros Ha Hi. destruct (decide (a = 0)) as [->|]; [apply Z.bits_0|].
  assert (0 <= W).
  { destruct (Z.lt_ge_cases W 0) as [Hneg|]; [|done].
    rewrite Z.pow_neg_r in Ha by done. lia. }
  apply Z.bits_above_log2; [lia|]. apply Z.log2_lt_pow2; [lia|].
  pose proof (Z.pow_le_mono_r 2 W i). lia.
Qed.

(** The bits of [2^W - 2^k] are those from [k] up to [W]. *)
Lemma testbit_pow2_diff W k i :
  0 <= k <= W -> 0 <= i ->
  Z.testbit (2 ^ W - 2 ^ k) i = (k <=? i) && (i <? W).
Proof.
  intros Hk Hi.
  replace (2 ^ W - 2 ^ k) with (Z.shiftl (Z.ones (W - k)) k).
  2:{ rewrite Z.shiftl_mul_pow2, Z.ones_equiv by lia.
      replace W with ((W - k) + k) at 2 by lia. rewrite Z.pow_add_r by lia. lia. }
  rewrite Z.shiftl_spec by lia.
  destruct (Z.leb_spec k i).
  - rewrite Z.testbit_ones_nonneg by lia. cbn.
    destruct (Z.ltb_spec i W), (Z.ltb_spec (i - k) (W - k)); lia.
  - by rewrite Z.testbit_neg_r by lia.
Qed.

(** Unchanged by the mask [2^W - 2^k]: the [k] low bits are clear. *)
Lemma land_mask_low W k a :
  0 <= a < 2 ^ W -> 0 <= k <= W ->
  Z.land a (2 ^ W - 2 ^ k) = a <-> (forall i, 0 <= i < k -> Z.testbit a i = false).
Proof.
  intros Ha Hk. split.
  - intros Heq i Hi. rewrite <- Heq, Z.land_spec, testbit_pow2_diff by lia.
    destruct (Z.leb_spec k i); [lia|]. by rewrite andb_false_r.
  - intros Hlow. apply Z.bits_inj'. intros i Hi.
    rewrite Z.land_spec, testbit_pow2_diff by lia.
    destruct (Z.leb_spec k i), (Z.ltb_spec i W); cbn;
      rewrite ?andb_true_r, ?andb_false_r; try done; symmetry.
    + by apply (testbit_above W).
    + apply Hlow. lia.
    + apply Hlow. lia.
Qed.

Lemma testbit_ldiff_pow2 a k i :
  0 <= k -> 0 <= i ->
  Z.testbit (Z.ldiff a (2 ^ k)) i = Z.testbit a i && negb (i =? k).
Proof.
  intros Hk Hi. rewrite Z.ldiff_spec, Z.pow2_bits_eqb by lia.
  by rewrite (Z.eqb_sym k i).
Qed.

Lemma ldiff_land_sum a b : Z.ldiff a b + Z.land a b = a.
Proof.
  rewrite Z.add_nocarry_lor.
  - apply Z.bits_inj'. intros i Hi.
    rewrite Z.lor_spec, Z.ldiff_spec, Z.land_spec.
    by destruct (Z.testbit a i), (Z.testbit b i).
  - apply Z.bits_inj'. intros i Hi.
    rewrite Z.land_spec, Z.ldiff_spec, Z.land_spec, Z.bits_0.
    by destruct (Z.testbit a i), (Z.testbit b i).
Qed.

Lemma ldiff_range a b : 0 <= a -> 0 <= b -> 0 <= Z.ldiff a b <= a.
Proof.
  intros Ha Hb. split.
  - apply Z.ldiff_nonneg. by left.
  - pose proof (ldiff_land_sum a b).
    assert (0 <= Z.land a b) by (apply Z.land_nonneg; by left). lia.
Qed.

(** Clearing bit [k] of an address whose [k] low bits are clear gives one
    whose [k + 1] low bits are clear. *)
Lemma ldiff_masked W k a :
  0 <= a < 2 ^ W -> 0 <= k < W ->
  Z.land a (2 ^ W - 2 ^ k) = a ->
  Z.land (Z.ldiff a (2 ^ k)) (2 ^ W - 2 ^ (k + 1)) = Z.ldiff a (2 ^ k).
Proof.
  intros Ha Hk Hc.
  assert (0 <= 2 ^ k) by (apply Z.pow_nonneg; lia).
  pose proof (ldiff_range a (2 ^ k)) as Hr.
  apply land_mask_low; [lia|lia|].
  intros i Hi. rewrite testbit_ldiff_pow2 by lia.
  destruct (Z.eqb_spec i k); [by rewrite andb_false_r|].
  rewrite andb_true_r. eapply land_mask_low; [| |exact Hc|]; lia.
Qed.

(** Under the mask of the parent, an address whose [k] low bits are clear
    is the address with bit [k] cleared. *)
Lemma land_parent_mask W k a :
  0 <= a < 2 ^ W -> 0 <= k < W ->
  Z.land a (2 ^ W - 2 ^ k) = a ->
  Z.land a (2 ^ W - 2 ^ (k + 1)) = Z.ldiff a (2 ^ k).
Proof.
  intros Ha Hk Hc.
  pose proof (proj1 (land_mask_low W k a Ha ltac:(lia)) Hc) as Hlow.
  apply Z.bits_inj'. intros i Hi.
  rewrite Z.land_spec, testbit_pow2_diff, testbit_ldiff_pow2 by lia.
  destruct (Z.leb_spec (k + 1) i), (Z.ltb_spec i W), (Z.eqb_spec i k); cbn;
    rewrite ?andb_true_r, ?andb_false_r; try done; try lia.
  - symmetry. by apply (testbit_above W).
  - rewrite Hlow; [done|lia].
Qed.

(** [x &^ bit] written with the complement, as the 128-bit code does. *)
Lemma land_clear_bit W k a :
  0 <= a < 2 ^ W -> 0 <= k < W ->
  Z.land a (2 ^ W - 1 - 2 ^ k) = Z.ldiff a (2 ^ k).
Proof.
  intros Ha Hk.
  assert (2 ^ k < 2 ^ W) by (apply Z.pow_lt_mono_r; lia).
  assert (0 < 2 ^ k) by (apply Z.pow_pos_nonneg; lia).
  replace (2 ^ W - 1 - 2 ^ k) with (Z.ldiff (Z.ones W) (2 ^ k)).
  2:{ pose proof (ldiff_land_sum (Z.ones W) (2 ^ k)) as Hs.
      rewrite (Z.land_comm (Z.ones W)), Z.land_ones, Z.mod_small in Hs by lia.
      rewrite Z.ones_equiv in *. lia. }
  apply Z.bits_inj'. intros i Hi.
  rewrite Z.land_spec, !Z.ldiff_spec.
  destruct (Z.ltb_spec i W).
  - rewrite Z.ones_spec_low by lia. done.
  - rewrite (testbit_above W a i) by lia. done.
Qed.

Lemma land_all_ones W a : 0 <= a < 2 ^ W -> 0 <= W -> Z.land a (2 ^ W - 1) = a.
Proof.
  intros Ha HW. replace (2 ^ W - 1) with (Z.ones W) by (rewrite Z.ones_equiv; lia).
  rewrite Z.land_ones, Z.mod_small by lia. done.
Qed.

(** ** The typed IPv4 network *)

Lemma ip4Net_mask_eq n :
  0 <= prefix n <= 32 -> ip4Net_mask n = 2 ^ 32 - 2 ^ (32 - prefix n).
Proof.
  intros Hp. unfold ip4Net_mask.
  apply (forall_range
           (fun p => not32 (u32 (shl32 1 (u8 (32 - p)) - 1)) = 2 ^ 32 - 2 ^ (32 - p)) 0 33);
    [by vm_compute | lia].
Qed.

Lemma ip4Net_bit_eq p : 1 <= p <= 32 -> shl32 1 (u8 (32 - p)) = 2 ^ (32 - p).
Proof.
  intros Hp.
  apply (forall_range (fun p => shl32 1 (u8 (32 - p)) = 2 ^ (32 - p)) 1 32);
    [by vm_compute | lia].
Qed.

Lemma ip4Net_super_eq n :
  1 <= prefix n <= 32 ->
  ip4Net_super n = TypedNet (Z.ldiff (addr n) (2 ^ (32 - prefix n))) (prefix n - 1).
Proof.
  intros Hp. unfold ip4Net_super. rewrite ip4Net_bit_eq by done.
  f_equal. unfold u8. apply Z.mod_small. lia.
Qed.

(** At prefix length 0 the shift count is 32, the bit is 0 and the
    decrement wraps. *)
Lemma ip4Net_super_zero n :
  prefix n = 0 -> ip4Net_super n = TypedNet (addr n) 255.
Proof.
  intros Hp. unfold ip4Net_super. rewrite Hp.
  change (shl32 1 (u8 (32 - 0))) with 0. change (u8 (0 - 1)) with 255.
  by rewrite Z.ldiff_0_r.
Qed.

Lemma ip4Net_super_valid n :
  valid4 n -> 1 <= prefix n -> valid4 (ip4Net_super n).
Proof.
  intros [Ha Hp] H1. rewrite ip4Net_super_eq by lia. split; cbn; [|lia].
  assert (0 <= 2 ^ (32 - prefix n)) by (apply Z.pow_nonneg; lia).
  pose proof (ldiff_range (addr n) (2 ^ (32 - prefix n))). lia.
Qed.

Lemma ip4Net_super_masked n :
  valid4 n -> 1 <= prefix n -> masked4 n -> masked4 (ip4Net_super n).
Proof.
  intros [Ha Hp] H1. unfold masked4.
  rewrite (ip4Net_mask_eq (ip4Net_super n)), ip4Net_mask_eq, ip4Net_super_eq by
    (rewrite ?ip4Net_super_eq; cbn; lia).
  cbn [addr prefix]. intros Hm.
  replace (32 - (prefix n - 1)) with (32 - prefix n + 1) by lia.
  apply ldiff_masked; [done|lia|done].
Qed.

Lemma ip4Net_super_covers n :
  valid4 n -> 1 <= prefix n -> masked4 n ->
  Z.land (addr n) (ip4Net_mask (ip4Net_super n)) = addr (ip4Net_super n).
Proof.
  intros [Ha Hp] H1. unfold masked4.
  rewrite ip4Net_super_eq by lia. rewrite !ip4Net_mask_eq by (cbn; lia).
  cbn [addr prefix]. intros Hm.
  replace (32 - (prefix n - 1)) with (32 - prefix n + 1) by lia.
  apply land_parent_mask; [done|lia|done].
Qed.

(** ** The typed IPv6 network *)

Lemma ip6Net_mask_eq n :
  0 <= prefix n <= 128 ->
  ip6Net_mask n = U128 (2 ^ 64 - 2 ^ (64 - Z.min (prefix n) 64))
                       (2 ^ 64 - 2 ^ (128 - Z.max (prefix n) 64)).
Proof.
  intros Hp. unfold ip6Net_mask.
  apply (forall_range
           (fun p => u128_Not (u128_Minus (u128_Lsh (U128 0 1) (u64 (128 - p))) (U128 0 1))
                     = U128 (2 ^ 64 - 2 ^ (64 - Z.min p 64))
                            (2 ^ 64 - 2 ^ (128 - Z.max p 64))) 0 129);
    [by vm_compute | lia].
Qed.

Lemma ip6Net_bit_eq p :
  1 <= p <= 128 ->
  u128_Not (u128_Lsh (U128 0 1) (u64 (128 - p)))
  = U128 (2 ^ 64 - 1 - (if p <=? 64 then 2 ^ (64 - p) else 0))
         (2 ^ 64 - 1 - (if p <=? 64 then 0 else 2 ^ (128 - p))).
Proof.
  intros Hp.
  apply (forall_range
           (fun p => u128_Not (u128_Lsh (U128 0 1) (u64 (128 - p)))
                     = U128 (2 ^ 64 - 1 - (if p <=? 64 then 2 ^ (64 - p) else 0))
                            (2 ^ 64 - 1 - (if p <=? 64 then 0 else 2 ^ (128 - p)))) 1 128);
    [by vm_compute | lia].
Qed.

Lemma ip6Net_super_eq n :
  valid6 n -> 1 <= prefix n ->
  ip6Net_super n
  = TypedNet
      (U128 (if prefix n <=? 64 then Z.ldiff (hi (addr n)) (2 ^ (64 - prefix n))
             else hi (addr n))
            (if prefix n <=? 64 then lo (addr n)
             else Z.ldiff (lo (addr n)) (2 ^ (128 - prefix n))))
      (prefix n - 1).
Proof.
  intros [[Hh Hl] Hp] H1. unfold ip6Net_super. rewrite ip6Net_bit_eq by lia.
  unfold u128_And. cbn [hi lo]. f_equal.
  - destruct (Z.leb_spec (prefix n) 64).
    + rewrite land_clear_bit by lia. rewrite Z.sub_0_r, land_all_ones by lia. done.
    + rewrite Z.sub_0_r, land_all_ones by lia. rewrite land_clear_bit by lia. done.
  - unfold u8. apply Z.mod_small. lia.
Qed.

(** At prefix length 0 the shift count is 128, the bit is 0 and the
    decrement wraps. *)
Lemma ip6Net_super_zero n :
  valid128 (addr n) -> prefix n = 0 -> ip6Net_super n = TypedNet (addr n) 255.
Proof.
  intros [Hh Hl] Hp. unfold ip6Net_super. rewrite Hp.
  change (u128_Not (u128_Lsh (U128 0 1) (u64 (128 - 0)))) with (U128 (2 ^ 64 - 1) (2 ^ 64 - 1)).
  change (u8 (0 - 1)) with 255. unfold u128_And. cbn [hi lo].
  rewrite !land_all_ones by lia. by destruct (addr n).
Qed.

Lemma ip6Net_super_valid n :
  valid6 n -> 1 <= prefix n -> valid6 (ip6Net_super n).
Proof.
  intros Hv H1. pose proof Hv as [[Hh Hl] Hp]. rewrite ip6Net_super_eq by done.
  split; cbn; [|lia].
  assert (0 <= 2 ^ (64 - prefix n) \/ 64 < prefix n) as Hpos1.
  { destruct (Z.leb_spec (prefix n) 64); [left; apply Z.pow_nonneg|right]; lia. }
  assert (0 <= 2 ^ (128 - prefix n)) by (apply Z.pow_nonneg; lia).
  split; cbn; destruct (Z.leb_spec (prefix n) 64); try done.
  - pose proof (ldiff_range (hi (addr n)) (2 ^ (64 - prefix n))). lia.
  - pose proof (ldiff_range (lo (addr n)) (2 ^ (128 - prefix n))). lia.
Qed.

Lemma ip6Net_super_masked n :
  valid6 n -> 1 <= prefix n -> masked6 n -> masked6 (ip6Net_super n).
Proof.
  intros Hv H1. pose proof Hv as [[Hh Hl] Hp]. unfold masked6.
  rewrite ip6Net_super_eq by done. rewrite !ip6Net_mask_eq by (cbn; lia).
  unfold u128_And. cbn [addr prefix hi lo]. destruct (addr n) as [h l]. cbn [hi lo] in *.
  intros [= Hmh Hml]. destruct (Z.leb_spec (prefix n) 64); f_equal.
  - replace (Z.min (prefix n) 64) with (prefix n) in Hmh by lia.
    replace (64 - Z.min (prefix n - 1) 64) with (64 - prefix n + 1) by lia.
    apply ldiff_masked; [done|lia|done].
  - replace (Z.max (prefix n - 1) 64) with (Z.max (prefix n) 64) by lia. done.
  - replace (Z.min (prefix n - 1) 64) with (Z.min (prefix n) 64) by lia. done.
  - replace (Z.max (prefix n) 64) with (prefix n) in Hml by lia.
    replace (128 - Z.max (prefix n - 1) 64) with (128 - prefix n + 1) by lia.
    apply ldiff_masked; [done|lia|done].
Qed.

Lemma ip6Net_super_covers n :
  valid6 n -> 1 <= prefix n -> masked6 n ->
  u128_And (addr n) (ip6Net_mask (ip6Net_super n)) = addr (ip6Net_super n).
Proof.
  intros Hv H1. pose proof Hv as [[Hh Hl] Hp]. unfold masked6.
  rewrite ip6Net_super_eq by done. rewrite !ip6Net_mask_eq by (cbn; lia).
  unfold u128_And. cbn [addr prefix hi lo]. destruct (addr n) as [h l]. cbn [hi lo] in *.
  intros [= Hmh Hml]. destruct (Z.leb_spec (prefix n) 64); f_equal.
  - replace (Z.min (prefix n) 64) with (prefix n) in Hmh by lia.
    replace (64 - Z.min (prefix n - 1) 64) with (64 - prefix n + 1) by lia.
    apply land_parent_mask; [done|lia|done].
  - replace (Z.max (prefix n - 1) 64) with (Z.max (prefix n) 64) by lia. done.
  - replace (Z.min (prefix n - 1) 64) with (Z.min (prefix n) 64) by lia. done.
  - replace (Z.max (prefix n) 64) with (prefix n) in Hml by lia.
    replace (128 - Z.max (prefix n - 1) 64) with (128 - prefix n + 1) by lia.
    apply land_parent_mask; [done|lia|done].
Qed.

(** [Less] compares the numbers that the addresses stand for. *)
Lemma u128_Cmp_lt a b :
  valid128 a -> valid128 b -> (u128_Cmp a b =? -1) = (u128_Z a <? u128_Z b).
Proof.
  intros [Hah Hal] [Hbh Hbl]. unfold u128_Cmp, u128_Z.
  destruct (Z.ltb_spec (hi a) (hi b)), (Z.ltb_spec (hi b) (hi a)),
    (Z.ltb_spec (lo a) (lo b)), (Z.ltb_spec (lo b) (lo a)); cbn;
    destruct (Z.ltb_spec (hi a * 2 ^ 64 + lo a) (hi b * 2 ^ 64 + lo b)); lia.
Qed.

Lemma u128_Z_inj a b : valid128 a -> valid128 b -> u128_Z a = u128_Z b -> a = b.
Proof.
  intros [Hah Hal] [Hbh Hbl]. unfold u128_Z. destruct a as [ah al], b as [bh bl].
  cbn in *. intros Heq. f_equal; lia.
Qed.

(** ** Bytes *)

Lemma be_encode_length n x : length (be_encode n x) = n.
Proof.
  revert x. induction n as [|n IH]; intros x; cbn; [done|].
  rewrite length_app, IH. cbn. lia.
Qed.

Lemma be_encode_bytes n x : Forall (fun b => 0 <= b < 256) (be_encode n x).
Proof.
  revert x. induction n as [|n IH]; intros x; cbn; [constructor|].
  apply Forall_app. split; [apply IH|]. repeat constructor; apply Z.mod_pos_bound; lia.
Qed.

Lemma be_decode_snoc l b : be_decode (l ++ [b]) = be_decode l * 256 + b.
Proof. unfold be_decode. by rewrite foldl_app. Qed.

Lemma be_decode_encode n x : be_decode (be_encode n x) = x mod 256 ^ Z.of_nat n.
Proof.
  revert x. induction n as [|n IH]; intros x.
  - cbn. by rewrite Z.mod_1_r.
  - cbn [be_encode]. rewrite be_decode_snoc, IH.
    rewrite Nat2Z.inj_succ, Z.pow_succ_r by lia.
    rewrite Z.rem_mul_r by (try apply Z.pow_nonzero; lia). lia.
Qed.

Lemma be_decode_encode_id n x :
  0 <= x < 256 ^ Z.of_nat n -> be_decode (be_encode n x) = x.
Proof. intros Hx. rewrite be_decode_encode. by apply Z.mod_small. Qed.

Lemma length8_inv (l : list Z) :
  length l = 8%nat ->
  exists a0 a1 a2 a3 a4 a5 a6 a7, l = [a0; a1; a2; a3; a4; a5; a6; a7].
Proof.
  intros Hl. do 8 (destruct l as [|? l]; [done|]). destruct l; [|cbn in Hl; lia].
  by do 8 eexists.
Qed.

Lemma be_encode_decode bs : is_bytes bs -> be_encode (length bs) (be_decode bs) = bs.
Proof.
  induction bs as [|b l IH] using rev_ind; intros Hb; [done|].
  apply Forall_app in Hb as [Hl [Hb _]%Forall_cons].
  rewrite length_app, Nat.add_1_r, be_decode_snoc. cbn [be_encode length].
  replace ((be_decode l * 256 + b) / 256) with (be_decode l)
    by (Z.div_mod_to_equations; lia).
  replace ((be_decode l * 256 + b) mod 256) with b by (Z.div_mod_to_equations; lia).
  by rewrite IH.
Qed.

Lemma from128_to128 ip bs :
  length ip = 16%nat -> is_bytes ip -> length bs = 16%nat -> from128 (to128 ip) bs = ip.
Proof.
  intros Hlen Hb Hbs. unfold from128, to128. cbn [hi lo].
  pose proof (be_encode_decode (take 8 ip)) as E1.
  pose proof (be_encode_decode (take 8 (drop 8 ip))) as E2.
  rewrite length_take in E1, E2. rewrite length_drop in E2.
  replace (8 `min` length ip)%nat with 8%nat in E1 by lia.
  replace (8 `min` (length ip - 8))%nat with 8%nat in E2 by lia.
  rewrite E1 by (by apply Forall_take).
  rewrite E2 by (by apply Forall_take, Forall_drop).
  rewrite (drop_ge bs 16) by lia. rewrite app_nil_r.
  rewrite <- (take_drop 8 ip) at 3. f_equal.
  apply take_ge. rewrite length_drop. lia.
Qed.

(** *** Rendering an IPv4 network and reading it back *)

Lemma from32_make4 a : from32 a (make 4) = be_encode 4 a.
Proof. done. Qed.

Lemma to32_from32 a : 0 <= a < 2 ^ 32 -> to32 (from32 a (make 4)) = a.
Proof.
  intros Ha. rewrite from32_make4. unfold to32. rewrite be_encode_length.
  change (drop (4 - 4) (be_encode 4 a)) with (be_encode 4 a).
  apply be_decode_encode_id. change (256 ^ Z.of_nat 4) with (2 ^ 32). lia.
Qed.

Lemma Size_mask4 n :
  0 <= prefix n <= 32 -> Size (from32 (ip4Net_mask n) (make 4)) = (prefix n, 32).
Proof.
  intros Hp. unfold ip4Net_mask.
  apply (forall_range
           (fun p => Size (from32 (not32 (u32 (shl32 1 (u8 (32 - p)) - 1))) (make 4))
                     = (p, 32)) 0 33);
    [vm_compute; reflexivity | lia].
Qed.

Lemma newIP4Net_asNet n : valid4 n -> newIP4Net (ip4Net_asNet n) = n.
Proof.
  intros [Ha Hp]. unfold newIP4Net, ip4Net_asNet. cbn [IP Mask].
  rewrite Size_mask4, to32_from32 by done. destruct n as [a p]. cbn in *.
  f_equal. unfold u8. apply Z.mod_small. lia.
Qed.

Lemma is4_asNet4 n : is4 (ip4Net_asNet n) = true.
Proof.
  unfold is4, ip4Net_asNet, To4. cbn [IP]. rewrite from32_make4.
  rewrite decide_True by apply be_encode_length. by apply bool_decide_eq_true_2.
Qed.

(** *** Rendering an IPv6 network and reading it back *)

Lemma from128_make16 u : from128 u (make 16) = be_encode 8 (hi u) ++ be_encode 8 (lo u).
Proof. unfold from128. change (drop 16 (make 16)) with (@nil Z). by rewrite app_nil_r. Qed.

Lemma to128_from128 u : valid128 u -> to128 (from128 u (make 16)) = u.
Proof.
  intros [Hh Hl]. rewrite from128_make16. destruct u as [h l]. cbn [hi lo] in *.
  unfold to128.
  rewrite take_app_length' by (by rewrite be_encode_length).
  rewrite drop_app_length' by (by rewrite be_encode_length).
  rewrite firstn_all2 by (by rewrite be_encode_length).
  rewrite !be_decode_encode_id; [done| |]; change (256 ^ Z.of_nat 8) with (2 ^ 64); lia.
Qed.

Lemma Size_mask6 n :
  0 <= prefix n <= 128 -> Size (from128 (ip6Net_mask n) (make 16)) = (prefix n, 128).
Proof.
  intros Hp. unfold ip6Net_mask.
  apply (forall_range
           (fun p => Size (from128 (u128_Not (u128_Minus (u128_Lsh (U128 0 1) (u64 (128 - p)))
                                                         (U128 0 1))) (make 16))
                     = (p, 128)) 0 129);
    [vm_compute; reflexivity | lia].
Qed.

Lemma newIP6Net_asNet n : valid6 n -> newIP6Net (ip6Net_asNet n) = n.
Proof.
  intros [Ha Hp]. unfold newIP6Net, ip6Net_asNet. cbn [IP Mask].
  rewrite Size_mask6, to128_from128 by done. destruct n as [a p]. cbn in *.
  f_equal. unfold u8. apply Z.mod_small. lia.
Qed.

(** An address that is not IPv4-mapped is rendered as IPv6. *)
Lemma To4_from128 u :
  valid128 u -> unmapped u -> To4 (from128 u (make 16)) = None.
Proof.
  intros Hv Hun. pose proof (to128_from128 u Hv) as Hrt.
  rewrite from128_make16 in *.
  pose proof (be_encode_bytes 8 (lo u)) as Hb.
  destruct (length8_inv _ (be_encode_length 8 (hi u)))
    as (a0 & a1 & a2 & a3 & a4 & a5 & a6 & a7 & Ea).
  destruct (length8_inv _ (be_encode_length 8 (lo u)))
    as (c0 & c1 & c2 & c3 & c4 & c5 & c6 & c7 & Ec).
  rewrite Ea, Ec in *. clear Ea Ec.
  unfold To4. cbn -[Z.eqb].
  destruct (decide (16%nat = 4%nat)) as [?|_]; [done|].
  match goal with |- (if ?c then _ else _) = _ => destruct c eqn:Hc end; [|done].
  exfalso. apply Hun.
  repeat match goal with H : (_ && _) = true |- _ => apply andb_prop in H as [H ?] end.
  repeat match goal with H : (_ =? _) = true |- _ => apply Z.eqb_eq in H end.
  repeat match goal with H : Forall _ (_ :: _) |- _ => apply Forall_cons in H as [? H] end.
  subst. unfold to128, be_decode. cbn. split; [done|]. Z.div_mod_to_equations. lia.
Qed.

Lemma is4_asNet6 n : valid6 n -> unmapped (addr n) -> is4 (ip6Net_asNet n) = false.
Proof.
  intros [Hv _] Hun. unfold is4, ip6Net_asNet. cbn [IP].
  rewrite To4_from128 by done. apply bool_decide_eq_false_2. intros Hn. by apply Hn.
Qed.

(** ** The parent of a typed network *)

(** C4, as stated, fails: [super] clears one bit. For 10.0.0.5/24 it
    returns 10.0.0.5/23, whose low bits 0 and 2 are still set. *)
Lemma super_keeps_host_bits :
  valid_of IPv4 (TypedNet 167772165 24)
  /\ 1 <= prefix (TypedNet 167772165 24 : ip4Net)
  /\ super_of IPv4 (TypedNet 167772165 24) = TypedNet 167772165 23
  /\ ~ masked_of IPv4 (super_of IPv4 (TypedNet 167772165 24)).
Proof.
  split; [cbn; unfold valid4; cbn; lia|]. split; [cbn; lia|]. split; [by vm_compute|].
  unfold masked_of. vm_compute. discriminate.
Qed.

(** The bits of a number written as a high part and [w] low bits. *)
Lemma testbit_shift_add w a x i :
  0 <= w -> 0 <= x < 2 ^ w -> 0 <= i ->
  Z.testbit (a * 2 ^ w + x) i = if i <? w then Z.testbit x i else Z.testbit a (i - w).
Proof.
  intros Hw Hx Hi. destruct (Z.ltb_spec i w) as [Hlt|Hge].
  - rewrite <- (Z.mod_pow2_bits_low (a * 2 ^ w + x) w i) by lia.
    f_equal. rewrite Z.add_comm, Z.mod_add by lia. by apply Z.mod_small.
  - replace i with (i - w + w) at 1 by lia.
    rewrite <- Z.div_pow2_bits by lia. f_equal.
    rewrite Z.add_comm, Z.div_add by lia. rewrite Z.div_small by done. lia.
Qed.

(** Clearing a bit of one half of a [uint128] clears that bit of the
    number. *)
Lemma u128_Z_ldiff_lo h l k :
  0 <= l < 2 ^ 64 -> 0 <= k < 64 ->
  u128_Z (U128 h (Z.ldiff l (2 ^ k))) = Z.ldiff (u128_Z (U128 h l)) (2 ^ k).
Proof.
  intros Hl Hk. unfold u128_Z. cbn [hi lo].
  pose proof (ldiff_range l (2 ^ k) ltac:(lia) ltac:(lia)) as Hr.
  apply Z.bits_inj'. intros i Hi.
  rewrite testbit_ldiff_pow2, !testbit_shift_add by lia.
  destruct (Z.ltb_spec i 64).
  - by rewrite testbit_ldiff_pow2 by lia.
  - replace (i =? k) with false by (symmetry; apply Z.eqb_neq; lia).
    by rewrite andb_true_r.
Qed.

Lemma u128_Z_ldiff_hi h l j :
  0 <= l < 2 ^ 64 -> 0 <= j ->
  u128_Z (U128 (Z.ldiff h (2 ^ j)) l) = Z.ldiff (u128_Z (U128 h l)) (2 ^ (j + 64)).
Proof.
  intros Hl Hj. unfold u128_Z. cbn [hi lo].
  apply Z.bits_inj'. intros i Hi.
  rewrite testbit_ldiff_pow2, !testbit_shift_add by lia.
  destruct (Z.ltb_spec i 64).
  - replace (i =? j + 64) with false by (symmetry; apply Z.eqb_neq; lia).
    by rewrite andb_true_r.
  - rewrite testbit_ldiff_pow2 by lia. f_equal. f_equal.
    destruct (Z.eqb_spec (i - 64) j), (Z.eqb_spec i (j + 64)); try done; lia.
Qed.

(** As a number, the address that [super] returns is the address it was
    given with bit [width - prefix] cleared. *)
Lemma super_number {A} (f : family A) (n : typedNet A) :
  valid_of f n -> 1 <= prefix n ->
  number_of f (addr (super_of f n))
  = Z.ldiff (number_of f (addr n)) (2 ^ (width_of f - prefix n)).
Proof.
  intros Hv Hp. destruct f; cbn [valid_of super_of number_of width_of] in *.
  - destruct Hv as [_ Hpn]. by rewrite ip4Net_super_eq by lia.
  - rewrite ip6Net_super_eq by done. cbn [addr].
    destruct Hv as [[Hh Hl] Hpn]. destruct n as [[h l] p]. cbn [addr prefix hi lo] in *.
    destruct (Z.leb_spec p 64).
    + rewrite u128_Z_ldiff_hi by lia. do 2 f_equal. lia.
    + by rewrite u128_Z_ldiff_lo by lia.
Qed.

(** C4, amended. For a typed network of either family whose prefix
    length is at least 1 and at most the width, [super] gives the prefix
    length less one and stays in range, and it clears the single bit at
    position [width - prefix] of the address: every other bit, host bits
    included, is as it was given. When the address has no host bit set,
    the result has no bit set beyond the shorter prefix length and is the
    address of the network under the mask of that shorter prefix. *)
Theorem super_clears_one_bit {A} (f : family A) (n : typedNet A) :
  valid_of f n -> 1 <= prefix n ->
  prefix (super_of f n) = prefix n - 1
  /\ valid_of f (super_of f n)
  /\ number_of f (addr (super_of f n))
     = Z.ldiff (number_of f (addr n)) (2 ^ (width_of f - prefix n))
  /\ (forall i, 0 <= i ->
        Z.testbit (number_of f (addr (super_of f n))) i
        = Z.testbit (number_of f (addr n)) i && negb (i =? width_of f - prefix n))
  /\ (masked_of f n ->
      masked_of f (super_of f n)
      /\ and_of f (addr n) (mask_of f (super_of f n)) = addr (super_of f n)).
Proof.
  intros Hv H1. pose proof (super_number f n Hv H1) as Hnum.
  assert (0 <= width_of f - prefix n) as Hk.
  { destruct f; cbn [valid_of width_of] in *; [destruct Hv as [_ ?]|destruct Hv as [_ ?]]; lia. }
  split; [|split; [|split; [exact Hnum|split]]].
  - destruct f; cbn [valid_of super_of] in *.
    + destruct Hv. by rewrite ip4Net_super_eq by lia.
    + by rewrite ip6Net_super_eq.
  - destruct f; cbn [valid_of super_of] in *.
    + by apply ip4Net_super_valid.
    + by apply ip6Net_super_valid.
  - intros i Hi. rewrite Hnum. by apply testbit_ldiff_pow2.
  - intros Hm. destruct f; cbn [valid_of super_of] in *.
    + split; [by apply ip4Net_super_masked|by apply ip4Net_super_covers].
    + split; [by apply ip6Net_super_masked|by apply ip6Net_super_covers].
Qed.

Lemma super_clears_one_bit_witness :
  prefix (super_of IPv4 (TypedNet 167772416 24)) = 24 - 1
  /\ valid_of IPv4 (super_of IPv4 (TypedNet 167772416 24))
  /\ number_of IPv4 (addr (super_of IPv4 (TypedNet 167772416 24)))
     = Z.ldiff (number_of IPv4 167772416) (2 ^ (width_of IPv4 - 24))
  /\ masked_of IPv4 (super_of IPv4 (TypedNet 167772416 24))
  /\ and_of IPv4 167772416 (mask_of IPv4 (super_of IPv4 (TypedNet 167772416 24)))
     = addr (super_of IPv4 (TypedNet 167772416 24)).
Proof.
  destruct (super_clears_one_bit IPv4 (TypedNet 167772416 24)) as (Hp & Hv & Hn & _ & Hm).
  - cbn. unfold valid4. cbn. lia.
  - cbn. lia.
  - split; [exact Hp|]. split; [exact Hv|]. split; [exact Hn|].
    apply Hm. unfold masked_of. vm_compute. reflexivity.
Defined.

Lemma land_le_l a b : 0 <= a -> 0 <= b -> 0 <= Z.land a b <= a.
Proof.
  intros Ha Hb. split; [apply Z.land_nonneg; by left|].
  pose proof (ldiff_land_sum a b). pose proof (ldiff_range a b). lia.
Qed.

(** [super] stays within the Go types. *)
Lemma super_typed_ok {A} (f : family A) (n : typedNet A) :
  typed_ok f n -> typed_ok f (super_of f n).
Proof.
  destruct f; intros [Ha Hp]; cbn in *.
  - split; cbn.
    + assert (0 <= shl32 1 (u8 (32 - prefix n))).
      { unfold shl32, u32. apply Z.mod_pos_bound. lia. }
      pose proof (ldiff_range (addr n) (shl32 1 (u8 (32 - prefix n)))). lia.
    + unfold u8. apply Z.mod_pos_bound. lia.
  - destruct Ha as [Hh Hl]. unfold typed_ok, in_range, valid128, ip6Net_super.
    cbn [addr prefix]. set (b := u128_Not _).
    assert (0 <= hi b /\ 0 <= lo b) as [Hbh Hbl].
    { unfold b, u128_Not, u64. cbn [hi lo]. split; apply Z.mod_pos_bound; lia. }
    pose proof (land_le_l (hi (addr n)) (hi b)).
    pose proof (land_le_l (lo (addr n)) (lo b)).
    assert (0 <= u8 (prefix n - 1) < 256) by (unfold u8; apply Z.mod_pos_bound; lia).
    unfold u128_And. cbn [hi lo]. lia.
Qed.

(** At prefix length 0, [super] is the identity on the address and gives
    the prefix length 255. *)
Lemma super_zero {A} (f : family A) (n : typedNet A) :
  typed_ok f n -> prefix n = 0 -> super_of f n = TypedNet (addr n) 255.
Proof.
  destruct f; intros [Ha Hp] H0; cbn in *.
  - by apply ip4Net_super_zero.
  - by apply ip6Net_super_zero.
Qed.

(** Only the network itself has the parent of a network of prefix
    length 0. *)
Lemma super_zero_inj {A} (f : family A) (m n : typedNet A) :
  typed_ok f m -> typed_ok f n -> prefix n = 0 ->
  super_of f m = super_of f n -> m = n.
Proof.
  intros Hm Hn H0 Heq. rewrite (super_zero f n) in Heq by done.
  assert (prefix m = 0) as Hpm.
  { assert (prefix (super_of f m) = 255) as Hp by (by rewrite Heq).
    destruct Hm as [_ Hr]. destruct f; cbn in Hp; unfold u8 in Hp;
      revert Hp; Z.div_mod_to_equations; lia. }
  rewrite (super_zero f m) in Heq by done.
  destruct m, n. cbn in *. congruence.
Qed.

(** ** Well-formed typed networks *)

Lemma good4_typed_ok n : good4 n -> typed_ok IPv4 n.
Proof. intros [[Ha Hp] _]. split; [done|lia]. Qed.

Lemma good6_typed_ok n : good6 n -> typed_ok IPv6 n.
Proof. intros [[Ha Hp] _]. split; [done|lia]. Qed.

(** The parent that two different well-formed networks share is
    well-formed. *)
Lemma good4_super n m :
  good4 n -> good4 m -> n <> m -> ip4Net_super n = ip4Net_super m ->
  good4 (ip4Net_super n).
Proof.
  intros Hn Hm Hne Heq.
  assert (1 <= prefix n) as H1.
  { destruct (decide (prefix n = 0)) as [H0|]; [|destruct Hn as [[_ ?] _]; lia].
    exfalso. apply Hne. symmetry.
    apply (super_zero_inj IPv4); auto using good4_typed_ok. }
  destruct Hn as [Hv Hmask]. split.
  - by apply ip4Net_super_valid.
  - by apply ip4Net_super_masked.
Qed.

(** Clearing a bit of the low half does not turn an address that is not
    IPv4-mapped into one that is. *)
Lemma ldiff_mapped x k :
  0 <= x < 2 ^ 64 -> 0 <= k < 64 ->
  Z.land x (2 ^ 64 - 2 ^ k) = x ->
  Z.ldiff x (2 ^ k) / 2 ^ 32 = 65535 -> x / 2 ^ 32 = 65535.
Proof.
  intros Hx Hk Hm. rewrite <- !Z.shiftr_div_pow2 by lia. intros HP.
  pose proof (proj1 (land_mask_low 64 k x Hx ltac:(lia)) Hm) as Hlow.
  destruct (Z.lt_ge_cases k 32) as [Hk32|Hk32].
  - rewrite <- HP. apply Z.bits_inj'. intros i Hi.
    rewrite !Z.shiftr_spec, testbit_ldiff_pow2 by lia.
    destruct (Z.eqb_spec (i + 32) k); [lia|]. by rewrite andb_true_r.
  - exfalso.
    assert (Z.testbit (Z.shiftr (Z.ldiff x (2 ^ k)) 32) 0 = true) as Hbit
      by (by rewrite HP).
    rewrite Z.shiftr_spec, testbit_ldiff_pow2 in Hbit by lia.
    change (0 + 32) with 32 in Hbit.
    destruct (Z.eqb_spec 32 k); cbn [negb] in Hbit.
    + by rewrite andb_false_r in Hbit.
    + rewrite Hlow in Hbit by lia. done.
Qed.

Lemma ip6Net_super_unmapped n :
  valid6 n -> 1 <= prefix n -> masked6 n -> unmapped (addr n) ->
  unmapped (addr (ip6Net_super n)).
Proof.
  intros Hv H1 Hm Hun. pose proof Hv as [[Hh Hl] Hp].
  rewrite ip6Net_super_eq by done. cbn [addr]. intros [Hhi Hlo]. cbn [hi lo] in *.
  apply Hun. unfold masked6 in Hm. rewrite ip6Net_mask_eq in Hm by done.
  unfold u128_And in Hm. destruct (addr n) as [h l]. cbn [hi lo] in *.
  injection Hm as Hmh Hml.
  destruct (Z.leb_spec (prefix n) 64).
  - exfalso. replace (Z.max (prefix n) 64) with 64 in Hml by lia.
    change (2 ^ 64 - 2 ^ (128 - 64)) with 0 in Hml. rewrite Z.land_0_r in Hml.
    subst l. by vm_compute in Hlo.
  - split; [done|].
    replace (Z.max (prefix n) 64) with (prefix n) in Hml by lia.
    apply (ldiff_mapped l (128 - prefix n)); [done|lia|done|done].
Qed.

Lemma good6_super n m :
  good6 n -> good6 m -> n <> m -> ip6Net_super n = ip6Net_super m ->
  good6 (ip6Net_super n).
Proof.
  intros Hn Hm Hne Heq.
  assert (1 <= prefix n) as H1.
  { destruct (decide (prefix n = 0)) as [H0|]; [|destruct Hn as [[_ ?] _]; lia].
    exfalso. apply Hne. symmetry.
    apply (super_zero_inj IPv6); auto using good6_typed_ok. }
  destruct Hn as (Hv & Hmask & Hun). split; [|split].
  - by apply ip6Net_super_valid.
  - by apply ip6Net_super_masked.
  - by apply ip6Net_super_unmapped.
Qed.

(** ** Facts about the engine that hold for any [super], [mask] and order *)

Section engine_facts.
Context {A : Type} `{Countable A}.
Abbreviation N := (typedNet A).

Variable super : N -> N.
Variable mask : N -> A.
Variable and_ : A -> A -> A.
Variable less : N -> N -> bool.

Lemma merge_step_measure n rest supers nets' supers' :
  merge_step super n rest supers = (nets', supers') ->
  (merge_fuel nets' supers' < merge_fuel (n :: rest) supers)%nat.
Proof.
  unfold merge_step, merge_fuel. cbn [length].
  destruct (supers !! super n) as [other|] eqn:Hs.
  - destruct (decide (other = n)); intros [= <- <-].
    + lia.
    + cbn [length]. rewrite (map_size_delete_Some (super n) supers) by eauto.
      assert (size supers <> 0%nat).
      { apply map_size_non_empty_iff. intros ->. by rewrite lookup_empty in Hs. }
      lia.
  - intros [= <- <-]. rewrite map_size_insert_None by done. lia.
Qed.

(** The loop ends: with the fuel of [merge_all] the stack is empty. *)
Lemma merge_loop_done fuel nets supers :
  (merge_fuel nets supers <= fuel)%nat ->
  (merge_loop super fuel nets supers).1 = [].
Proof.
  revert nets supers. induction fuel as [|f IH]; intros nets supers Hle.
  - destruct nets as [|n rest]; [done|]. unfold merge_fuel in Hle. cbn in Hle. lia.
  - destruct nets as [|n rest]; [done|]. cbn [merge_loop].
    destruct (merge_step super n rest supers) as [nets' supers'] eqn:Hst.
    apply IH. apply merge_step_measure in Hst. lia.
Qed.

(** Once the stack is empty, more fuel changes nothing. *)
Lemma merge_loop_more f k nets supers :
  (merge_loop super f nets supers).1 = [] ->
  merge_loop super (f + k) nets supers = merge_loop super f nets supers.
Proof.
  revert nets supers. induction f as [|f IH]; intros nets supers Hdone.
  - cbn in Hdone. subst nets. by destruct k.
  - destruct nets as [|n rest]; [done|]. cbn [merge_loop Nat.add] in *.
    destruct (merge_step super n rest supers) as [nets' supers']. by apply IH.
Qed.

(** Invariants of the loop are proved through this rule. *)
Lemma merge_loop_inv (P : list N -> gmap N N -> Prop) :
  (forall n rest supers nets' supers',
      P (n :: rest) supers ->
      merge_step super n rest supers = (nets', supers') -> P nets' supers') ->
  forall fuel nets supers,
    P nets supers ->
    P (merge_loop super fuel nets supers).1 (merge_loop super fuel nets supers).2.
Proof.
  intros Hstep fuel. induction fuel as [|f IH]; intros nets supers HP.
  - done.
  - destruct nets as [|n rest]; [done|]. cbn [merge_loop].
    destruct (merge_step super n rest supers) as [nets' supers'] eqn:Hst.
    apply IH. eapply Hstep; eauto.
Qed.

Lemma merge_step_keyed n rest supers nets' supers' :
  keyed super supers ->
  merge_step super n rest supers = (nets', supers') -> keyed super supers'.
Proof.
  unfold merge_step. intros Hk.
  destruct (supers !! super n) as [other|] eqn:Hs.
  - destruct (decide (other = n)); intros [= <- <-]; [done|].
    intros k v Hl. apply lookup_delete_Some in Hl as [_ Hl]. eauto.
  - intros [= <- <-] k v Hl.
    apply lookup_insert_Some in Hl as [[<- <-]|[_ Hl]]; eauto.
Qed.

Lemma merge_all_keyed nets : keyed super (merge_all super nets).
Proof.
  unfold merge_all.
  apply (merge_loop_inv (fun _ (m : gmap N N) => keyed super m)).
  - intros. eapply merge_step_keyed; eauto.
  - intros k v. by rewrite lookup_empty.
Qed.

(** A non-empty stack leaves a non-empty map. *)
Lemma merge_all_nonempty nets : nets <> [] -> merge_all super nets <> ∅.
Proof.
  intros Hne. unfold merge_all.
  pose proof (merge_loop_done (merge_fuel nets ∅) nets ∅ (Nat.le_refl _)) as Hdone.
  assert (Hstep : forall n rest (supers : gmap N N) nets' supers',
             n :: rest <> [] \/ supers <> ∅ ->
             merge_step super n rest supers = (nets', supers') ->
             nets' <> [] \/ supers' <> ∅).
  { intros n rest supers nets' supers' _. unfold merge_step.
    destruct (supers !! super n) as [other|] eqn:Hs.
    - destruct (decide (other = n)); intros [= <- <-].
      + right. intros ->. by rewrite lookup_empty in Hs.
      + by left.
    - intros [= <- <-]. right. apply insert_non_empty. }
  destruct (merge_loop_inv _ Hstep (merge_fuel nets ∅) nets ∅ (or_introl Hne))
    as [Hbad|Hok]; [by rewrite Hdone in Hbad | done].
Qed.

Lemma elem_of_values (m : gmap N N) v : v ∈ values m <-> exists k, m !! k = Some v.
Proof.
  unfold values. rewrite list_elem_of_fmap. split.
  - intros [[k v'] [-> Hin]]. exists k. by apply elem_of_map_to_list.
  - intros [k Hk]. exists (k, v). split; [done|]. by apply elem_of_map_to_list.
Qed.

Lemma values_keyed_lookup m v : keyed super m -> v ∈ values m -> m !! super v = Some v.
Proof.
  intros Hk [k Hl]%elem_of_values. by rewrite (Hk _ _ Hl).
Qed.

Lemma values_super_inj m x y :
  keyed super m -> x ∈ values m -> y ∈ values m -> super x = super y -> x = y.
Proof.
  intros Hk Hx%(values_keyed_lookup _ _ Hk) Hy%(values_keyed_lookup _ _ Hk) Heq.
  rewrite Heq in Hx. congruence.
Qed.

Lemma values_NoDup m : keyed super m -> NoDup (values m).
Proof.
  intros Hk. unfold values. apply NoDup_fmap_2_strong; [|apply NoDup_map_to_list].
  intros [k1 v1] [k2 v2] H1%elem_of_map_to_list H2%elem_of_map_to_list Heq.
  cbn in Heq. subst v2. by rewrite <- (Hk _ _ H1), <- (Hk _ _ H2).
Qed.

Lemma values_empty_iff (m : gmap N N) : values m = [] <-> m = ∅.
Proof.
  unfold values. rewrite <- map_to_list_empty_iff. split.
  - apply fmap_nil_inv.
  - by intros ->.
Qed.

(** The sort permutes its argument. *)
Lemma sort_insert_perm x l : sort_insert less x l ≡ₚ x :: l.
Proof.
  induction l as [|y l IH]; cbn; [done|].
  destruct (less x y); [done|]. rewrite IH. apply Permutation_swap.
Qed.

Lemma sort_nets_perm l : sort_nets less l ≡ₚ l.
Proof.
  unfold sort_nets. rewrite <- (app_nil_l l) at 2. generalize (@nil N).
  induction l as [|x l IH]; intros acc; cbn.
  - by rewrite app_nil_r.
  - rewrite IH, sort_insert_perm. cbn. apply Permutation_middle.
Qed.

(** The final pass only drops entries. *)
Lemma coalesce_from_sublist lm la ms :
  coalesce_from mask and_ lm la ms `sublist_of` ms.
Proof.
  revert lm la. induction ms as [|m ms IH]; intros lm la; cbn.
  - constructor.
  - destruct (decide (la = and_ (addr m) lm)).
    + by apply sublist_cons.
    + by apply sublist_skip.
Qed.

Lemma coalesce_sublist merged out :
  coalesce mask and_ merged = Ok out -> out `sublist_of` merged.
Proof.
  destruct merged as [|m0 rest]; [done|]. intros [= <-].
  apply sublist_skip, coalesce_from_sublist.
Qed.

Section with_order.
Variable rho : list N -> list N.
Hypothesis rho_perm : forall l, rho l ≡ₚ l.

Abbreviation collapse := (collapse_nets super mask and_ less rho).

Lemma survivors_perm nets :
    survivors super rho nets ≡ₚ values (merge_all super nets).
Proof. apply rho_perm. Qed.

  (** What is rendered was left in the map by the loop. *)
Lemma collapse_nets_sub nets out :
    collapse nets = Ok out ->
    exists merged, merged ≡ₚ values (merge_all super (rev nets))
                   /\ out `sublist_of` merged.
Proof.
    unfold collapse_nets. intros Hc%coalesce_sublist.
    eexists. split; [|exact Hc]. by rewrite sort_nets_perm, survivors_perm.
Qed.

  (** [merged[0]] is always there: a non-empty input gives a result. *)
Lemma collapse_nets_total nets :
    nets <> [] -> exists out, collapse nets = Ok out.
Proof.
    intros Hne. unfold collapse_nets.
    destruct (sort_nets less (survivors super rho (rev nets))) as [|m0 rest] eqn:Hs.
    - exfalso.
      assert (values (merge_all super (rev nets)) = []) as Hv.
      { apply Permutation_nil. by rewrite <- Hs, sort_nets_perm, survivors_perm. }
      apply values_empty_iff in Hv. revert Hv. apply merge_all_nonempty.
      intros Hr. apply Hne. by rewrite <- (rev_involutive nets), Hr.
    - cbn. eauto.
Qed.
  (** No two rendered entries, at different places, have the same
      [super]. *)
Lemma collapse_nets_distinct_super nets out i j x y :
    collapse nets = Ok out ->
    out !! i = Some x -> out !! j = Some y -> super x = super y -> i = j.
Proof.
    intros (merged & Hperm & Hsub)%collapse_nets_sub Hi Hj Heq.
    pose proof (merge_all_keyed (rev nets)) as Hk.
    assert (NoDup out) as Hnd.
    { eapply sublist_NoDup; [|exact Hsub]. rewrite Hperm. by apply values_NoDup. }
    assert (forall z, z ∈ out -> z ∈ values (merge_all super (rev nets))) as Hin.
    { intros z Hz. rewrite <- Hperm. eapply sublist_subseteq; eauto. }
    assert (x = y) as ->.
    { eapply values_super_inj; eauto using list_elem_of_lookup_2. }
    eapply NoDup_lookup; eauto.
Qed.
End with_order.
End engine_facts.

(** ** Entries of prefix length 0 *)

Section terminal.
Context {A : Type} `{Countable A}.
Abbreviation N := (typedNet A).
Variable super : N -> N.
Variable ok : N -> Prop.
Variable n0 : N.
Hypothesis ok_super : forall n, ok n -> ok (super n).
Hypothesis n0_parent : forall m, ok m -> super m = super n0 -> m = n0.

Abbreviation settled := (settled_at super ok n0).

Lemma merge_step_settled n rest supers nets' supers' :
  settled (n :: rest) supers ->
  merge_step super n rest supers = (nets', supers') -> settled nets' supers'.
Proof.
  intros [Hok Hn0]. apply Forall_cons in Hok as [Hn Hrest]. unfold merge_step.
  destruct (supers !! super n) as [other|] eqn:Hs.
  - destruct (decide (other = n)) as [->|Hne]; intros [= <- <-]; [done|].
    split; [apply Forall_cons; auto|].
    rewrite lookup_delete_ne; [done|]. intros Heq.
    rewrite Heq in Hs. apply Hne. rewrite (n0_parent n) by done. congruence.
  - intros [= <- <-]. split; [done|].
    rewrite lookup_insert_ne; [done|]. intros Heq. congruence.
Qed.

Lemma merge_loop_settled fuel nets supers :
  settled nets supers ->
  (merge_loop super fuel nets supers).2 !! super n0 = Some n0.
Proof.
  intros Hs.
  apply (merge_loop_inv super settled merge_step_settled fuel nets supers Hs).
Qed.

(** Popping [n0]: nothing is pushed and [n0] is in the map afterwards. *)
Lemma merge_step_terminal rest supers :
  keyed super supers -> map_Forall (fun _ v => ok v) supers ->
  merge_step super n0 rest supers = (rest, <[super n0 := n0]> supers).
Proof.
  intros Hk Hok. unfold merge_step.
  destruct (supers !! super n0) as [other|] eqn:Hs; [|done].
  assert (other = n0) as ->.
  { apply n0_parent; [by eapply Hok|by eapply Hk]. }
  rewrite decide_True by done. by rewrite insert_id.
Qed.
(** All entries stay [ok] and every value stays under its key. *)
Lemma merge_step_all_ok n rest supers nets' supers' :
  all_good_at super ok (n :: rest) supers ->
  merge_step super n rest supers = (nets', supers') ->
  all_good_at super ok nets' supers'.
Proof.
  intros (Hst & Hk & Hm) Hstep. apply Forall_cons in Hst as [Hn Hrest].
  split; [|split; [by eapply merge_step_keyed|]]; revert Hstep; unfold merge_step;
    destruct (supers !! super n) as [other|] eqn:Hs.
  - destruct (decide (other = n)) as [->|Hne]; intros [= <- <-]; [done|].
    apply Forall_cons. split; [by apply ok_super|done].
  - by intros [= <- <-].
  - destruct (decide (other = n)) as [->|Hne]; intros [= <- <-]; [done|].
    by apply map_Forall_delete.
  - intros [= <- <-]. by apply map_Forall_insert_2.
Qed.
End terminal.

(** C5, as stated, fails: the loop has no case for prefix length 0. The
    entry 0.0.0.0/0 goes through [super] like any other and is recorded
    under the key that [super] returns, whose prefix length has wrapped
    to 255. *)
Lemma prefix0_goes_through_super :
  merge_step ip4Net_super (TypedNet 0 0) [] ∅
  = ([], {[ ip4Net_super (TypedNet 0 0) := TypedNet 0 0 ]})
  /\ ip4Net_super (TypedNet 0 0) = TypedNet 0 255.
Proof.
  split; [|by vm_compute].
  unfold merge_step. rewrite lookup_empty. by rewrite insert_empty.
Qed.

(** C5, amended. Take the loop of [Collapse] at any iteration, started on
    the converted inputs, with an entry [n] of prefix length 0 on top of
    the stack. [n] is passed to [super] like any other entry: its address
    is left as it is and the prefix length wraps to 255. Nothing is
    pushed back, [n] is recorded in the map under that key, and it is
    still there when the loop ends, however long it runs: it is not
    promoted and it survives. *)
Theorem prefix0_terminal `{Countable A} (f : family A) stack k (n : typedNet A)
    rest supers fuel :
  Forall (typed_ok f) stack ->
  merge_loop (super_of f) k stack ∅ = (n :: rest, supers) ->
  prefix n = 0 ->
  super_of f n = TypedNet (addr n) 255
  /\ merge_step (super_of f) n rest supers = (rest, <[TypedNet (addr n) 255 := n]> supers)
  /\ (merge_loop (super_of f) (S fuel) (n :: rest) supers).2 !! TypedNet (addr n) 255 = Some n.
Proof.
  intros Hin Hstate H0.
  assert (all_good_at (super_of f) (typed_ok f) (n :: rest) supers) as (Hok & Hk & Hm).
  { pose proof (merge_loop_inv (super_of f) (all_good_at (super_of f) (typed_ok f))
                  (merge_step_all_ok (super_of f) (typed_ok f) (super_typed_ok f))
                  k stack ∅) as Hinv.
    rewrite Hstate in Hinv. apply Hinv.
    split; [done|]. split; [intros ? ?; by rewrite lookup_empty|apply map_Forall_empty]. }
  pose proof Hok as [Hn Hrest]%Forall_cons.
  assert (forall m, typed_ok f m -> super_of f m = super_of f n -> m = n) as Hinj.
  { intros m Hmok. by apply super_zero_inj. }
  pose proof (merge_step_terminal (super_of f) (typed_ok f) n Hinj rest supers Hk Hm) as Hstep.
  rewrite <- (super_zero f n) by done. split; [done|]. split; [done|].
  cbn [merge_loop]. rewrite Hstep.
  apply (merge_loop_settled (super_of f) (typed_ok f) n (super_typed_ok f) Hinj).
  split; [done|]. apply lookup_insert_eq.
Qed.

Lemma prefix0_terminal_witness :
  super_of IPv4 (TypedNet 0 0) = TypedNet 0 255
  /\ merge_step (super_of IPv4) (TypedNet 0 0) [TypedNet 167772416 24]
       (<[TypedNet 167772160 23 := TypedNet 167772160 24]> ∅)
     = ([TypedNet 167772416 24],
        <[TypedNet 0 255 := TypedNet 0 0]>
          (<[TypedNet 167772160 23 := TypedNet 167772160 24]> ∅))
  /\ (merge_loop (super_of IPv4) 3 [TypedNet 0 0; TypedNet 167772416 24]
        (<[TypedNet 167772160 23 := TypedNet 167772160 24]> ∅)).2
       !! TypedNet 0 255 = Some (TypedNet 0 0).
Proof.
  apply (prefix0_terminal IPv4
           [TypedNet 167772160 24; TypedNet 0 0; TypedNet 167772416 24] 1%nat
           (TypedNet 0 0) [TypedNet 167772416 24]
           (<[TypedNet 167772160 23 := TypedNet 167772160 24]> ∅) 2%nat).
  - repeat constructor; cbn; lia.
  - reflexivity.
  - reflexivity.
Defined.

(** ** Running the engine on its own output *)

Lemma rev_lookup_Some {T} (l : list T) i x :
  rev l !! i = Some x -> l !! (length l - S i)%nat = Some x /\ (i < length l)%nat.
Proof.
  rewrite rev_alt. change (rev_append l []) with (reverse l). apply reverse_lookup_Some.
Qed.

Section rerun.
Context {A : Type} `{Countable A}.
Abbreviation N := (typedNet A).
Variable super : N -> N.
Variable mask : N -> A.
Variable and_ : A -> A -> A.
Variable less : N -> N -> bool.

(** [good] stands for the well-formed networks of a family and [val] for
    the number that [Less] compares. *)
Variable good : N -> Prop.
Variable val : N -> Z.
Hypothesis good_less : forall x y, good x -> good y -> less x y = (val x <? val y).
Hypothesis good_val : forall x y, good x -> good y -> val x = val y -> addr x = addr y.
Hypothesis good_masked : forall n, good n -> and_ (addr n) (mask n) = addr n.
Hypothesis good_super :
  forall n m, good n -> good m -> n <> m -> super n = super m -> good (super n).

Abbreviation all_good := (all_good_at super good).

Lemma merge_step_good n rest supers nets' supers' :
  all_good (n :: rest) supers ->
  merge_step super n rest supers = (nets', supers') -> all_good nets' supers'.
Proof.
  intros (Hst & Hk & Hm) Hstep. apply Forall_cons in Hst as [Hn Hrest].
  split; [|split; [by eapply merge_step_keyed|]]; revert Hstep; unfold merge_step;
    destruct (supers !! super n) as [other|] eqn:Hs.
  - destruct (decide (other = n)) as [->|Hne]; intros [= <- <-]; [done|].
    apply Forall_cons. split; [|done].
    apply (good_super n other); [done|by eapply Hm|done|]. symmetry. by eapply Hk.
  - by intros [= <- <-].
  - destruct (decide (other = n)) as [->|Hne]; intros [= <- <-]; [done|].
    by apply map_Forall_delete.
  - intros [= <- <-]. by apply map_Forall_insert_2.
Qed.

Lemma merge_all_good nets v :
  Forall good nets -> v ∈ values (merge_all super nets) -> good v.
Proof.
  intros Hg [k Hk]%elem_of_values. unfold merge_all in Hk.
  assert (all_good nets ∅) as Hinit.
  { split; [done|]. split; [intros ? ?; by rewrite lookup_empty|apply map_Forall_empty]. }
  pose proof (merge_loop_inv super all_good merge_step_good (merge_fuel nets ∅) _ _ Hinit)
    as (_ & _ & Hm).
  by eapply Hm.
Qed.

(** The sort puts [good] entries in ascending order of [val]. *)
Abbreviation le_val := (le_by val).
Abbreviation lt_val := (lt_by val).

Lemma sort_insert_sorted x l :
  good x -> Forall good l ->
  StronglySorted le_val l -> StronglySorted le_val (sort_insert less x l).
Proof.
  intros Hx. induction l as [|y l IH]; intros Hl Hs; cbn.
  - repeat constructor.
  - apply Forall_cons in Hl as [Hy Hl]. apply StronglySorted_cons in Hs as [Hyl Hs].
    rewrite good_less by done. destruct (Z.ltb_spec (val x) (val y)).
    + apply StronglySorted_cons. split; [|by apply StronglySorted_cons].
      apply Forall_cons. split; [unfold le_by; lia|].
      eapply Forall_impl; [exact Hyl|]. unfold le_by. intros z Hz. lia.
    + apply StronglySorted_cons. split; [|by apply IH].
      rewrite sort_insert_perm. apply Forall_cons. split; [unfold le_by; lia|done].
Qed.

Lemma sort_nets_sorted l :
  Forall good l -> StronglySorted le_val (sort_nets less l).
Proof.
  unfold sort_nets. intros Hl.
  assert (Forall good (@nil N) /\ StronglySorted le_val (@nil N)) as Hacc
    by (split; constructor).
  revert Hacc. generalize (@nil N). induction Hl as [|x l Hx Hl IH]; intros acc [Hg Hs]; cbn.
  - done.
  - apply IH. split.
    + rewrite sort_insert_perm. by apply Forall_cons.
    + by apply sort_insert_sorted.
Qed.

(** After the final pass the entries are in strictly ascending order. *)
Lemma coalesce_from_strict L ms :
  good L -> Forall good ms -> Forall (le_val L) ms -> StronglySorted le_val ms ->
  Forall (lt_val L) (coalesce_from mask and_ (mask L) (addr L) ms)
  /\ StronglySorted lt_val (coalesce_from mask and_ (mask L) (addr L) ms).
Proof.
  revert L. induction ms as [|m ms IH]; intros L HL Hms Hle Hs; cbn.
  - split; constructor.
  - apply Forall_cons in Hms as [Hm Hms]. apply Forall_cons in Hle as [HLm Hle].
    apply StronglySorted_cons in Hs as [Hmms Hs].
    destruct (decide (addr L = and_ (addr m) (mask L))) as [Heq|Hne].
    + by apply IH.
    + assert (val L < val m) as Hlt.
      { unfold le_by in HLm. destruct (decide (val L = val m)) as [Hv|]; [|lia].
        exfalso. apply Hne. rewrite <- (good_val L m) by done. symmetry. by apply good_masked. }
      destruct (IH m Hm Hms Hmms Hs) as [Hall Hsorted]. split.
      * apply Forall_cons. split; [done|].
        eapply Forall_impl; [exact Hall|]. unfold lt_by. intros z Hz. lia.
      * by apply StronglySorted_cons.
Qed.

Lemma lt_val_le_val l : StronglySorted lt_val l -> StronglySorted le_val l.
Proof.
  induction 1 as [|x l Hs IH Hx]; constructor; [done|].
  eapply Forall_impl; [exact Hx|]. unfold lt_by, le_by. intros z Hz. lia.
Qed.

Lemma lt_val_inj l x y :
  StronglySorted lt_val l -> x ∈ l -> y ∈ l -> val x = val y -> x = y.
Proof.
  induction 1 as [|z l Hs IH Hz]; intros Hx Hy Hv; [by apply elem_of_nil in Hx|].
  rewrite Forall_forall in Hz. unfold lt_by in Hz.
  apply elem_of_cons in Hx as [->|Hx]; apply elem_of_cons in Hy as [->|Hy]; [done| | |by apply IH].
  - specialize (Hz y Hy). lia.
  - specialize (Hz x Hx). lia.
Qed.

(** The final pass changes nothing in its own result. *)
Lemma coalesce_from_idem lm la ms :
  coalesce_from mask and_ lm la (coalesce_from mask and_ lm la ms)
  = coalesce_from mask and_ lm la ms.
Proof.
  revert lm la. induction ms as [|m ms IH]; intros lm la; cbn; [done|].
  destruct (decide (la = and_ (addr m) lm)) as [Heq|Hne]; [apply IH|].
  cbn. rewrite decide_False by done. by rewrite IH.
Qed.

(** On a stack whose entries have parents that differ from one another
    and from the keys of the map, the loop only records. *)
Lemma merge_loop_fresh fuel st (m : gmap N N) :
  (length st <= fuel)%nat ->
  (forall x, x ∈ st -> m !! super x = None) ->
  (forall i j x y, st !! i = Some x -> st !! j = Some y -> super x = super y -> i = j) ->
  exists m', merge_loop super fuel st m = ([], m') /\ values m' ≡ₚ st ++ values m.
Proof.
  revert fuel m. induction st as [|x rest IH]; intros fuel m Hfuel Hnew Hdist.
  - exists m. split; [by destruct fuel|done].
  - destruct fuel as [|fuel]; [cbn in Hfuel; lia|]. cbn [merge_loop]. unfold merge_step.
    rewrite (Hnew x) by (apply elem_of_cons; by left).
    destruct (IH fuel (<[super x := x]> m)) as (m' & Hrun & Hvals).
    + cbn in Hfuel. lia.
    + intros y Hy. rewrite lookup_insert_ne.
      * apply Hnew. apply elem_of_cons. by right.
      * intros Heq. apply list_elem_of_lookup in Hy as [j Hj].
        by specialize (Hdist 0%nat (S j) x y eq_refl Hj Heq).
    + intros i j y z Hi Hj Heq. by specialize (Hdist (S i) (S j) y z Hi Hj Heq) as [= ->].
    + exists m'. split; [done|]. rewrite Hvals. unfold values.
      rewrite map_to_list_insert by (apply Hnew, elem_of_cons; by left).
      cbn. by rewrite Permutation_middle.
Qed.

Section with_orders.
Variables rho1 rho2 : list N -> list N.
Hypothesis rho1_perm : forall l, rho1 l ≡ₚ l.
Hypothesis rho2_perm : forall l, rho2 l ≡ₚ l.

(** The result of a run on [good] networks is [good], in strictly
    ascending order, and a second run returns it as it is. *)
Lemma collapse_nets_rerun nets out :
  Forall good nets ->
  collapse_nets super mask and_ less rho1 nets = Ok out ->
  Forall good out
  /\ collapse_nets super mask and_ less rho2 out = Ok out.
Proof.
  intros Hgood Hrun.
  pose proof (fun i j x y =>
                collapse_nets_distinct_super super mask and_ less rho1 rho1_perm
                  nets out i j x y Hrun) as Hdist.
  assert (Forall good (survivors super rho1 (rev nets))) as Hsurv.
  { apply Forall_forall. intros v Hv. apply (merge_all_good (rev nets)).
    - by apply Forall_rev.
    - by rewrite <- (survivors_perm super rho1 rho1_perm). }
  pose proof (sort_nets_sorted _ Hsurv) as Hsorted.
  assert (Forall good (sort_nets less (survivors super rho1 (rev nets)))) as Hsg
    by (by rewrite sort_nets_perm).
  unfold collapse_nets in Hrun.
  destruct (sort_nets less (survivors super rho1 (rev nets))) as [|m0 rest1]; [done|].
  injection Hrun as <-.
  apply Forall_cons in Hsg as [Hm0 Hrest]. apply StronglySorted_cons in Hsorted as [Hle Hs].
  destruct (coalesce_from_strict m0 rest1 Hm0 Hrest Hle Hs) as [Hall Hstrict].
  set (out := m0 :: coalesce_from mask and_ (mask m0) (addr m0) rest1) in *.
  assert (StronglySorted lt_val out) as Hout by (by apply StronglySorted_cons).
  assert (Forall good out) as Hgout.
  { apply Forall_cons. split; [done|].
    eapply Forall_forall. intros z Hz. rewrite Forall_forall in Hrest. apply Hrest.
    eapply sublist_subseteq; [apply coalesce_from_sublist|exact Hz]. }
  split; [done|].
  destruct (merge_loop_fresh (merge_fuel (rev out) ∅) (rev out) ∅) as (m' & Hloop & Hvals).
  - unfold merge_fuel. lia.
  - intros. apply lookup_empty.
  - intros i j x y Hi Hj Heq.
    apply rev_lookup_Some in Hi as [Hi Hil]. apply rev_lookup_Some in Hj as [Hj Hjl].
    specialize (Hdist _ _ _ _ Hi Hj Heq). lia.
  - assert (values m' ≡ₚ out) as Hvals'.
    { rewrite Hvals. unfold values. rewrite map_to_list_empty. cbn.
      rewrite app_nil_r. symmetry. apply Permutation_rev. }
    unfold collapse_nets, survivors, merge_all. rewrite Hloop. cbn [snd].
    assert (sort_nets less (rho2 (values m')) ≡ₚ out) as Hperm
      by (by rewrite sort_nets_perm, rho2_perm).
    assert (sort_nets less (rho2 (values m')) = out) as ->.
    { apply (StronglySorted_unique_strong le_val); [| |by apply lt_val_le_val|done].
      - intros x1 x2 Hx1 Hx2 H12 H21. rewrite Hperm in Hx1.
        apply (lt_val_inj out); [done..|]. unfold le_by in *. lia.
      - apply sort_nets_sorted. by rewrite rho2_perm, Hvals'. }
    unfold out, coalesce. by rewrite coalesce_from_idem.
Qed.
End with_orders.
End rerun.

(** ** Properties of [Collapse] *)

Lemma range_id_ok : range_ok range_id.
Proof. by split. Qed.

(** For every input and every order in which the map is walked, the
    networks that [Collapse] returns are the renderings of the typed
    networks that the engine returns, and no two of those, at different
    places, are filed under the same key [super]; in particular none
    occurs twice. *)
Lemma Collapse_distinct_super ro toMerge out :
  range_ok ro ->
  Collapse ro toMerge = Ok out ->
  (toMerge = [] /\ out = [])
  \/ (exists ms, collapse4_nets ro (newIP4Net <$> toMerge) = Ok ms
                 /\ out = ip4Net_asNet <$> ms /\ distinct_parents ip4Net_super ms)
  \/ (exists ms, collapse6_nets ro (newIP6Net <$> toMerge) = Ok ms
                 /\ out = ip6Net_asNet <$> ms /\ distinct_parents ip6Net_super ms).
Proof.
  intros [H4 H6]. unfold Collapse.
  destruct toMerge as [|first others]; [intros [= <-]; by left|].
  destruct (forallb _ others); [|done].
  destruct (is4 first).
  - unfold collapse4.
    destruct (collapse4_nets ro _) as [ms|] eqn:Hc; [|done].
    intros [= <-]. right. left. exists ms. split; [done|]. split; [done|].
    intros i j x y. eapply collapse_nets_distinct_super; eauto.
  - unfold collapse6.
    destruct (collapse6_nets ro _) as [ms|] eqn:Hc; [|done].
    intros [= <-]. right. right. exists ms. split; [done|]. split; [done|].
    intros i j x y. eapply collapse_nets_distinct_super; eauto.
Qed.

Lemma range_long_first_ok : range_ok range_long_first.
Proof. split; intros l; apply sort_nets_perm. Qed.

Lemma range_short_first_ok : range_ok range_short_first.
Proof. split; intros l; apply sort_nets_perm. Qed.

(** C9, amended (family guard). The family of a network is what the
    code tests, [To4] of its address: four bytes, or sixteen bytes of the
    form ::ffff:a.b.c.d, are IPv4. When some input is IPv4 and some input
    is not, in this sense, [Collapse] panics and returns nothing; on the
    empty input it returns the empty list. An IPv4-mapped IPv6 network is
    not told from IPv4 (lemma [Collapse_takes_mapped_for_ipv4]). *)
Theorem Collapse_family_guard ro toMerge x y :
  x ∈ toMerge -> y ∈ toMerge -> is4 x = true -> is4 y = false ->
  Collapse ro toMerge = Panic "all versions must be the same"
  /\ Collapse ro [] = Ok [].
Proof.
  intros Hx Hy H4 H6. split; [|done].
  destruct toMerge as [|first others]; [by apply elem_of_nil in Hx|].
  unfold Collapse.
  assert (forallb (fun ipN => Bool.eqb (is4 first) (is4 ipN)) others = false) as ->; [|done].
  apply not_true_is_false. intros Hall. rewrite forallb_forall in Hall.
  assert (forall z, z ∈ first :: others -> is4 z = is4 first) as Hsame.
  { intros z [->|Hz]%elem_of_cons; [done|].
    symmetry. apply eqb_prop, Hall. by apply list_elem_of_In. }
  pose proof (Hsame x Hx). pose proof (Hsame y Hy). congruence.
Qed.

Lemma Collapse_family_guard_witness :
  Collapse range_id
    [cidr4 10 0 0 0 24; cidr6 [32; 1; 13; 184; 0; 0; 0; 0; 0; 0; 0; 0; 0; 0; 0; 0] 32]
  = Panic "all versions must be the same"
  /\ Collapse range_id [] = Ok [].
Proof.
  apply (Collapse_family_guard range_id _ (cidr4 10 0 0 0 24)
           (cidr6 [32; 1; 13; 184; 0; 0; 0; 0; 0; 0; 0; 0; 0; 0; 0; 0] 32)).
  - apply elem_of_cons. by left.
  - apply elem_of_cons. right. apply elem_of_cons. by left.
  - vm_compute. reflexivity.
  - vm_compute. reflexivity.
Defined.

(** ** [Collapse] on its own output *)

Lemma collapse4_nets_rerun ro1 ro2 nets out :
  range_ok ro1 -> range_ok ro2 -> Forall good4 nets ->
  collapse4_nets ro1 nets = Ok out ->
  Forall good4 out /\ collapse4_nets ro2 out = Ok out.
Proof.
  intros [H1 _] [H2 _]. unfold collapse4_nets.
  apply (collapse_nets_rerun ip4Net_super ip4Net_mask Z.land ip4Nets_Less good4 addr).
  - done.
  - done.
  - by intros n [_ Hm].
  - apply good4_super.
  - done.
  - done.
Qed.

Lemma collapse6_nets_rerun ro1 ro2 nets out :
  range_ok ro1 -> range_ok ro2 -> Forall good6 nets ->
  collapse6_nets ro1 nets = Ok out ->
  Forall good6 out /\ collapse6_nets ro2 out = Ok out.
Proof.
  intros [_ H1] [_ H2]. unfold collapse6_nets.
  apply (collapse_nets_rerun ip6Net_super ip6Net_mask u128_And ip6Nets_Less good6
           (fun n => u128_Z (addr n))).
  - intros x y [[Hx _] _] [[Hy _] _]. by apply u128_Cmp_lt.
  - intros x y [[Hx _] _] [[Hy _] _]. by apply u128_Z_inj.
  - by intros n (_ & Hm & _).
  - apply good6_super.
  - done.
  - done.
Qed.

Lemma coalesce_nonempty {A} `{Countable A} mask and_ (merged out : list (typedNet A)) :
  coalesce mask and_ merged = Ok out -> out <> [].
Proof. destruct merged; [done|]. by intros [= <-]. Qed.

(** The dispatch of [Collapse] on a list of one family. *)
Lemma Collapse_all4 ro toMerge :
  toMerge <> [] -> Forall (fun x => is4 x = true) toMerge ->
  Collapse ro toMerge = collapse4 ro toMerge.
Proof.
  destruct toMerge as [|first others]; [done|]. intros _ [H1 Hall]%Forall_cons.
  unfold Collapse. rewrite H1.
  assert (forallb (fun ipN => Bool.eqb true (is4 ipN)) others = true) as ->; [|done].
  apply forallb_forall. intros x Hx%list_elem_of_In.
  rewrite Forall_forall in Hall. by rewrite Hall.
Qed.

Lemma Collapse_all6 ro toMerge :
  toMerge <> [] -> Forall (fun x => is4 x = false) toMerge ->
  Collapse ro toMerge = collapse6 ro toMerge.
Proof.
  destruct toMerge as [|first others]; [done|]. intros _ [H1 Hall]%Forall_cons.
  unfold Collapse. rewrite H1.
  assert (forallb (fun ipN => Bool.eqb false (is4 ipN)) others = true) as ->; [|done].
  apply forallb_forall. intros x Hx%list_elem_of_In.
  rewrite Forall_forall in Hall. by rewrite Hall.
Qed.

(** C8, as stated, fails. 10.0.0.1/24 and 10.0.0.1/32 have host bits set
    and the same address. A run that walks the map /24 first returns
    both; a run on that result that walks the map /32 first returns
    10.0.0.1/32 alone. *)
Lemma Collapse_twice_differs :
  range_ok range_short_first /\ range_ok range_long_first
  /\ Collapse range_short_first [cidr4 10 0 0 1 24; cidr4 10 0 0 1 32]
     = Ok [cidr4 10 0 0 1 24; cidr4 10 0 0 1 32]
  /\ Collapse range_long_first [cidr4 10 0 0 1 24; cidr4 10 0 0 1 32]
     = Ok [cidr4 10 0 0 1 32]
  /\ ~ [cidr4 10 0 0 1 32] ≡ₚ [cidr4 10 0 0 1 24; cidr4 10 0 0 1 32].
Proof.
  split; [apply range_short_first_ok|]. split; [apply range_long_first_ok|].
  split; [vm_compute; reflexivity|]. split; [vm_compute; reflexivity|].
  intros Hp%Permutation_length. done.
Qed.

(** C8, amended (idempotence). On a homogeneous list of well-formed
    networks (prefix length within the width, no host bit set)
    [Collapse] returns a list, and [Collapse] on that list returns the
    same list, in the same order, whatever the order in which either run
    walks its map. *)
Theorem Collapse_idempotent ro1 ro2 toMerge :
  range_ok ro1 -> range_ok ro2 -> well_formed toMerge ->
  exists out, Collapse ro1 toMerge = Ok out /\ Collapse ro2 out = Ok out.
Proof.
  intros Hr1 Hr2 Hwf.
  destruct (decide (toMerge = [])) as [->|Hne]; [by exists []|].
  assert (newIP4Net <$> toMerge <> [] /\ newIP6Net <$> toMerge <> []) as [Hne4 Hne6].
  { by destruct toMerge. }
  destruct Hwf as [Hwf|Hwf].
  - rewrite Collapse_all4; [|done|by eapply Forall_impl; [exact Hwf|]; intros ? []].
    unfold collapse4.
    destruct (collapse_nets_total ip4Net_super ip4Net_mask Z.land ip4Nets_Less
                (range4 ro1) (proj1 Hr1) _ Hne4) as [ms Hms].
    fold (collapse4_nets ro1 (newIP4Net <$> toMerge)) in Hms. rewrite Hms.
    destruct (collapse4_nets_rerun ro1 ro2 (newIP4Net <$> toMerge) ms Hr1 Hr2)
      as [Hgood Hrerun]; [|done|].
    { apply Forall_fmap. eapply Forall_impl; [exact Hwf|]. by intros ? []. }
    exists (ip4Net_asNet <$> ms). split; [done|].
    assert (ms <> []) as Hmsne by (by eapply coalesce_nonempty).
    rewrite Collapse_all4.
    + unfold collapse4. rewrite <- list_fmap_compose.
      rewrite (list_fmap_ext (newIP4Net ∘ ip4Net_asNet) id ms), list_fmap_id.
      * by rewrite Hrerun.
      * intros i x Hx%list_elem_of_lookup_2. cbn. apply newIP4Net_asNet.
        rewrite Forall_forall in Hgood. by destruct (Hgood x Hx).
    + by destruct ms.
    + apply Forall_fmap, Forall_forall. intros x _. apply is4_asNet4.
  - rewrite Collapse_all6; [|done|by eapply Forall_impl; [exact Hwf|]; intros ? []].
    unfold collapse6.
    destruct (collapse_nets_total ip6Net_super ip6Net_mask u128_And ip6Nets_Less
                (range6 ro1) (proj2 Hr1) _ Hne6) as [ms Hms].
    fold (collapse6_nets ro1 (newIP6Net <$> toMerge)) in Hms. rewrite Hms.
    destruct (collapse6_nets_rerun ro1 ro2 (newIP6Net <$> toMerge) ms Hr1 Hr2)
      as [Hgood Hrerun]; [|done|].
    { apply Forall_fmap. eapply Forall_impl; [exact Hwf|]. by intros ? []. }
    exists (ip6Net_asNet <$> ms). split; [done|].
    assert (ms <> []) as Hmsne by (by eapply coalesce_nonempty).
    rewrite Forall_forall in Hgood.
    rewrite Collapse_all6.
    + unfold collapse6. rewrite <- list_fmap_compose.
      rewrite (list_fmap_ext (newIP6Net ∘ ip6Net_asNet) id ms), list_fmap_id.
      * by rewrite Hrerun.
      * intros i x Hx%list_elem_of_lookup_2. cbn. apply newIP6Net_asNet.
        by destruct (Hgood x Hx).
    + by destruct ms.
    + apply Forall_fmap, Forall_forall. intros x Hx.
      destruct (Hgood x Hx) as (Hv & _ & Hun). by apply is4_asNet6.
Qed.

Lemma Collapse_idempotent_witness :
  exists out,
    Collapse range_long_first
      [cidr4 10 0 0 0 24; cidr4 10 0 1 0 24; cidr4 10 0 0 0 25] = Ok out
    /\ Collapse range_short_first out = Ok out.
Proof.
  apply (Collapse_idempotent range_long_first range_short_first).
  - split; intros l; apply sort_nets_perm.
  - split; intros l; apply sort_nets_perm.
  - left. repeat (apply Forall_cons; split; [|try apply Forall_nil]);
      vm_compute; intuition congruence.
Defined.

(** ** What the calls leave in memory *)

Lemma preserved_refl h : preserved h h.
Proof. by split. Qed.

Lemma preserved_trans h1 h2 h3 : preserved h1 h2 -> preserved h2 h3 -> preserved h1 h3.
Proof. intros [Ha Hc] [Ha' Hc']. split; eauto. Qed.

Lemma preserved_length h h' : preserved h h' -> (length (arrays h) <= length (arrays h'))%nat.
Proof.
  intros [Ha _]. destruct (decide (length (arrays h) = 0%nat)) as [->|Hne]; [lia|].
  destruct (lookup_lt_is_Some_2 (arrays h) (length (arrays h) - 1)) as [bs Hbs]; [lia|].
  apply Ha, lookup_lt_Some in Hbs. lia.
Qed.

Lemma alloc_bytes_preserved h bs : preserved h (alloc_bytes h bs).1.
Proof. split; cbn; [|done]. intros i b Hi. by apply lookup_app_l_Some. Qed.

Lemma alloc_bytes_fresh h bs : s_arr (alloc_bytes h bs).2 = length (arrays h).
Proof. done. Qed.

Lemma alloc_cell_preserved h c : preserved h (alloc_cell h c).1.
Proof. split; cbn; [done|]. intros p c' Hp. by apply lookup_app_l_Some. Qed.

(** A write through a slice of an array that [h0] does not have. *)
Lemma store_preserved h0 h r bs :
  preserved h0 h -> (length (arrays h0) <= s_arr r)%nat -> preserved h0 (store h r bs).
Proof.
  intros [Ha Hc] Hfresh. split; cbn; [|done].
  intros i b Hi. rewrite list_lookup_alter_ne; [by apply Ha|].
  apply lookup_lt_Some in Hi. lia.
Qed.

Lemma from32_mem_preserved h0 h n r :
  preserved h0 h -> (length (arrays h0) <= s_arr r)%nat ->
  preserved h0 (from32_mem h n (Some r)).
Proof. intros. by apply store_preserved. Qed.

Lemma from128_mem_preserved h0 h u r :
  preserved h0 h -> (length (arrays h0) <= s_arr r)%nat ->
  preserved h0 (from128_mem h u (Some r)).
Proof. intros. by apply store_preserved. Qed.

Lemma CIDRMask_mem_preserved h ones bits : preserved h (CIDRMask_mem h ones bits).1.
Proof.
  unfold CIDRMask_mem.
  destruct (negb (bits =? 32) && negb (bits =? 128)); [apply preserved_refl|].
  destruct ((ones <? 0) || (bits <? ones)); [apply preserved_refl|].
  apply alloc_bytes_preserved.
Qed.

Lemma ip4Net_asNet_mem_preserved h n : preserved h (ip4Net_asNet_mem h n).1.
Proof.
  unfold ip4Net_asNet_mem. cbn -[from32_mem].
  apply from32_mem_preserved; [apply from32_mem_preserved|].
  - split; cbn.
    + intros i b Hi. by do 2 apply lookup_app_l_Some.
    + intros p c Hp. by apply lookup_app_l_Some.
  - cbn. lia.
  - cbn. rewrite length_app. lia.
Qed.

Lemma ip6Net_asNet_mem_preserved h n : preserved h (ip6Net_asNet_mem h n).1.
Proof.
  unfold ip6Net_asNet_mem. cbn -[from128_mem].
  apply from128_mem_preserved; [apply from128_mem_preserved|].
  - split; cbn.
    + intros i b Hi. by do 2 apply lookup_app_l_Some.
    + intros p c Hp. by apply lookup_app_l_Some.
  - cbn. lia.
  - cbn. rewrite length_app. lia.
Qed.

Lemma render_preserved {T} (asNet_mem : heap -> T -> heap * nat) h ms :
  (forall h n, preserved h (asNet_mem h n).1) ->
  preserved h (render asNet_mem h ms).1.
Proof.
  intros Hone. revert h. induction ms as [|m ms IH]; intros h; cbn.
  - apply preserved_refl.
  - pose proof (Hone h m) as H1. destruct (asNet_mem h m) as [h1 p].
    pose proof (IH h1) as H2. destruct (render asNet_mem h1 ms) as [h2 ps].
    cbn in *. by eapply preserved_trans.
Qed.

Lemma Broadcast_mem_preserved h a : preserved h (Broadcast_mem h a).1.
Proof.
  unfold Broadcast_mem. destruct (cells h !! a) as [c|]; [|apply preserved_refl].
  cbn -[from32_mem from128_mem store read].
  set (out := SliceRef _ _ _). set (h1 := Heap _ _). set (h2 := store h1 out _).
  assert (preserved h h2) as H2.
  { apply store_preserved; [apply (alloc_bytes_preserved h)|done]. }
  destruct (Size _) as [ones bits].
  destruct (To4 _); cbn [fst].
  - by apply from32_mem_preserved.
  - by apply from128_mem_preserved.
Qed.

Lemma Supernet_mem_preserved h ipN newPrefix : preserved h (Supernet_mem h ipN newPrefix).1.
Proof.
  unfold Supernet_mem. destruct (cells h !! ipN) as [c|]; [|apply preserved_refl].
  destruct (Size _) as [ones bits].
  destruct (_ || _); [apply preserved_refl|].
  cbn -[from32_mem from128_mem CIDRMask_mem read].
  set (out := SliceRef _ _ _). set (h1 := Heap _ _).
  pose proof (alloc_bytes_preserved h (make (length (read h (c_IP c))))) as H1.
  change (alloc_bytes h _).1 with h1 in H1.
  pose proof (CIDRMask_mem_preserved h1 newPrefix bits) as H2.
  destruct (CIDRMask_mem h1 newPrefix bits) as [h2 out_Mask]. cbn [fst] in H2.
  pose proof (preserved_trans _ _ _ H1 H2) as H12.
  destruct (To4 _); cbn [fst].
  - eapply preserved_trans; [|apply alloc_cell_preserved].
    by apply from32_mem_preserved.
  - eapply preserved_trans; [|apply alloc_cell_preserved].
    by apply from128_mem_preserved.
Qed.

Lemma Collapse_mem_preserved ro h toMerge : preserved h (Collapse_mem ro h toMerge).1.
Proof.
  unfold Collapse_mem. destruct (mapM _ toMerge) as [cs|]; [|apply preserved_refl].
  destruct (snapshot h <$> cs) as [|first others]; [apply preserved_refl|].
  destruct (forallb _ others); [|apply preserved_refl].
  destruct (is4 first).
  - destruct (collapse4_nets _ _) as [ms|]; [|apply preserved_refl].
    pose proof (render_preserved ip4Net_asNet_mem h ms ip4Net_asNet_mem_preserved) as Hr.
    by destruct (render ip4Net_asNet_mem h ms).
  - destruct (collapse6_nets _ _) as [ms|]; [|apply preserved_refl].
    pose proof (render_preserved ip6Net_asNet_mem h ms ip6Net_asNet_mem_preserved) as Hr.
    by destruct (render ip6Net_asNet_mem h ms).
Qed.

Lemma read_preserved h h' s :
  preserved h h' -> (forall r, s = Some r -> (s_arr r < length (arrays h))%nat) ->
  read h' s = read h s.
Proof.
  intros [Ha _] Hin. destruct s as [r|]; [|done]. cbn.
  destruct (lookup_lt_is_Some_2 (arrays h) (s_arr r)) as [bs Hbs]; [by apply Hin|].
  by rewrite Hbs, (Ha _ _ Hbs).
Qed.

Lemma preserved_unchanged h h' : preserved h h' -> unchanged h h'.
Proof.
  intros Hp. split; [done|]. intros p c Hc [Hip Hmask]. split; [by apply Hp|].
  unfold snapshot. by rewrite !(read_preserved h h').
Qed.

(** C10 (frame). After [Broadcast], [Supernet] and [Collapse], whatever
    their arguments and outcome, every byte array and every [IPNet]
    struct that was in memory before the call is there with the content
    it had: each [IPNet] shows the same address and mask bytes. All
    writes go to arrays and structs that the call has allocated. *)
Theorem calls_leave_inputs_unchanged ro h a ipN newPrefix toMerge :
  unchanged h (Broadcast_mem h a).1
  /\ unchanged h (Supernet_mem h ipN newPrefix).1
  /\ unchanged h (Collapse_mem ro h toMerge).1.
Proof.
  split; [|split]; apply preserved_unchanged.
  - apply Broadcast_mem_preserved.
  - apply Supernet_mem_preserved.
  - apply Collapse_mem_preserved.
Qed.

Lemma calls_leave_inputs_unchanged_witness :
  unchanged heap_example (Broadcast_mem heap_example 0).1
  /\ unchanged heap_example (Supernet_mem heap_example 0 22).1
  /\ unchanged heap_example (Collapse_mem range_id heap_example [0%nat]).1.
Proof. apply calls_leave_inputs_unchanged. Defined.

(** ** The functions on memory compute what the pure functions compute *)

Lemma read_alloc_new h bs : read (alloc_bytes h bs).1 (Some (alloc_bytes h bs).2) = bs.
Proof.
  unfold read, alloc_bytes. cbn. rewrite list_lookup_middle by done. cbn.
  by rewrite firstn_all.
Qed.

Lemma read_store_same h r bs arr :
  arrays h !! s_arr r = Some arr ->
  (s_off r + s_len r <= length arr)%nat -> length bs = s_len r ->
  read (store h r bs) (Some r) = bs.
Proof.
  intros Harr Hin Hlen. unfold read, store. cbn.
  rewrite list_lookup_alter, Harr, decide_True by done. cbn.
  rewrite drop_app_length' by (rewrite length_take; lia).
  rewrite take_app_length' by (rewrite length_take; lia).
  rewrite <- Hlen. apply firstn_all.
Qed.

Lemma store_arrays_length h r bs : length (arrays (store h r bs)) = length (arrays h).
Proof. unfold store. cbn. apply length_alter. Qed.

Lemma from32_length n bs : (4 <= length bs)%nat -> length (from32 n bs) = length bs.
Proof.
  intros Hl. unfold from32. rewrite length_app, length_take, be_encode_length. lia.
Qed.

Lemma from128_length u bs : (16 <= length bs)%nat -> length (from128 u bs) = length bs.
Proof.
  intros Hl. unfold from128. rewrite !length_app, !be_encode_length, length_drop. lia.
Qed.

Lemma To4_length ip : To4 ip <> None -> length ip = 4%nat \/ length ip = 16%nat.
Proof.
  unfold To4. destruct (decide (length ip = 4%nat)); [by left|].
  destruct (bool_decide (length ip = 16%nat)) eqn:H16; [|done].
  apply bool_decide_eq_true_1 in H16. by right.
Qed.

Lemma Broadcast_mem_refines h a c :
  cells h !! a = Some c -> cell_in h c ->
  (To4 (read h (c_IP c)) = None -> (16 <= length (read h (c_IP c)))%nat) ->
  exists h' out,
    Broadcast_mem h a = (h', Ok (Some out))
    /\ read h' (Some out) = Broadcast (snapshot h c).
Proof.
  intros Hc [Hip Hmask] H16. unfold Broadcast_mem. rewrite Hc.
  set (ipb := read h (c_IP c)) in *.
  destruct (alloc_bytes h (make (length ipb))) as [h1 out] eqn:Ha.
  pose proof (alloc_bytes_preserved h (make (length ipb))) as Hp1. rewrite Ha in Hp1.
  cbn [fst] in Hp1.
  assert (out = SliceRef (length (arrays h)) 0 (length ipb)) as Hout.
  { unfold alloc_bytes in Ha. injection Ha as _ <-. unfold make. by rewrite length_replicate. }
  assert (arrays h1 = arrays h ++ [make (length ipb)]) as Harr1.
  { unfold alloc_bytes in Ha. by injection Ha as <- _. }
  rewrite (read_preserved h h1) by done. fold ipb.
  set (h2 := store h1 out ipb).
  assert (preserved h h2) as Hp2 by (apply store_preserved; [done|subst out; cbn; lia]).
  rewrite !(read_preserved h h2) by done. fold ipb.
  assert (read h2 (Some out) = ipb) as Hread.
  { apply (read_store_same h1 out ipb (make (length ipb))).
    - rewrite Harr1. subst out. cbn. by apply list_lookup_middle.
    - subst out. cbn. unfold make. rewrite length_replicate. lia.
    - by subst out. }
  assert (exists arr, arrays h2 !! s_arr out = Some arr /\ length arr = length ipb)
    as (arr2 & Harr2 & Hlen2).
  { unfold h2, store. cbn. rewrite list_lookup_alter, decide_True, Harr1 by done.
    subst out. cbn. rewrite list_lookup_middle by done. cbn. eexists. split; [done|].
    rewrite !length_app, !length_take, length_drop. unfold make.
    rewrite length_replicate. lia. }
  unfold Broadcast, snapshot. cbn [IP Mask]. fold ipb.
  rewrite firstn_all.
  destruct (Size (read h (c_Mask c))) as [ones bits].
  destruct (To4 ipb) as [v|] eqn:H4.
  - eexists _, out. split; [done|]. unfold from32_mem. rewrite Hread.
    apply (read_store_same h2 out _ arr2); [done|subst out; cbn; lia|].
    subst out. cbn [s_len]. apply from32_length.
    destruct (To4_length ipb) as [->| ->]; [by rewrite H4|lia|lia].
  - eexists _, out. split; [done|]. unfold from128_mem. rewrite Hread.
    apply (read_store_same h2 out _ arr2); [done|subst out; cbn; lia|].
    subst out. cbn [s_len]. apply from128_length. by apply H16.
Qed.

Lemma read_store_other h r bs s :
  (forall r', s = Some r' -> s_arr r' <> s_arr r) -> read (store h r bs) s = read h s.
Proof.
  intros Hne. destruct s as [r'|]; [|done]. unfold read, store. cbn.
  rewrite list_lookup_alter_ne; [done|]. intros Heq. by apply (Hne r').
Qed.

Lemma read_alloc_cell h c s : read (alloc_cell h c).1 s = read h s.
Proof. done. Qed.

Lemma read_alloc_bytes_old h bs s :
  (forall r, s = Some r -> (s_arr r < length (arrays h))%nat) ->
  read (alloc_bytes h bs).1 s = read h s.
Proof. intros Hin. apply read_preserved; [apply alloc_bytes_preserved|done]. Qed.

Lemma CIDRMask_mem_read h ones bits :
  read (CIDRMask_mem h ones bits).1 (CIDRMask_mem h ones bits).2 = CIDRMask ones bits
  /\ (forall r, (CIDRMask_mem h ones bits).2 = Some r -> s_arr r = length (arrays h)).
Proof.
  unfold CIDRMask_mem, CIDRMask.
  destruct (negb (bits =? 32) && negb (bits =? 128)); [done|].
  destruct ((ones <? 0) || (bits <? ones)); [done|].
  split; [apply read_alloc_new|]. by intros r [= <-].
Qed.

Lemma Supernet_mem_refines h p c newPrefix :
  cells h !! p = Some c -> cell_in h c ->
  (To4 (read h (c_IP c)) = None -> (16 <= length (read h (c_IP c)))%nat) ->
  match Supernet (snapshot h c) newPrefix with
  | Panic e => Supernet_mem h p newPrefix = (h, Panic e)
  | Ok v =>
      exists h' q c', Supernet_mem h p newPrefix = (h', Ok q)
                      /\ cells h' !! q = Some c' /\ snapshot h' c' = v
  end.
Proof.
  intros Hc [Hip Hmask] H16. unfold Supernet_mem, Supernet, snapshot. rewrite Hc.
  cbn [IP Mask]. set (ipb := read h (c_IP c)) in *.
  destruct (Size (read h (c_Mask c))) as [ones bits].
  destruct ((newPrefix <? 0) || (ones <? newPrefix) || (bits <? newPrefix)); [done|].
  destruct (alloc_bytes h (make (length ipb))) as [h1 out] eqn:Ha.
  pose proof (alloc_bytes_preserved h (make (length ipb))) as Hp1.
  pose proof (read_alloc_new h (make (length ipb))) as Hnew.
  rewrite Ha in Hp1, Hnew. cbn [fst snd] in Hp1, Hnew.
  assert (out = SliceRef (length (arrays h)) 0 (length ipb)) as Hout.
  { unfold alloc_bytes in Ha. injection Ha as _ <-. unfold make. by rewrite length_replicate. }
  assert (length (arrays h1) = S (length (arrays h))) as Hlen1.
  { unfold alloc_bytes in Ha. injection Ha as <- _. cbn. rewrite length_app. cbn. lia. }
  pose proof (CIDRMask_mem_preserved h1 newPrefix bits) as Hp2.
  destruct (CIDRMask_mem_read h1 newPrefix bits) as [Hmread Hmfresh].
  destruct (CIDRMask_mem h1 newPrefix bits) as [h2 out_Mask]. cbn [fst snd] in *.
  pose proof (preserved_trans _ _ _ Hp1 Hp2) as Hp12.
  rewrite (read_preserved h h2) by done. fold ipb.
  assert (read h2 (Some out) = make (length ipb)) as Hread2.
  { rewrite (read_preserved h1 h2); [done|done|]. intros r [= <-]. subst out. cbn. lia. }
  assert (exists arr, arrays h2 !! s_arr out = Some arr /\ length arr = length ipb)
    as (arr2 & Harr2 & Hlenarr).
  { destruct (lookup_lt_is_Some_2 (arrays h1) (s_arr out)) as [arr Harr];
      [subst out; cbn; lia|].
    exists arr. split; [by apply Hp2|].
    assert (read h1 (Some out) = make (length ipb)) as Hr by done.
    unfold read in Hr. rewrite Harr in Hr. subst out. cbn in Hr.
    apply (f_equal length) in Hr. unfold make in Hr.
    rewrite length_replicate, length_take in Hr.
    destruct (decide (length arr = length ipb)) as [|Hne]; [done|].
    unfold alloc_bytes in Ha. injection Ha as <- _. cbn in Harr.
    rewrite list_lookup_middle in Harr by done. injection Harr as <-.
    unfold make. by rewrite length_replicate. }
  assert (forall bs, length bs = length ipb ->
            snapshot (alloc_cell (store h2 out bs) (NetCell (Some out) out_Mask)).1
              (NetCell (Some out) out_Mask)
            = {| IP := bs; Mask := CIDRMask newPrefix bits |}) as Hsnap.
  { intros bs Hbs. unfold snapshot. cbn [c_IP c_Mask]. rewrite !read_alloc_cell. f_equal.
    - apply (read_store_same h2 out bs arr2); [done|subst out; cbn; lia|by subst out].
    - rewrite read_store_other; [done|]. intros r' Hr'.
      rewrite (Hmfresh r' Hr'). subst out. cbn. lia. }
  destruct (To4 ipb) as [v|] eqn:H4.
  - unfold from32_mem. rewrite Hread2.
    eexists _, _, (NetCell (Some out) out_Mask). split; [done|]. split.
    + cbn. by apply list_lookup_middle.
    + apply Hsnap. unfold make at 1. rewrite from32_length; unfold make;
        rewrite length_replicate; [done|].
      destruct (To4_length ipb) as [->| ->]; [by rewrite H4|lia|lia].
  - unfold from128_mem. rewrite Hread2.
    eexists _, _, (NetCell (Some out) out_Mask). split; [done|]. split.
    + cbn. by apply list_lookup_middle.
    + apply Hsnap. rewrite from128_length; unfold make; rewrite length_replicate; [done|].
      by apply H16.
Qed.

Lemma shows_preserved h h' p v : preserved h h' -> shows h p v -> shows h' p v.
Proof.
  intros Hp (c & Hc & Hin & Hs). exists c.
  pose proof (preserved_length h h' Hp) as Hlen.
  destruct (preserved_unchanged h h' Hp) as [_ Hun].
  destruct (Hun p c Hc Hin) as [Hc' Hs']. split; [done|]. split.
  - destruct Hin as [H1 H2]. split; intros r Hr; [specialize (H1 r Hr)|specialize (H2 r Hr)]; lia.
  - congruence.
Qed.

Lemma asNet_mem_shows {X} (enc : X -> list Z -> list Z) (w : nat) h (a m : X) :
  (forall x, length (enc x (make w)) = w) ->
  let '(h1, ipS) := alloc_bytes h (make w) in
  let '(h2, maskS) := alloc_bytes h1 (make w) in
  let '(h3, r) := alloc_cell h2 (NetCell (Some ipS) (Some maskS)) in
  let h4 := store h3 ipS (enc a (read h3 (Some ipS))) in
  let h5 := store h4 maskS (enc m (read h4 (Some maskS))) in
  shows h5 r {| IP := enc a (make w); Mask := enc m (make w) |}.
Proof.
  intros Henc. cbn -[read]. unfold make in *. rewrite !length_replicate.
  set (ipS := SliceRef (length (arrays h)) 0 w).
  set (maskS := SliceRef (length (arrays h ++ [replicate w 0])) 0 w).
  set (h3 := Heap _ _).
  assert (s_arr maskS = S (length (arrays h))) as Hms.
  { unfold maskS. cbn. rewrite length_app. cbn. lia. }
  assert (arrays h3 !! s_arr ipS = Some (replicate w 0)) as Hl1.
  { unfold h3. cbn. rewrite <- app_assoc. by apply list_lookup_middle. }
  assert (arrays h3 !! s_arr maskS = Some (replicate w 0)) as Hl2.
  { unfold h3. cbn -[maskS]. by apply list_lookup_middle. }
  assert (read h3 (Some ipS) = replicate w 0) as ->.
  { unfold read. rewrite Hl1. cbn. rewrite <- (length_replicate w 0) at 1. apply firstn_all. }
  set (h4 := store h3 ipS _).
  assert (arrays h4 !! s_arr maskS = Some (replicate w 0)) as Hl3.
  { unfold h4, store. cbn -[maskS]. rewrite list_lookup_alter_ne by (rewrite Hms; cbn; lia).
    done. }
  assert (read h4 (Some maskS) = replicate w 0) as ->.
  { unfold read. rewrite Hl3. cbn. rewrite <- (length_replicate w 0) at 1. apply firstn_all. }
  set (h5 := store h4 maskS _).
  exists (NetCell (Some ipS) (Some maskS)). split; [|split].
  - cbn. by apply list_lookup_middle.
  - unfold h5, h4. split; intros r [= <-]; rewrite !store_arrays_length; unfold h3; cbn;
      rewrite !length_app; cbn; lia.
  - unfold snapshot. cbn [c_IP c_Mask]. f_equal.
    + unfold h5. rewrite read_store_other by (intros r' [= <-]; rewrite Hms; cbn; lia).
      apply (read_store_same h3 ipS _ (replicate w 0)); [done| |by rewrite Henc].
      cbn. rewrite length_replicate. lia.
    + apply (read_store_same h4 maskS _ (replicate w 0)); [done| |by rewrite Henc].
      cbn. rewrite length_replicate. lia.
Qed.

Lemma ip4Net_asNet_mem_shows h n :
  shows (ip4Net_asNet_mem h n).1 (ip4Net_asNet_mem h n).2 (ip4Net_asNet n).
Proof.
  pose proof (asNet_mem_shows from32 4 h (addr n) (ip4Net_mask n)) as Hs.
  apply Hs. intros x. by rewrite from32_length.
Qed.

Lemma ip6Net_asNet_mem_shows h n :
  shows (ip6Net_asNet_mem h n).1 (ip6Net_asNet_mem h n).2 (ip6Net_asNet n).
Proof.
  pose proof (asNet_mem_shows from128 16 h (addr n) (ip6Net_mask n)) as Hs.
  apply Hs. intros x. by rewrite from128_length.
Qed.

Lemma render_shows {T} (asNet_mem : heap -> T -> heap * nat) (asNet : T -> IPNet) h ms :
  (forall h n, preserved h (asNet_mem h n).1) ->
  (forall h n, shows (asNet_mem h n).1 (asNet_mem h n).2 (asNet n)) ->
  Forall2 (shows (render asNet_mem h ms).1) (render asNet_mem h ms).2 (asNet <$> ms).
Proof.
  intros Hpres Hone. revert h. induction ms as [|m ms IH]; intros h; cbn.
  - constructor.
  - pose proof (Hone h m) as H1. destruct (asNet_mem h m) as [h1 p].
    pose proof (IH h1) as H2.
    pose proof (render_preserved asNet_mem h1 ms Hpres) as Hp.
    destruct (render asNet_mem h1 ms) as [h2 ps]. cbn in *.
    constructor; [|done]. by eapply shows_preserved.
Qed.

(** [Collapse] on memory returns pointers to structs that show what
    [Collapse] returns on the values the inputs show, and panics when it
    panics. *)
Lemma Collapse_mem_refines ro h toMerge cs :
  mapM (fun p => cells h !! p) toMerge = Some cs ->
  match Collapse ro (snapshot h <$> cs) with
  | Panic e => Collapse_mem ro h toMerge = (h, Panic e)
  | Ok outs =>
      exists h' ps, Collapse_mem ro h toMerge = (h', Ok ps) /\ Forall2 (shows h') ps outs
  end.
Proof.
  intros Hcs. unfold Collapse_mem, Collapse. rewrite Hcs.
  destruct (snapshot h <$> cs) as [|first others]; [by exists h, []|].
  destruct (forallb _ others); [|done].
  destruct (is4 first).
  - unfold collapse4. destruct (collapse4_nets _ _) as [ms|]; [|done].
    pose proof (render_shows ip4Net_asNet_mem ip4Net_asNet h ms
                  ip4Net_asNet_mem_preserved ip4Net_asNet_mem_shows) as Hr.
    destruct (render ip4Net_asNet_mem h ms) as [h' ps]. by exists h', ps.
  - unfold collapse6. destruct (collapse6_nets _ _) as [ms|]; [|done].
    pose proof (render_shows ip6Net_asNet_mem ip6Net_asNet h ms
                  ip6Net_asNet_mem_preserved ip6Net_asNet_mem_shows) as Hr.
    destruct (render ip6Net_asNet_mem h ms) as [h' ps]. by exists h', ps.
Qed.

(** ** Inputs on which [Collapse] goes wrong *)

(** Two values of a list of two come in one of two orders. *)
Lemma perm_pair {T} (l : list T) a b : l ≡ₚ [a; b] -> l = [a; b] \/ l = [b; a].
Proof.
  intros Hp. symmetry in Hp. apply Permutation_length_2_inv in Hp. tauto.
Qed.

(** C1 at a failing input. 10.0.0.0/24 and 10.0.0.0/25 are both left in
    the map and have the same address, so [Less] does not order them.
    When the map is walked /25 first, the final pass keeps /25 and drops
    /24 as if it were contained in it: 10.0.0.200, which the input
    covers, is not covered by the output. Walked /24 first, the output
    is 10.0.0.0/24. With 10.0.0.5/24 in place of 10.0.0.0/24 the sort
    puts /25 first whatever the order of the walk. *)
Theorem Collapse_loses_coverage :
  Collapse range_long_first [cidr4 10 0 0 0 24; cidr4 10 0 0 0 25]
  = Ok [cidr4 10 0 0 0 25]
  /\ covers (cidr4 10 0 0 0 24) [10; 0; 0; 200] = true
  /\ covers (cidr4 10 0 0 0 25) [10; 0; 0; 200] = false
  /\ Collapse range_short_first [cidr4 10 0 0 0 24; cidr4 10 0 0 0 25]
     = Ok [cidr4 10 0 0 0 24]
  /\ (forall ro, range_ok ro ->
        Collapse ro [cidr4 10 0 0 5 24; cidr4 10 0 0 0 25] = Ok [cidr4 10 0 0 0 25])
  /\ covers (cidr4 10 0 0 5 24) [10; 0; 0; 200] = true.
Proof.
  split; [vm_compute; reflexivity|]. split; [vm_compute; reflexivity|].
  split; [vm_compute; reflexivity|]. split; [vm_compute; reflexivity|].
  split; [|vm_compute; reflexivity].
  intros ro [H4 _].
  assert (forall l, l ≡ₚ [TypedNet 167772160 25; TypedNet 167772165 24] ->
            coalesce ip4Net_mask Z.land (sort_nets ip4Nets_Less l)
            = Ok [TypedNet 167772160 25]) as Hboth.
  { intros l [->| ->]%perm_pair; vm_compute; reflexivity. }
  assert (values (merge_all ip4Net_super
                    (rev (newIP4Net <$> [cidr4 10 0 0 5 24; cidr4 10 0 0 0 25])))
          ≡ₚ [TypedNet 167772160 25; TypedNet 167772165 24]) as Hvals.
  { vm_compute. apply Permutation_refl || apply Permutation_swap. }
  unfold Collapse. cbn [forallb].
  change (is4 (cidr4 10 0 0 5 24)) with true.
  change (is4 (cidr4 10 0 0 0 25)) with true. cbn [Bool.eqb andb].
  unfold collapse4, collapse4_nets, collapse_nets, survivors.
  rewrite Hboth; [vm_compute; reflexivity|].
  by rewrite H4.
Qed.

(** C6 at a failing input. The same input gives two outputs, depending on
    the order in which the map is walked; and for one such order, two
    arrangements of the same networks give two outputs. *)
Theorem Collapse_depends_on_order :
  Collapse range_long_first [cidr4 10 0 0 0 24; cidr4 10 0 0 0 25]
  = Ok [cidr4 10 0 0 0 25]
  /\ Collapse range_short_first [cidr4 10 0 0 0 24; cidr4 10 0 0 0 25]
     = Ok [cidr4 10 0 0 0 24]
  /\ [cidr4 10 0 1 0 24; cidr4 10 0 0 0 24; cidr4 10 0 0 0 24]
     ≡ₚ [cidr4 10 0 0 0 24; cidr4 10 0 1 0 24; cidr4 10 0 0 0 24]
  /\ Collapse range_long_first [cidr4 10 0 0 0 24; cidr4 10 0 1 0 24; cidr4 10 0 0 0 24]
     = Ok [cidr4 10 0 0 0 24]
  /\ Collapse range_long_first [cidr4 10 0 1 0 24; cidr4 10 0 0 0 24; cidr4 10 0 0 0 24]
     = Ok [cidr4 10 0 0 0 23].
Proof.
  split; [vm_compute; reflexivity|]. split; [vm_compute; reflexivity|].
  split; [apply Permutation_swap|].
  split; vm_compute; reflexivity.
Qed.

(** C9, as stated, fails. ::ffff:10.0.1.0/120 is an IPv6 network with
    sixteen address bytes and a 128-bit mask, but [To4] of its address
    is not [nil], so [Collapse] takes it for IPv4: given with 10.0.0.0/24
    it does not panic. [newIP4Net] reads the last four bytes and the
    prefix length 120 of the 128-bit mask, and the network is returned as
    10.0.1.0 with the mask 0.0.0.0, in every run. *)
Lemma Collapse_takes_mapped_for_ipv4 :
  length (IP mapped_example) = 16%nat
  /\ Size (Mask mapped_example) = (120, 128)
  /\ is4 (cidr4 10 0 0 0 24) = true
  /\ is4 mapped_example = true
  /\ (forall ro, range_ok ro ->
        Collapse ro [cidr4 10 0 0 0 24; mapped_example]
        = Ok [cidr4 10 0 0 0 24; {| IP := [10; 0; 1; 0]; Mask := [0; 0; 0; 0] |}]).
Proof.
  split; [reflexivity|]. split; [vm_compute; reflexivity|].
  split; [vm_compute; reflexivity|]. split; [vm_compute; reflexivity|].
  intros ro [H4 _].
  assert (forall l, l ≡ₚ [TypedNet 167772160 24; TypedNet 167772416 120] ->
            coalesce ip4Net_mask Z.land (sort_nets ip4Nets_Less l)
            = Ok [TypedNet 167772160 24; TypedNet 167772416 120]) as Hboth.
  { intros l [->| ->]%perm_pair; vm_compute; reflexivity. }
  assert (values (merge_all ip4Net_super
                    (rev (newIP4Net <$> [cidr4 10 0 0 0 24; mapped_example])))
          ≡ₚ [TypedNet 167772160 24; TypedNet 167772416 120]) as Hvals.
  { vm_compute. apply Permutation_refl || apply Permutation_swap. }
  unfold Collapse. cbn [forallb].
  change (is4 (cidr4 10 0 0 0 24)) with true.
  change (is4 mapped_example) with true. cbn [Bool.eqb andb].
  unfold collapse4, collapse4_nets, collapse_nets, survivors.
  rewrite Hboth; [vm_compute; reflexivity|].
  by rewrite H4.
Qed.

(** ** [Supernet] and [Broadcast] *)

(** On every IPv6 network [Broadcast] returns the address it was given. *)
Lemma Broadcast_ipv6 a :
  length (IP a) = 16%nat -> is_bytes (IP a) -> To4 (IP a) = None ->
  Broadcast a = IP a.
Proof.
  intros Hlen Hb H4. unfold Broadcast. rewrite H4. destruct (Size (Mask a)).
  rewrite firstn_all. by apply from128_to128.
Qed.

(** On every IPv6 network [Supernet] returns the address it was given,
    with the shorter mask. *)
Lemma Supernet_ipv6 a newPrefix ones :
  length (IP a) = 16%nat -> is_bytes (IP a) -> To4 (IP a) = None ->
  Size (Mask a) = (ones, 128) -> 0 <= newPrefix <= ones -> ones <= 128 ->
  Supernet a newPrefix = Ok {| IP := IP a; Mask := CIDRMask newPrefix 128 |}.
Proof.
  intros Hlen Hb H4 Hs Hp Hones. unfold Supernet. rewrite Hs, H4.
  destruct (Z.ltb_spec newPrefix 0), (Z.ltb_spec ones newPrefix),
    (Z.ltb_spec 128 newPrefix); try lia. cbn [orb].
  rewrite from128_to128; [done..|]. unfold make. by rewrite length_replicate.
Qed.

(** On an IPv4 network of four bytes [Broadcast] sets the host bits. *)
Lemma Broadcast_ipv4 a ones :
  length (IP a) = 4%nat -> Size (Mask a) = (ones, 32) -> 0 <= ones <= 32 ->
  Broadcast a = be_encode 4 (Z.lor (be_decode (IP a)) (2 ^ (32 - ones) - 1)).
Proof.
  intros Hlen Hs Hones. unfold Broadcast, To4, to32, from32. rewrite Hs.
  rewrite decide_True by done. rewrite firstn_all, Hlen.
  change (4 - 4)%nat with 0%nat. rewrite take_0, drop_0. cbn [app].
  assert (u32 (shl32 1 (32 - ones) - 1) = 2 ^ (32 - ones) - 1) as ->; [|done].
  apply (forall_range (fun o => u32 (shl32 1 (32 - o) - 1) = 2 ^ (32 - o) - 1) 0 33);
    [vm_compute; reflexivity|lia].
Qed.

(** On an IPv4 network of four bytes [Supernet] keeps the first
    [newPrefix] bits of the address. *)
Lemma Supernet_ipv4 a newPrefix ones :
  length (IP a) = 4%nat -> Size (Mask a) = (ones, 32) ->
  0 <= newPrefix <= ones -> ones <= 32 ->
  Supernet a newPrefix
  = Ok {| IP := be_encode 4 (Z.land (be_decode (IP a)) (2 ^ 32 - 2 ^ (32 - newPrefix)));
          Mask := CIDRMask newPrefix 32 |}.
Proof.
  intros Hlen Hs Hp Hones. unfold Supernet, To4, to32, from32. rewrite Hs.
  destruct (Z.ltb_spec newPrefix 0), (Z.ltb_spec ones newPrefix),
    (Z.ltb_spec 32 newPrefix); try lia. cbn [orb].
  rewrite decide_True by done. rewrite Hlen.
  change (length (make 4) - 4)%nat with 0%nat. change (4 - 4)%nat with 0%nat.
  rewrite take_0, drop_0. cbn [app].
  assert (shl32 (u32 (shl32 1 newPrefix - 1)) (32 - newPrefix)
          = 2 ^ 32 - 2 ^ (32 - newPrefix)) as ->; [|done].
  apply (forall_range
           (fun p => shl32 (u32 (shl32 1 p - 1)) (32 - p) = 2 ^ 32 - 2 ^ (32 - p)) 0 33);
    [vm_compute; reflexivity|lia].
Qed.

(** C2 at a failing input. [Supernet(2001:db8:0:1::/64, 48)] has the /48
    mask but the address it was given: bit 63 from the left is still set.
    The IPv4 scenario of the specification is computed as stated. *)
Theorem Supernet_ipv6_unmasked :
  Supernet net6_example 48
  = Ok {| IP := [32; 1; 13; 184; 0; 0; 0; 1; 0; 0; 0; 0; 0; 0; 0; 0];
          Mask := CIDRMask 48 128 |}
  /\ Supernet (cidr4 10 0 5 0 24) 22 = Ok (cidr4 10 0 4 0 22).
Proof. split; vm_compute; reflexivity. Qed.

(** C3 at a failing input. [Broadcast(2001:db8:0:1::/64)] is the address
    it was given, with none of the 64 host bits set. The IPv4 scenario of
    the specification is computed as stated. *)
Theorem Broadcast_ipv6_unchanged :
  Broadcast net6_example = [32; 1; 13; 184; 0; 0; 0; 1; 0; 0; 0; 0; 0; 0; 0; 0]
  /\ Broadcast (cidr4 10 0 0 0 24) = [10; 0; 0; 255].
Proof. split; vm_compute; reflexivity. Qed.

(** * Further properties

    Properties of the code beyond the claims of the specification: what
    [Collapse] returns and covers, the subnet tests, [Supernet] and
    [Broadcast], the typed networks and their rendering, and the memory
    that [Collapse] returns. *)

(** ** The loop and the covered set *)

Section engine_cover.
Context {A : Type} `{Countable A}.
Abbreviation N := (typedNet A).
Variable super : N -> N.
Variable ok : N -> Prop.
Variable inside : N -> A -> Prop.
Hypothesis ok_super :
  forall n m, ok n -> ok m -> n <> m -> super n = super m -> ok (super n).
Hypothesis inside_super :
  forall n m x, ok n -> ok m -> n <> m -> super n = super m ->
    (inside (super n) x <-> inside n x \/ inside m x).

Abbreviation covers_like := (cover_at super ok inside).

Lemma merge_step_cover nets0 n rest supers nets' supers' :
  covers_like nets0 (n :: rest) supers ->
  merge_step super n rest supers = (nets', supers') ->
  covers_like nets0 nets' supers'.
Proof.
  intros [Hg Hc] Hst. split; [by eapply merge_step_good|].
  intros x. rewrite <- Hc. clear Hc.
  destruct Hg as (Hst_ok & Hk & Hm_ok). apply Forall_cons in Hst_ok as [Hn Hrest].
  revert Hst. unfold merge_step.
  destruct (supers !! super n) as [other|] eqn:Hs.
  - destruct (decide (other = n)) as [->|Hne]; intros [= <- <-].
    + split; intros (e & He & Hi); exists e; (split; [|done]).
      * destruct He as [He|He]; [left; by apply elem_of_cons; right|by right].
      * destruct He as [[->|He]%elem_of_cons|He]; [|by left|by right].
        right. apply elem_of_values. eauto.
    + assert (ok other) as Hoth by (eapply Hm_ok; eauto).
      assert (super other = super n) as Hsup by eauto.
      pose proof (inside_super n other x Hn Hoth (not_eq_sym Hne) (eq_sym Hsup)) as Hiff.
      split.
      * intros (e & He & Hi). destruct He as [[->|He]%elem_of_cons|He].
        -- apply Hiff in Hi as [Hi|Hi].
           ++ exists n. split; [left; apply elem_of_cons; by left|done].
           ++ exists other. split; [right; apply elem_of_values; eauto|done].
        -- exists e. split; [left; apply elem_of_cons; by right|done].
        -- exists e. split; [|done]. right.
           apply elem_of_values in He as [k [_ Hl]%lookup_delete_Some].
           apply elem_of_values. eauto.
      * intros (e & He & Hi). destruct He as [[->|He]%elem_of_cons|He].
        -- exists (super n). split; [left; apply elem_of_cons; by left|].
           apply Hiff. by left.
        -- exists e. split; [left; apply elem_of_cons; by right|done].
        -- apply elem_of_values in He as [k Hl].
           destruct (decide (k = super n)) as [->|Hk'].
           ++ rewrite Hs in Hl. injection Hl as <-.
              exists (super n). split; [left; apply elem_of_cons; by left|].
              apply Hiff. by right.
           ++ exists e. split; [|done]. right. apply elem_of_values.
              exists k. by apply lookup_delete_Some.
  - intros [= <- <-]. split.
    + intros (e & He & Hi). exists e. split; [|done].
      destruct He as [He|He]; [left; apply elem_of_cons; by right|].
      apply elem_of_values in He as [k [[_ <-]|[_ Hl]]%lookup_insert_Some].
      * left. apply elem_of_cons. by left.
      * right. apply elem_of_values. eauto.
    + intros (e & He & Hi). exists e. split; [|done].
      destruct He as [[->|He]%elem_of_cons|He].
      * right. apply elem_of_values. exists (super n). apply lookup_insert_eq.
      * by left.
      * right. apply elem_of_values in He as [k Hl]. apply elem_of_values.
        exists k. apply lookup_insert_Some. right. split; [|done].
        intros <-. by rewrite Hs in Hl.
Qed.

(** The loop neither loses nor invents an address: what is left in the
    map covers exactly what the stack covered at the start. *)
Lemma merge_all_cover nets x :
  Forall ok nets ->
  (exists v, v ∈ values (merge_all super nets) /\ inside v x)
  <-> (exists n, n ∈ nets /\ inside n x).
Proof.
  intros Hok. unfold merge_all.
  pose proof (merge_loop_done super (merge_fuel nets ∅) nets ∅ (Nat.le_refl _)) as Hdone.
  assert (covers_like nets nets (∅ : gmap N N)) as H0.
  { split.
    - split; [done|]. split; [intros k v; by rewrite lookup_empty|apply map_Forall_empty].
    - intros y. split; intros (e & He & Hi); exists e; (split; [|done]).
      + destruct He as [He|He]; [done|].
        apply elem_of_values in He as [k Hl]. by rewrite lookup_empty in Hl.
      + by left. }
  destruct (merge_loop_inv super (covers_like nets) (merge_step_cover nets)
              (merge_fuel nets ∅) nets ∅ H0) as [_ Hc].
  rewrite Hdone in Hc. rewrite <- Hc. split.
  - intros (v & Hv & Hi). exists v. split; [by right|done].
  - intros (v & [Hv|Hv] & Hi); [by apply elem_of_nil in Hv|]. eauto.
Qed.

(** Pops and inserts are matched by stack entries: the stack and the map
    together never hold more entries than the input had. *)
Lemma merge_step_count n rest supers nets' supers' :
  merge_step super n rest supers = (nets', supers') ->
  (length nets' + size supers' <= length (n :: rest) + size supers)%nat.
Proof.
  unfold merge_step. cbn [length].
  destruct (supers !! super n) as [other|] eqn:Hs.
  - destruct (decide (other = n)); intros [= <- <-].
    + lia.
    + cbn [length]. rewrite (map_size_delete_Some (super n) supers) by eauto.
      assert (size supers <> 0%nat).
      { apply map_size_non_empty_iff. intros ->. by rewrite lookup_empty in Hs. }
      lia.
  - intros [= <- <-]. rewrite map_size_insert_None by done. lia.
Qed.

Lemma merge_all_count nets : (length (values (merge_all super nets)) <= length nets)%nat.
Proof.
  unfold merge_all, values. rewrite length_fmap, length_map_to_list.
  pose proof (merge_loop_inv super
    (fun st (m : gmap N N) => (length st + size m <= length nets)%nat)) as Hinv.
  cbn beta in Hinv.
  assert (Hstep : forall n rest (supers : gmap N N) nets' supers',
    (length (n :: rest) + size supers <= length nets)%nat ->
    merge_step super n rest supers = (nets', supers') ->
    (length nets' + size supers' <= length nets)%nat).
  { intros n rest supers nets' supers' Hle Hst%merge_step_count. lia. }
  specialize (Hinv Hstep (merge_fuel nets ∅) nets ∅).
  rewrite map_size_empty in Hinv. specialize (Hinv ltac:(lia)). lia.
Qed.
End engine_cover.

Lemma land_mask_agree W k x a :
  0 <= k <= W ->
  Z.land x (2 ^ W - 2 ^ k) = Z.land a (2 ^ W - 2 ^ k)
  <-> (forall i, k <= i < W -> Z.testbit x i = Z.testbit a i).
Proof.
  intros Hk. split.
  - intros Heq i Hi.
    assert (Z.testbit (Z.land x (2 ^ W - 2 ^ k)) i = Z.testbit (Z.land a (2 ^ W - 2 ^ k)) i)
      as Hb by (by rewrite Heq).
    rewrite !Z.land_spec, testbit_pow2_diff in Hb by lia.
    replace (k <=? i) with true in Hb by (symmetry; apply Z.leb_le; lia).
    replace (i <? W) with true in Hb by (symmetry; apply Z.ltb_lt; lia).
    by rewrite !andb_true_r in Hb.
  - intros Hbits. apply Z.bits_inj'. intros i Hi.
    rewrite !Z.land_spec, testbit_pow2_diff by lia.
    destruct (k <=? i) eqn:E1; [|by rewrite !andb_false_r].
    destruct (i <? W) eqn:E2; [|by rewrite !andb_false_r].
    apply Z.leb_le in E1. apply Z.ltb_lt in E2. rewrite Hbits by lia. done.
Qed.

(** Two different numbers that agree once bit [k] is cleared differ at
    bit [k] and nowhere else; the numbers that agree with them above bit
    [k] are those that agree with one of them from bit [k] on. *)
Lemma sibling_cover W k a b x :
  0 <= k < W -> 0 <= a -> 0 <= b -> a <> b ->
  Z.ldiff a (2 ^ k) = Z.ldiff b (2 ^ k) ->
  Z.land x (2 ^ W - 2 ^ (k + 1)) = Z.land (Z.ldiff a (2 ^ k)) (2 ^ W - 2 ^ (k + 1))
  <-> Z.land x (2 ^ W - 2 ^ k) = Z.land a (2 ^ W - 2 ^ k)
      \/ Z.land x (2 ^ W - 2 ^ k) = Z.land b (2 ^ W - 2 ^ k).
Proof.
  intros Hk Ha Hb Hne Heq.
  assert (forall i, 0 <= i -> i <> k -> Z.testbit a i = Z.testbit b i) as Hsame.
  { intros i Hi Hik.
    assert (Z.testbit (Z.ldiff a (2 ^ k)) i = Z.testbit (Z.ldiff b (2 ^ k)) i) as Hbit
      by (by rewrite Heq).
    rewrite !testbit_ldiff_pow2 in Hbit by lia.
    replace (i =? k) with false in Hbit by (symmetry; apply Z.eqb_neq; lia).
    by rewrite !andb_true_r in Hbit. }
  assert (Z.testbit a k <> Z.testbit b k) as Hdiff.
  { intros Hkk. apply Hne. apply Z.bits_inj'. intros i Hi.
    destruct (decide (i = k)) as [->|]; [done|]. by apply Hsame. }
  rewrite !land_mask_agree by lia. split.
  - intros Hup.
    assert (forall i, k + 1 <= i < W -> Z.testbit x i = Z.testbit a i) as Hup'.
    { intros i Hi. rewrite Hup, testbit_ldiff_pow2 by lia.
      replace (i =? k) with false by (symmetry; apply Z.eqb_neq; lia).
      by rewrite andb_true_r. }
    destruct (decide (Z.testbit x k = Z.testbit a k)) as [Hx|Hx].
    + left. intros i Hi. destruct (decide (i = k)) as [->|]; [done|]. apply Hup'. lia.
    + right. intros i Hi. destruct (decide (i = k)) as [->|].
      * destruct (Z.testbit x k), (Z.testbit a k), (Z.testbit b k); congruence.
      * rewrite <- Hsame by lia. apply Hup'. lia.
  - intros [Hx|Hx]; intros i Hi; rewrite testbit_ldiff_pow2 by lia;
      replace (i =? k) with false by (symmetry; apply Z.eqb_neq; lia);
      rewrite andb_true_r, Hx by lia; [done|]. symmetry. apply Hsame; lia.
Qed.

(** Two valid networks that the loop merges have the same prefix
    length, which is not 0. *)
Lemma merged_prefix {A} (f : family A) (n m : typedNet A) :
  valid_of f n -> valid_of f m -> n <> m -> super_of f n = super_of f m ->
  1 <= prefix n /\ prefix m = prefix n.
Proof.
  intros Hn Hm Hne Heq.
  assert (typed_ok f n /\ typed_ok f m) as [Hn' Hm'].
  { destruct f; cbn in *; unfold valid4, valid6, typed_ok in *; cbn; intuition lia. }
  assert (0 <= prefix n /\ 0 <= prefix m) as [H0n H0m].
  { destruct f; cbn in *; unfold valid4, valid6 in *; intuition lia. }
  assert (prefix n <> 0) as Hpn.
  { intros Hp. apply Hne. symmetry. by eapply (super_zero_inj f). }
  assert (prefix m <> 0) as Hpm.
  { intros Hp. apply Hne. by eapply (super_zero_inj f). }
  split; [lia|].
  assert (prefix (super_of f n) = prefix (super_of f m)) as Hp by (by rewrite Heq).
  destruct f; cbn [super_of valid_of] in *.
  - rewrite !ip4Net_super_eq in Hp by (unfold valid4 in *; lia). cbn in Hp. lia.
  - rewrite !ip6Net_super_eq in Hp by (done || lia). cbn in Hp. lia.
Qed.

Lemma valid_super_merge {A} (f : family A) (n m : typedNet A) :
  valid_of f n -> valid_of f m -> n <> m -> super_of f n = super_of f m ->
  valid_of f (super_of f n).
Proof.
  intros Hn Hm Hne Heq.
  destruct (merged_prefix f n m Hn Hm Hne Heq) as [Hp _].
  destruct f; cbn [super_of valid_of] in *.
  - by apply ip4Net_super_valid.
  - by apply ip6Net_super_valid.
Qed.

Lemma inside_super {A} (f : family A) (n m : typedNet A) (x : A) :
  valid_of f n -> valid_of f m -> n <> m -> super_of f n = super_of f m ->
  (inside_of f (super_of f n) x <-> inside_of f n x \/ inside_of f m x).
Proof.
  intros Hn Hm Hne Heq.
  destruct (merged_prefix f n m Hn Hm Hne Heq) as [Hp Hpm].
  pose proof (valid_super_merge f n m Hn Hm Hne Heq) as Hs.
  unfold inside_of. destruct f; cbn [super_of valid_of mask_of and_of] in *.
  - destruct Hn as [Han Hpn], Hm as [Ham Hpm'], Hs as [_ Hps].
    rewrite (ip4Net_mask_eq n), (ip4Net_mask_eq m), (ip4Net_mask_eq (ip4Net_super n)) by done.
    rewrite !ip4Net_super_eq in Heq by lia.
    rewrite ip4Net_super_eq by lia. cbn [addr prefix].
    rewrite Hpm in *. injection Heq as Heq.
    replace (32 - (prefix n - 1)) with (32 - prefix n + 1) by lia.
    apply sibling_cover; try lia.
    intros Hab. apply Hne. destruct n, m; cbn in *; congruence.
  - destruct Hn as [[Hhn Hln] Hpn], Hm as [[Hhm Hlm] Hpm'], Hs as [_ Hps].
    rewrite (ip6Net_mask_eq n), (ip6Net_mask_eq m), (ip6Net_mask_eq (ip6Net_super n)) by done.
    rewrite !ip6Net_super_eq in Heq by (done || lia).
    rewrite ip6Net_super_eq by (done || lia). cbn [addr prefix hi lo].
    rewrite Hpm in *. unfold u128_And. cbn [hi lo].
    destruct n as [[hn ln] pn], m as [[hm lm] pm], x as [hx lx]. cbn [addr prefix hi lo] in *.
    subst pm.
    destruct (Z.leb_spec pn 64) as [Hle|Hgt].
    + injection Heq as Hh Hl. subst lm.
      replace (Z.max pn 64) with 64 by lia. replace (Z.max (pn - 1) 64) with 64 by lia.
      replace (Z.min pn 64) with pn by lia. replace (Z.min (pn - 1) 64) with (pn - 1) by lia.
      replace (2 ^ 64 - 2 ^ (128 - 64)) with 0 by reflexivity.
      rewrite !Z.land_0_r.
      replace (64 - (pn - 1)) with (64 - pn + 1) by lia.
      assert (hn <> hm) as Hhne by (intros ->; by apply Hne).
      pose proof (sibling_cover 64 (64 - pn) hn hm hx ltac:(lia) ltac:(lia) ltac:(lia) Hhne Hh)
        as Hsc.
      split.
      * intros [= Hc]. apply Hsc in Hc as [Hc|Hc]; [left|right]; by rewrite Hc.
      * intros [[= Hc]|[= Hc]]; f_equal; apply Hsc; auto.
    + injection Heq as Hh Hl. subst hm.
      replace (Z.max pn 64) with pn by lia. replace (Z.max (pn - 1) 64) with (pn - 1) by lia.
      replace (Z.min pn 64) with 64 by lia. replace (Z.min (pn - 1) 64) with 64 by lia.
      replace (128 - (pn - 1)) with (128 - pn + 1) by lia.
      assert (ln <> lm) as Hlne by (intros ->; by apply Hne).
      pose proof (sibling_cover 64 (128 - pn) ln lm lx ltac:(lia) ltac:(lia) ltac:(lia) Hlne Hl)
        as Hsc.
      split.
      * intros [= Hc1 Hc]. apply Hsc in Hc as [Hc|Hc]; [left|right]; by rewrite Hc1, Hc.
      * intros [[= Hc1 Hc]|[= Hc1 Hc]]; f_equal; auto; apply Hsc; auto.
Qed.

Section engine_runs.
Context {A : Type} `{Countable A}.
Abbreviation N := (typedNet A).
Variable super : N -> N.
Variable mask : N -> A.
Variable and_ : A -> A -> A.
Variable less : N -> N -> bool.
Variable rho : list N -> list N.
Hypothesis rho_perm : forall l, rho l ≡ₚ l.

Abbreviation collapse := (collapse_nets super mask and_ less rho).

Lemma collapse_nets_length nets out :
  collapse nets = Ok out -> (length out <= length nets)%nat.
Proof.
  intros (merged & Hperm & Hsub)%(collapse_nets_sub super mask and_ less rho rho_perm).
  apply sublist_length in Hsub. apply Permutation_length in Hperm.
  pose proof (merge_all_count super (rev nets)) as Hc. rewrite length_rev in Hc. lia.
Qed.

Lemma rho_singleton x : rho [x] = [x].
Proof. apply Permutation_singleton_r, rho_perm. Qed.

Lemma values_singleton (k v : N) : values ({[k := v]} : gmap N N) = [v].
Proof. unfold values. by rewrite map_to_list_singleton. Qed.

Lemma collapse_from_singleton k v nets :
  merge_all super nets = {[k := v]} -> collapse (rev nets) = Ok [v].
Proof.
  intros Hm. unfold collapse_nets, survivors. rewrite rev_involutive, Hm.
  by rewrite values_singleton, rho_singleton.
Qed.

(** Two different networks with the same [super] are replaced by it. *)
Lemma collapse_nets_pair n m :
  n <> m -> super n = super m -> collapse [n; m] = Ok [super n].
Proof.
  intros Hne Heq. apply (collapse_from_singleton (super (super n)) (super n) [m; n]).
  unfold merge_all, merge_fuel. cbn [length]. rewrite map_size_empty.
  change (2 * 2 + 0)%nat with 4%nat.
  assert (merge_step super m [n] ∅ = ([n], {[super m := m]})) as E1.
  { unfold merge_step. by rewrite lookup_empty. }
  assert (merge_step super n [] {[super m := m]} = ([super n], ∅)) as E2.
  { unfold merge_step. rewrite Heq, lookup_singleton_eq, decide_False by done.
    by rewrite delete_singleton_eq. }
  assert (merge_step super (super n) [] ∅ = ([], {[super (super n) := super n]})) as E3.
  { unfold merge_step. by rewrite lookup_empty. }
  cbn [merge_loop]. rewrite E1. cbn [merge_loop]. rewrite E2. cbn [merge_loop].
  by rewrite E3.
Qed.

(** Copies of one network leave that network. *)
Lemma merge_loop_copies fuel k n :
  (k <= fuel)%nat ->
  merge_loop super fuel (replicate k n) {[super n := n]} = ([], {[super n := n]}).
Proof.
  revert k. induction fuel as [|f IH]; intros k Hk.
  - by replace k with 0%nat by lia.
  - destruct k as [|k]; [done|]. cbn [replicate merge_loop].
    unfold merge_step. rewrite lookup_singleton_eq, decide_True by done.
    apply IH. lia.
Qed.

Lemma collapse_nets_copies k n : collapse (replicate (S k) n) = Ok [n].
Proof.
  rewrite <- (rev_involutive (replicate (S k) n)).
  apply (collapse_from_singleton (super n) n).
  assert (rev (replicate (S k) n) = replicate (S k) n) as ->.
  { rewrite rev_alt. exact (reverse_replicate (S k) n). }
  unfold merge_all, merge_fuel. rewrite length_replicate, map_size_empty.
  replace (2 * S k + 0)%nat with (S (S (2 * k))) by lia.
  cbn [replicate merge_loop]. unfold merge_step at 1. rewrite lookup_empty.
  change (<[super n:=n]> (∅ : gmap N N)) with ({[super n := n]} : gmap N N).
  apply (f_equal snd (merge_loop_copies (S (2 * k)) k n ltac:(lia))).
Qed.

End engine_runs.

Section strict.
Context {A : Type} `{Countable A}.
Abbreviation N := (typedNet A).
Variable super : N -> N.
Variable mask : N -> A.
Variable and_ : A -> A -> A.
Variable less : N -> N -> bool.
Variable good : N -> Prop.
Variable val : N -> Z.
Hypothesis good_less : forall x y, good x -> good y -> less x y = (val x <? val y).
Hypothesis good_val : forall x y, good x -> good y -> val x = val y -> addr x = addr y.
Hypothesis good_masked : forall n, good n -> and_ (addr n) (mask n) = addr n.
Hypothesis good_super :
  forall n m, good n -> good m -> n <> m -> super n = super m -> good (super n).
Variable rho : list N -> list N.
Hypothesis rho_perm : forall l, rho l ≡ₚ l.

(** The entries that pass the final pass are in range and ascend
    strictly. *)
Lemma collapse_nets_strict nets out :
  Forall good nets ->
  collapse_nets super mask and_ less rho nets = Ok out ->
  Forall good out /\ StronglySorted (lt_by val) out.
Proof.
  intros Hgood Hc.
  assert (Forall good (sort_nets less (survivors super rho (rev nets)))) as Hg.
  { apply Forall_forall. intros v Hv.
    apply (merge_all_good super good good_super (rev nets)).
    - apply Forall_forall. intros x Hx%list_elem_of_In%in_rev%list_elem_of_In.
      rewrite Forall_forall in Hgood. auto.
    - revert Hv. unfold survivors. by rewrite sort_nets_perm, rho_perm. }
  assert (StronglySorted (le_by val) (sort_nets less (survivors super rho (rev nets)))) as Hs.
  { apply (sort_nets_sorted less good val good_less).
    apply Forall_forall. intros v Hv.
    apply (merge_all_good super good good_super (rev nets)).
    - apply Forall_forall. intros x Hx%list_elem_of_In%in_rev%list_elem_of_In.
      rewrite Forall_forall in Hgood. auto.
    - revert Hv. unfold survivors. by rewrite rho_perm. }
  unfold collapse_nets in Hc.
  destruct (sort_nets less (survivors super rho (rev nets))) as [|m0 rest]; [done|].
  injection Hc as <-.
  apply Forall_cons in Hg as [Hm0 Hrest].
  apply StronglySorted_inv in Hs as [Hs Hle].
  destruct (coalesce_from_strict mask and_ good val good_val good_masked m0 rest)
    as [Hlt Hst]; try done.
  split.
  - apply Forall_cons. split; [done|].
    apply Forall_forall. intros z Hz. rewrite Forall_forall in Hrest. apply Hrest.
    eapply sublist_subseteq; [apply coalesce_from_sublist|exact Hz].
  - by apply SSorted_cons.
Qed.
End strict.

(** ** Networks in canonical form *)

Lemma mask4_bytes n :
  0 <= prefix n <= 32 -> be_encode 4 (ip4Net_mask n) = CIDRMask (prefix n) 32.
Proof.
  intros Hp. unfold ip4Net_mask.
  apply (forall_range
           (fun p => be_encode 4 (not32 (u32 (shl32 1 (u8 (32 - p)) - 1))) = CIDRMask p 32)
           0 33); [vm_compute; reflexivity | lia].
Qed.

Lemma mask6_bytes n :
  0 <= prefix n <= 128 ->
  from128 (ip6Net_mask n) (make 16) = CIDRMask (prefix n) 128.
Proof.
  intros Hp. unfold ip6Net_mask.
  apply (forall_range
           (fun p => from128 (u128_Not (u128_Minus (u128_Lsh (U128 0 1) (u64 (128 - p)))
                                                   (U128 0 1))) (make 16)
                     = CIDRMask p 128) 0 129); [vm_compute; reflexivity | lia].
Qed.

Lemma Size_CIDRMask4 p : 0 <= p <= 32 -> Size (CIDRMask p 32) = (p, 32).
Proof.
  intros Hp.
  apply (forall_range (fun p => Size (CIDRMask p 32) = (p, 32)) 0 33);
    [vm_compute; reflexivity | lia].
Qed.

Lemma Size_CIDRMask6 p : 0 <= p <= 128 -> Size (CIDRMask p 128) = (p, 128).
Proof.
  intros Hp.
  apply (forall_range (fun p => Size (CIDRMask p 128) = (p, 128)) 0 129);
    [vm_compute; reflexivity | lia].
Qed.

Lemma to32_4 ip : length ip = 4%nat -> to32 ip = be_decode ip.
Proof. intros Hl. unfold to32. by rewrite Hl. Qed.

Lemma be_decode_range bs : is_bytes bs -> 0 <= be_decode bs < 256 ^ Z.of_nat (length bs).
Proof.
  induction bs as [|b l IH] using rev_ind; intros Hb; [cbn; lia|].
  apply Forall_app in Hb as [Hl [Hb _]%Forall_cons].
  rewrite be_decode_snoc, length_app, Nat.add_1_r, Nat2Z.inj_succ, Z.pow_succ_r by lia.
  specialize (IH Hl). lia.
Qed.

Lemma plain4_new x p :
  length (IP x) = 4%nat -> is_bytes (IP x) -> 0 <= p <= 32 -> Mask x = CIDRMask p 32 ->
  newIP4Net x = TypedNet (be_decode (IP x)) p /\ 0 <= be_decode (IP x) < 2 ^ 32.
Proof.
  intros Hl Hb Hp Hm. unfold newIP4Net. rewrite Hm, Size_CIDRMask4, to32_4 by done.
  split.
  - f_equal. unfold u8. apply Z.mod_small. lia.
  - pose proof (be_decode_range _ Hb) as Hr. rewrite Hl in Hr. exact Hr.
Qed.

Lemma plain4_asNet x : plain4 x -> ip4Net_asNet (newIP4Net x) = x.
Proof.
  intros (Hl & Hb & p & Hp & Hm).
  destruct (plain4_new x p Hl Hb Hp Hm) as [-> Hr].
  unfold ip4Net_asNet. rewrite !from32_make4. cbn [addr].
  rewrite mask4_bytes by done. cbn [prefix].
  rewrite <- Hl, be_encode_decode by done. destruct x. cbn in *. by subst.
Qed.

Lemma plain4_is4 x : plain4 x -> is4 x = true.
Proof.
  intros (Hl & _). unfold is4, To4. rewrite decide_True by done.
  by apply bool_decide_eq_true_2.
Qed.

Lemma plain6_new x p :
  length (IP x) = 16%nat -> 0 <= p <= 128 -> Mask x = CIDRMask p 128 ->
  newIP6Net x = TypedNet (to128 (IP x)) p.
Proof.
  intros Hl Hp Hm. unfold newIP6Net. rewrite Hm, Size_CIDRMask6 by done.
  f_equal. unfold u8. apply Z.mod_small. lia.
Qed.

Lemma plain6_asNet x : plain6 x -> ip6Net_asNet (newIP6Net x) = x.
Proof.
  intros (Hl & Hb & _ & p & Hp & Hm).
  rewrite (plain6_new x p Hl Hp Hm).
  unfold ip6Net_asNet. cbn [addr]. rewrite mask6_bytes by done. cbn [prefix].
  rewrite from128_to128 by done. destruct x. cbn in *. by subst.
Qed.

Lemma plain6_is4 x : plain6 x -> is4 x = false.
Proof.
  intros (_ & _ & Hn & _). unfold is4. rewrite Hn.
  apply bool_decide_eq_false_2. intros Hc. by apply Hc.
Qed.

Lemma net4_new a p :
  0 <= a < 2 ^ 32 -> 0 <= p <= 32 -> newIP4Net (net4 a p) = TypedNet a p.
Proof.
  intros Ha Hp. unfold newIP4Net, net4. cbn [IP Mask].
  rewrite Size_CIDRMask4, to32_4 by (done || apply be_encode_length).
  rewrite be_decode_encode_id by (change (256 ^ Z.of_nat 4) with (2 ^ 32); lia).
  f_equal. unfold u8. apply Z.mod_small. lia.
Qed.

Lemma net4_asNet n : 0 <= prefix n <= 32 -> ip4Net_asNet n = net4 (addr n) (prefix n).
Proof.
  intros Hp. unfold ip4Net_asNet, net4. by rewrite !from32_make4, mask4_bytes.
Qed.

Lemma net4_is4 a p : is4 (net4 a p) = true.
Proof.
  unfold is4, To4, net4. cbn [IP]. rewrite decide_True by apply be_encode_length.
  by apply bool_decide_eq_true_2.
Qed.

(** ** What [Collapse] returns *)

(** X1. [Collapse] panics on a mixed list only. On a list of one family
    it returns a list, which has an entry when the input has one and is
    never longer than the input. In particular [merged[0]] is always in
    range. *)
Theorem Collapse_returns ro toMerge :
  range_ok ro ->
  (forall x y, x ∈ toMerge -> y ∈ toMerge -> is4 x = is4 y) ->
  exists out, Collapse ro toMerge = Ok out
              /\ (length out <= length toMerge)%nat
              /\ (toMerge <> [] -> out <> []).
Proof.
  intros [Hr4 Hr6] Hsame.
  destruct toMerge as [|first others]; [by exists []|].
  destruct (is4 first) eqn:Hf.
  - rewrite Collapse_all4; [|done|].
    2:{ apply Forall_forall. intros x Hx. rewrite <- Hf. apply Hsame; [done|].
        apply elem_of_cons. by left. }
    unfold collapse4.
    destruct (collapse_nets_total ip4Net_super ip4Net_mask Z.land ip4Nets_Less
                (range4 ro) Hr4 (newIP4Net <$> first :: others)) as [ms Hms]; [done|].
    fold (collapse4_nets ro (newIP4Net <$> first :: others)) in Hms. rewrite Hms.
    exists (ip4Net_asNet <$> ms). split; [done|].
    pose proof (collapse_nets_length _ _ _ _ _ Hr4 _ _ Hms) as Hlen.
    rewrite length_fmap in Hlen. rewrite length_fmap. split; [exact Hlen|]. intros _.
    apply coalesce_nonempty in Hms. by destruct ms.
  - rewrite Collapse_all6; [|done|].
    2:{ apply Forall_forall. intros x Hx. rewrite <- Hf. apply Hsame; [done|].
        apply elem_of_cons. by left. }
    unfold collapse6.
    destruct (collapse_nets_total ip6Net_super ip6Net_mask u128_And ip6Nets_Less
                (range6 ro) Hr6 (newIP6Net <$> first :: others)) as [ms Hms]; [done|].
    fold (collapse6_nets ro (newIP6Net <$> first :: others)) in Hms. rewrite Hms.
    exists (ip6Net_asNet <$> ms). split; [done|].
    pose proof (collapse_nets_length _ _ _ _ _ Hr6 _ _ Hms) as Hlen.
    rewrite length_fmap in Hlen. rewrite length_fmap. split; [exact Hlen|]. intros _.
    apply coalesce_nonempty in Hms. by destruct ms.
Qed.

Lemma Collapse_returns_witness :
  exists out, Collapse range_id [cidr4 10 0 0 0 24; cidr4 10 0 1 0 24; cidr4 10 0 0 0 24] = Ok out
              /\ (length out <= 3)%nat
              /\ ([cidr4 10 0 0 0 24; cidr4 10 0 1 0 24; cidr4 10 0 0 0 24] <> [] -> out <> []).
Proof.
  apply (Collapse_returns range_id [cidr4 10 0 0 0 24; cidr4 10 0 1 0 24; cidr4 10 0 0 0 24]).
  - apply range_id_ok.
  - intros x y Hx Hy.
    assert (forall z, z ∈ [cidr4 10 0 0 0 24; cidr4 10 0 1 0 24; cidr4 10 0 0 0 24] ->
                      is4 z = true) as Hall.
    { intros z Hz. repeat (apply elem_of_cons in Hz as [->|Hz]; [vm_compute; reflexivity|]).
      by apply elem_of_nil in Hz. }
    by rewrite !Hall.
Defined.

(** X2. The loop [for len(nets) > 0] of [collapse4] / [collapse6] ends:
    whatever [super] is, after [2 * len(nets)] iterations the stack is
    empty, and the map is then the one that is ranged over. *)
Theorem merge_loop_terminates `{Countable A} (super : typedNet A -> typedNet A) nets k :
  merge_loop super (2 * length nets + k) nets ∅ = ([], merge_all super nets).
Proof.
  pose proof (merge_loop_done super (merge_fuel nets ∅) nets ∅ (Nat.le_refl _)) as Hdone.
  assert (merge_fuel nets (∅ : gmap (typedNet A) (typedNet A)) = (2 * length nets)%nat) as Hf.
  { unfold merge_fuel. rewrite map_size_empty. lia. }
  rewrite Hf in Hdone. rewrite merge_loop_more by done.
  unfold merge_all. rewrite Hf.
  destruct (merge_loop super (2 * length nets) nets ∅) as [st m]. cbn in *. by subst.
Qed.

(** X3. Two sibling IPv4 networks are replaced by their parent: for
    a 32-bit address [a] and [1 <= p <= 32], [Collapse] of [a/p] and
    of the network that differs from it in bit [32 - p] only is the
    network with that bit cleared and prefix length [p - 1], in every
    run. Host bits below bit [32 - p] are kept. *)
Theorem Collapse_siblings ro a p :
  range_ok ro -> 0 <= a < 2 ^ 32 -> 1 <= p <= 32 ->
  Collapse ro [net4 a p; net4 (Z.lxor a (2 ^ (32 - p))) p]
  = Ok [net4 (Z.ldiff a (2 ^ (32 - p))) (p - 1)].
Proof.
  intros [Hr4 _] Ha Hp.
  assert (0 <= Z.lxor a (2 ^ (32 - p)) < 2 ^ 32) as Hb.
  { split; [apply Z.lxor_nonneg; split; intros; lia || (apply Z.pow_nonneg; lia)|].
    assert (Z.lxor a (2 ^ (32 - p)) < 2 ^ 32 <-> Z.log2 (Z.lxor a (2 ^ (32 - p))) < 32)
      as ->.
    { destruct (decide (Z.lxor a (2 ^ (32 - p)) = 0)) as [->|Hz]; [done|].
      apply Z.log2_lt_pow2.
      assert (0 <= Z.lxor a (2 ^ (32 - p))); [|lia].
      apply Z.lxor_nonneg. split; intros; lia || (apply Z.pow_nonneg; lia). }
    eapply Z.le_lt_trans; [apply Z.log2_lxor; lia || (apply Z.pow_nonneg; lia)|].
    apply Z.max_lub_lt.
    - destruct (decide (a = 0)) as [->|]; [done|]. apply Z.log2_lt_pow2; lia.
    - rewrite Z.log2_pow2 by lia. lia. }
  rewrite Collapse_all4; [|done|by repeat constructor; apply net4_is4].
  unfold collapse4. cbn [fmap list_fmap]. rewrite !net4_new by (done || lia).
  unfold collapse4_nets.
  rewrite (collapse_nets_pair ip4Net_super ip4Net_mask Z.land ip4Nets_Less (range4 ro) Hr4);
    [| |].
  - cbn [fmap list_fmap]. rewrite net4_asNet.
    + rewrite ip4Net_super_eq by (cbn; lia). done.
    + rewrite ip4Net_super_eq by (cbn; lia). cbn. lia.
  - intros [= Hx].
    assert (Z.testbit a (32 - p) = Z.testbit (Z.lxor a (2 ^ (32 - p))) (32 - p)) as Hbit
      by (by rewrite <- Hx).
    rewrite Z.lxor_spec, Z.pow2_bits_true in Hbit by lia.
    by destruct (Z.testbit a (32 - p)).
  - rewrite !ip4Net_super_eq by (cbn; lia). cbn [addr prefix]. f_equal.
    apply Z.bits_inj'. intros i Hi. rewrite !testbit_ldiff_pow2 by lia.
    rewrite Z.lxor_spec. destruct (Z.eqb_spec i (32 - p)) as [->|Hne].
    + by rewrite !andb_false_r.
    + rewrite Z.pow2_bits_false by lia. by rewrite xorb_false_r.
Qed.

Lemma Collapse_siblings_witness :
  Collapse range_long_first [net4 167772416 24; net4 (Z.lxor 167772416 (2 ^ (32 - 24))) 24]
  = Ok [net4 (Z.ldiff 167772416 (2 ^ (32 - 24))) (24 - 1)].
Proof.
  apply (Collapse_siblings range_long_first 167772416 24).
  - apply range_long_first_ok.
  - lia.
  - lia.
Defined.

(** X4. Copies of one network collapse to that network: for a network
    [x] in canonical form (of either family, host bits allowed) [Collapse]
    of [k + 1] copies of [x] is [[x]], in every run. *)
Theorem Collapse_copies ro x k :
  range_ok ro -> plain x -> Collapse ro (replicate (S k) x) = Ok [x].
Proof.
  intros [Hr4 Hr6] [Hx|Hx].
  - rewrite Collapse_all4; [|done|].
    2:{ apply Forall_forall. intros y ->%elem_of_replicate_inv. by apply plain4_is4. }
    unfold collapse4, collapse4_nets. rewrite fmap_replicate.
    rewrite (collapse_nets_copies ip4Net_super ip4Net_mask Z.land ip4Nets_Less (range4 ro) Hr4).
    cbn [fmap list_fmap].
    by rewrite plain4_asNet.
  - rewrite Collapse_all6; [|done|].
    2:{ apply Forall_forall. intros y ->%elem_of_replicate_inv. by apply plain6_is4. }
    unfold collapse6, collapse6_nets. rewrite fmap_replicate.
    rewrite (collapse_nets_copies ip6Net_super ip6Net_mask u128_And ip6Nets_Less (range6 ro) Hr6).
    cbn [fmap list_fmap].
    by rewrite plain6_asNet.
Qed.

Lemma Collapse_copies_witness :
  Collapse range_id (replicate 3 (cidr4 10 0 0 5 24)) = Ok [cidr4 10 0 0 5 24].
Proof.
  apply (Collapse_copies range_id (cidr4 10 0 0 5 24) 2).
  - apply range_id_ok.
  - left. split; [reflexivity|]. split.
    + repeat constructor; lia.
    + exists 24. split; [lia|reflexivity].
Defined.

(** ** Bytes and numbers *)

Lemma testbit_byte_cons a x i :
  0 <= x < 256 -> 0 <= i ->
  Z.testbit (a * 256 + x) i = if i <? 8 then Z.testbit x i else Z.testbit a (i - 8).
Proof.
  intros Hx Hi. destruct (Z.ltb_spec i 8) as [Hlt|Hge].
  - rewrite <- (Z.mod_pow2_bits_low (a * 256 + x) 8 i) by lia.
    f_equal. change (2 ^ 8) with 256. Z.div_mod_to_equations. lia.
  - replace i with (i - 8 + 8) at 1 by lia.
    rewrite <- Z.div_pow2_bits by lia. f_equal.
    change (2 ^ 8) with 256. Z.div_mod_to_equations. lia.
Qed.

Lemma land_byte_cons a b x y :
  0 <= x < 256 -> 0 <= y < 256 ->
  Z.land (a * 256 + x) (b * 256 + y) = Z.land a b * 256 + Z.land x y.
Proof.
  intros Hx Hy. apply Z.bits_inj'. intros i Hi.
  assert (0 <= Z.land x y < 256) as Hxy.
  { pose proof (land_le_l x y ltac:(lia) ltac:(lia)). lia. }
  rewrite Z.land_spec, !testbit_byte_cons by done.
  destruct (i <? 8); by rewrite Z.land_spec.
Qed.

Lemma be_decode_land xs ms :
  length xs = length ms -> is_bytes xs -> is_bytes ms ->
  be_decode (zip_with Z.land xs ms) = Z.land (be_decode xs) (be_decode ms).
Proof.
  revert ms. induction xs as [|x xs IH] using rev_ind; intros ms Hl Hx Hm.
  - destruct ms; [done|]. done.
  - destruct ms as [|m ms _] using rev_ind.
    { rewrite length_app in Hl. cbn in Hl. lia. }
    rewrite !length_app in Hl. cbn in Hl.
    apply Forall_app in Hx as [Hx [Hx0 _]%Forall_cons].
    apply Forall_app in Hm as [Hm [Hm0 _]%Forall_cons].
    rewrite zip_with_app by lia. cbn [zip_with].
    rewrite !be_decode_snoc, IH by (done || lia).
    by rewrite land_byte_cons.
Qed.

Lemma zip_land_bytes xs ms : is_bytes xs -> is_bytes ms -> is_bytes (zip_with Z.land xs ms).
Proof.
  intros Hx. revert ms. induction Hx as [|x xs Hx0 Hx IH]; intros ms Hm; [constructor|].
  destruct Hm as [|m ms Hm0 Hm]; [constructor|]. cbn. constructor; [|by apply IH].
  pose proof (land_le_l x m ltac:(lia) ltac:(lia)). lia.
Qed.

Lemma be_decode_inj xs ys :
  length xs = length ys -> is_bytes xs -> is_bytes ys ->
  be_decode xs = be_decode ys -> xs = ys.
Proof.
  intros Hl Hx Hy Heq.
  rewrite <- (be_encode_decode xs Hx), <- (be_encode_decode ys Hy). by rewrite Hl, Heq.
Qed.

(** ** The loop of [Contains] *)

Lemma contains_from_spec nn m ip i k :
  contains_from nn m ip i k = true
  <-> (forall j, (i <= j < i + k)%nat ->
         Z.land (nth j nn 0) (nth j m 0) = Z.land (nth j ip 0) (nth j m 0)).
Proof.
  revert i. induction k as [|k IH]; intros i; cbn [contains_from].
  - split; [intros _ j Hj; lia|done].
  - destruct (Z.eqb_spec (Z.land (nth i nn 0) (nth i m 0)) (Z.land (nth i ip 0) (nth i m 0)))
      as [He|Hne]; cbn [negb].
    + rewrite IH. split.
      * intros Hall j Hj. destruct (decide (j = i)) as [->|]; [done|]. apply Hall. lia.
      * intros Hall j Hj. apply Hall. lia.
    + split; [done|]. intros Hall. destruct Hne. apply Hall. lia.
Qed.

Lemma zip_land_eq xs ys ms :
  length xs = length ms -> length ys = length ms ->
  zip_with Z.land xs ms = zip_with Z.land ys ms
  <-> (forall j, (j < length ms)%nat ->
         Z.land (nth j xs 0) (nth j ms 0) = Z.land (nth j ys 0) (nth j ms 0)).
Proof.
  revert xs ys. induction ms as [|m ms IH]; intros xs ys Hx Hy.
  - destruct xs, ys; done.
  - destruct xs as [|x xs], ys as [|y ys]; try done. cbn in Hx, Hy. cbn [zip_with].
    split.
    + intros [= H0 Hr] j Hj. destruct j as [|j]; [done|]. cbn.
      apply (proj1 (IH xs ys ltac:(lia) ltac:(lia)) Hr). cbn in Hj. lia.
    + intros Hall. f_equal.
      * apply (Hall 0%nat). cbn. lia.
      * apply IH; [lia|lia|]. intros j Hj. apply (Hall (S j)). cbn. lia.
Qed.

(** [Contains] on networks and addresses of one length: the address
    and the network address agree under the mask, as numbers. *)
Lemma contains_number nn m ip :
  length nn = length m -> length ip = length m ->
  is_bytes nn -> is_bytes m -> is_bytes ip ->
  contains_from nn m ip 0 (length ip) = true
  <-> Z.land (be_decode ip) (be_decode m) = Z.land (be_decode nn) (be_decode m).
Proof.
  intros Hn Hi Bn Bm Bi. rewrite contains_from_spec.
  rewrite <- !be_decode_land by done. split.
  - intros Hall. f_equal. symmetry. apply zip_land_eq; [done|done|].
    intros j Hj. apply Hall. lia.
  - intros Heq j Hj.
    apply be_decode_inj in Heq.
    + symmetry. revert j Hj. rewrite Hi, Nat.add_0_l.
      intros j Hj. apply (proj1 (zip_land_eq ip nn m Hi Hn) Heq). lia.
    + rewrite !length_zip_with. lia.
    + by apply zip_land_bytes.
    + by apply zip_land_bytes.
Qed.

Lemma CIDRMask4_number p :
  0 <= p <= 32 ->
  be_decode (CIDRMask p 32) = 2 ^ 32 - 2 ^ (32 - p)
  /\ length (CIDRMask p 32) = 4%nat /\ is_bytes (CIDRMask p 32).
Proof.
  intros Hp.
  pose proof (mask4_bytes (TypedNet 0 p) Hp) as Hmb. cbn [prefix] in Hmb.
  rewrite <- Hmb.
  split; [|split; [apply be_encode_length|apply be_encode_bytes]].
  rewrite ip4Net_mask_eq by done. cbn [prefix].
  apply be_decode_encode_id. change (256 ^ Z.of_nat 4) with (2 ^ 32).
  assert (0 < 2 ^ (32 - p) <= 2 ^ 32); [|lia].
  split; [apply Z.pow_pos_nonneg; lia|apply Z.pow_le_mono_r; lia].
Qed.

(** [Contains] for an IPv4 network in canonical form. *)
Lemma Contains_plain4 n p ip :
  length (IP n) = 4%nat -> is_bytes (IP n) -> 0 <= p <= 32 -> Mask n = CIDRMask p 32 ->
  is_bytes ip ->
  Contains n ip = true
  <-> exists y, To4 ip = Some y
                /\ Z.land (be_decode y) (2 ^ 32 - 2 ^ (32 - p))
                   = Z.land (be_decode (IP n)) (2 ^ 32 - 2 ^ (32 - p)).
Proof.
  intros Hl Hb Hp Hm Hip.
  destruct (CIDRMask4_number p Hp) as (Hnum & Hlen & Hbytes).
  unfold Contains, networkNumberAndMask.
  assert (To4 (IP n) = Some (IP n)) as ->.
  { unfold To4. by rewrite decide_True. }
  rewrite bool_decide_eq_false_2 by done. cbn [andb].
  rewrite Hm, (bool_decide_eq_true_2 _ Hlen), (bool_decide_eq_true_2 _ Hl). cbn [negb].
  destruct (To4 ip) as [y|] eqn:Hy.
  - assert (length y = 4%nat /\ is_bytes y) as [Hy4 Hyb].
    { unfold To4 in Hy. destruct (decide (length ip = 4%nat)).
      - injection Hy as <-. done.
      - destruct (bool_decide (length ip = 16%nat)) eqn:H16; [|done].
        apply bool_decide_eq_true_1 in H16.
        destruct (_ && _ && _) in Hy; [|done]. injection Hy as <-.
        split; [rewrite length_drop; lia|by apply Forall_drop]. }
    rewrite Hy4, Hl, (bool_decide_eq_true_2 (4%nat = 4%nat)) by done. cbn [negb].
    rewrite <- Hy4, contains_number, Hnum by (done || lia).
    split; [intros He; by exists y|by intros (y' & [= <-] & He)].
  - assert (length ip <> 4%nat) as Hne.
    { unfold To4 in Hy. by destruct (decide (length ip = 4%nat)). }
    rewrite Hl, bool_decide_eq_false_2 by done. cbn [negb].
    split; [done|by intros (y & Hy' & _)].
Qed.

(** ** Coverage *)

Lemma collapse_of_sub {A} (f : family A) ro nets out :
  range_ok ro -> collapse_of f ro nets = Ok out ->
  match f in family T return list (typedNet T) -> list (typedNet T) -> Prop with
  | IPv4 => fun nets out => forall o, o ∈ out -> o ∈ values (merge_all ip4Net_super (rev nets))
  | IPv6 => fun nets out => forall o, o ∈ out -> o ∈ values (merge_all ip6Net_super (rev nets))
  end nets out.
Proof.
  intros [Hr4 Hr6] Hc. destruct f; cbn [collapse_of] in Hc.
  - apply (collapse_nets_sub _ _ _ _ _ Hr4) in Hc as (merged & Hperm & Hsub).
    intros o Ho. rewrite <- Hperm. eapply sublist_subseteq; eauto.
  - apply (collapse_nets_sub _ _ _ _ _ Hr6) in Hc as (merged & Hperm & Hsub).
    intros o Ho. rewrite <- Hperm. eapply sublist_subseteq; eauto.
Qed.

Lemma Forall_rev_1 {T} (P : T -> Prop) l : Forall P l -> Forall P (rev l).
Proof.
  rewrite !Forall_forall. intros Hall x Hx%list_elem_of_In%in_rev%list_elem_of_In. auto.
Qed.

Lemma collapse_of_valid {A} (f : family A) ro nets out :
  range_ok ro -> Forall (valid_of f) nets -> collapse_of f ro nets = Ok out ->
  Forall (valid_of f) out.
Proof.
  intros Hr Hv Hc. pose proof (collapse_of_sub f ro nets out Hr Hc) as Hsub.
  apply Forall_forall. intros o Ho. destruct f.
  - apply (merge_all_good ip4Net_super valid4 (valid_super_merge IPv4) (rev nets));
      [by apply Forall_rev_1|auto].
  - apply (merge_all_good ip6Net_super valid6 (valid_super_merge IPv6) (rev nets));
      [by apply Forall_rev_1|auto].
Qed.

Lemma collapse_of_inside {A} (f : family A) ro nets out x :
  range_ok ro -> Forall (valid_of f) nets -> collapse_of f ro nets = Ok out ->
  (exists o, o ∈ out /\ inside_of f o x) -> exists n, n ∈ nets /\ inside_of f n x.
Proof.
  intros Hr Hv Hc (o & Ho & Hi).
  pose proof (collapse_of_sub f ro nets out Hr Hc) as Hsub.
  destruct f.
  - destruct (proj1 (merge_all_cover ip4Net_super valid4 (inside_of IPv4)
                       (valid_super_merge IPv4)
                       (fun n m x => inside_super IPv4 n m x) (rev nets) x
                       (Forall_rev_1 _ _ Hv))) as (n & Hn & Hin); [by eauto|].
    exists n. split; [|done]. by apply list_elem_of_In, in_rev, list_elem_of_In.
  - destruct (proj1 (merge_all_cover ip6Net_super valid6 (inside_of IPv6)
                       (valid_super_merge IPv6)
                       (fun n m x => inside_super IPv6 n m x) (rev nets) x
                       (Forall_rev_1 _ _ Hv))) as (n & Hn & Hin); [by eauto|].
    exists n. split; [|done]. by apply list_elem_of_In, in_rev, list_elem_of_In.
Qed.

(** X5. The loop of [collapse4] / [collapse6] keeps the covered set:
    on networks whose prefix length is within the width (host bits
    allowed), an address agrees under the mask with one of the networks
    left in [supers] when the loop ends exactly when it does so with one
    of the networks the loop started from. *)
Theorem merge_keeps_cover `{Countable A} (f : family A) (nets : list (typedNet A)) (x : A) :
  Forall (valid_of f) nets ->
  (exists v, v ∈ values (merge_all (super_of f) nets) /\ inside_of f v x)
  <-> (exists n, n ∈ nets /\ inside_of f n x).
Proof.
  intros Hv.
  apply (merge_all_cover (super_of f) (valid_of f) (inside_of f)
           (valid_super_merge f) (fun n m x => inside_super f n m x) nets x Hv).
Qed.

Lemma merge_keeps_cover_witness :
  (exists v, v ∈ values (merge_all (super_of IPv4)
                           [TypedNet 167772160 24; TypedNet 167772416 24])
             /\ inside_of IPv4 v 167772600)
  <-> (exists n, n ∈ [TypedNet 167772160 24; TypedNet 167772416 24 : ip4Net]
                 /\ inside_of IPv4 n 167772600).
Proof.
  apply (merge_keeps_cover IPv4 [TypedNet 167772160 24; TypedNet 167772416 24] 167772600).
  repeat constructor; cbn; lia.
Defined.

(** X6. [Collapse] covers nothing that its input does not cover: for
    IPv4 networks in canonical form (host bits allowed), every address
    that [Contains] finds in a returned network is found in one of the
    given networks, in every run. *)
Theorem Collapse_adds_nothing ro toMerge out ip :
  range_ok ro -> Forall plain4 toMerge -> is_bytes ip ->
  Collapse ro toMerge = Ok out ->
  (exists o, o ∈ out /\ Contains o ip = true) ->
  exists n, n ∈ toMerge /\ Contains n ip = true.
Proof.
  intros Hr Hpl Hip Hc (o & Ho & Hin).
  destruct (decide (toMerge = [])) as [->|Hne].
  { injection Hc as <-. by apply elem_of_nil in Ho. }
  rewrite Collapse_all4 in Hc; [|done|].
  2:{ eapply Forall_impl; [exact Hpl|]. apply plain4_is4. }
  unfold collapse4 in Hc.
  destruct (collapse4_nets ro (newIP4Net <$> toMerge)) as [ms|] eqn:Hms; [|done].
  injection Hc as <-.
  assert (Forall valid4 (newIP4Net <$> toMerge)) as Hval.
  { apply Forall_fmap. eapply Forall_impl; [exact Hpl|].
    intros n (Hl & Hb & p & Hp & Hm). cbn.
    destruct (plain4_new n p Hl Hb Hp Hm) as [-> Hr']. by split. }
  pose proof (collapse_of_valid IPv4 ro _ _ Hr Hval Hms) as Hvms.
  apply list_elem_of_fmap in Ho as (m & -> & Hm).
  rewrite Forall_forall in Hvms. destruct (Hvms m Hm) as [Ha Hp].
  rewrite net4_asNet in Hin by done.
  apply (Contains_plain4 _ (prefix m)) in Hin as (y & Hy & Hi);
    [|apply be_encode_length|apply be_encode_bytes|done|done|done].
  cbn [net4 IP] in Hi.
  rewrite be_decode_encode_id in Hi by (change (256 ^ Z.of_nat 4) with (2 ^ 32); lia).
  destruct (collapse_of_inside IPv4 ro _ _ (be_decode y) Hr Hval Hms) as (n' & Hn' & Hi').
  { exists m. split; [done|]. unfold inside_of. cbn [and_of mask_of].
    by rewrite ip4Net_mask_eq. }
  apply list_elem_of_fmap in Hn' as (n & -> & Hn).
  exists n. split; [done|].
  rewrite Forall_forall in Hpl. destruct (Hpl n Hn) as (Hl & Hb & p & Hp' & Hmk).
  apply (Contains_plain4 n p); try done.
  exists y. split; [done|].
  destruct (plain4_new n p Hl Hb Hp' Hmk) as [Hnew _]. rewrite Hnew in Hi'.
  unfold inside_of in Hi'. cbn [and_of mask_of addr] in Hi'.
  by rewrite ip4Net_mask_eq in Hi' by done.
Qed.

Lemma Collapse_adds_nothing_witness :
  exists n, n ∈ [cidr4 10 0 0 0 24; cidr4 10 0 1 0 24]
            /\ Contains n [10; 0; 1; 77] = true.
Proof.
  apply (Collapse_adds_nothing range_id [cidr4 10 0 0 0 24; cidr4 10 0 1 0 24]
           [cidr4 10 0 0 0 23] [10; 0; 1; 77]).
  - apply range_id_ok.
  - repeat constructor; try (cbn; lia); by exists 24.
  - repeat constructor; lia.
  - vm_compute. reflexivity.
  - exists (cidr4 10 0 0 0 23). split; [apply elem_of_cons; by left|].
    vm_compute. reflexivity.
Defined.

Section engine_origin.
Context {A : Type} `{Countable A}.
Abbreviation N := (typedNet A).
Variable super : N -> N.
Variable ok : N -> Prop.
Variable rel : N -> N -> Prop.
Hypothesis ok_super :
  forall n m, ok n -> ok m -> n <> m -> super n = super m -> ok (super n).
Hypothesis rel_super :
  forall n m n0, ok n -> ok m -> n <> m -> super n = super m ->
    rel n n0 -> rel (super n) n0.

Abbreviation from_input := (origin_at super ok rel).

Lemma merge_step_origin nets0 n rest supers nets' supers' :
  from_input nets0 (n :: rest) supers ->
  merge_step super n rest supers = (nets', supers') ->
  from_input nets0 nets' supers'.
Proof.
  intros [Hg Ho] Hst. split; [by eapply merge_step_good|].
  destruct Hg as (Hst_ok & Hk & Hm_ok). apply Forall_cons in Hst_ok as [Hn Hrest].
  revert Hst. unfold merge_step.
  destruct (supers !! super n) as [other|] eqn:Hs.
  - destruct (decide (other = n)) as [->|Hne]; intros [= <- <-].
    + intros e [He|He]; apply Ho; [left; apply elem_of_cons; by right|by right].
    + assert (ok other) as Hoth by (eapply Hm_ok; eauto).
      assert (super other = super n) as Hsup by eauto.
      intros e [[->|He]%elem_of_cons|He].
      * destruct (Ho n) as (n0 & Hn0 & Hr); [left; apply elem_of_cons; by left|].
        exists n0. split; [done|]. by apply (rel_super n other).
      * apply Ho. left. apply elem_of_cons. by right.
      * apply Ho. right. apply elem_of_values in He as [k [_ Hl]%lookup_delete_Some].
        apply elem_of_values. eauto.
  - intros [= <- <-] e [He|He].
    + apply Ho. left. apply elem_of_cons. by right.
    + apply elem_of_values in He as [k [[_ <-]|[_ Hl]]%lookup_insert_Some].
      * apply Ho. left. apply elem_of_cons. by left.
      * apply Ho. right. apply elem_of_values. eauto.
Qed.

(** What the loop leaves in the map comes from the stack it started
    from. *)
Lemma merge_all_origin nets v :
  Forall ok nets -> (forall n, n ∈ nets -> rel n n) ->
  v ∈ values (merge_all super nets) -> exists n, n ∈ nets /\ rel v n.
Proof.
  intros Hok Hrefl Hv. unfold merge_all in Hv.
  assert (from_input nets nets (∅ : gmap N N)) as H0.
  { split.
    - split; [done|]. split; [intros k x; by rewrite lookup_empty|apply map_Forall_empty].
    - intros e [He|He]; [by eauto|].
      apply elem_of_values in He as [k Hl]. by rewrite lookup_empty in Hl. }
  destruct (merge_loop_inv super (from_input nets) (merge_step_origin nets)
              (merge_fuel nets ∅) nets ∅ H0) as [_ Ho].
  apply Ho. by right.
Qed.
End engine_origin.

Lemma above_super {A} (f : family A) (n m n0 : typedNet A) :
  valid_of f n -> valid_of f m -> n <> m -> super_of f n = super_of f m ->
  above_of f n n0 -> above_of f (super_of f n) n0.
Proof.
  intros Hn Hm Hne Heq [Hp Hi].
  destruct (merged_prefix f n m Hn Hm Hne Heq) as [Hp1 _].
  split.
  - assert (prefix (super_of f n) = prefix n - 1) as ->; [|lia].
    destruct f; cbn [super_of valid_of] in *.
    + rewrite ip4Net_super_eq by (unfold valid4 in *; lia). done.
    + rewrite ip6Net_super_eq by done. done.
  - apply (inside_super f n m); auto.
Qed.

Lemma above_refl {A} (f : family A) (n : typedNet A) : above_of f n n.
Proof. split; [lia|done]. Qed.

Lemma collapse_of_above {A} (f : family A) ro nets out o :
  range_ok ro -> Forall (valid_of f) nets -> collapse_of f ro nets = Ok out ->
  o ∈ out -> exists n, n ∈ nets /\ above_of f o n.
Proof.
  intros Hr Hv Hc Ho.
  pose proof (collapse_of_sub f ro nets out Hr Hc) as Hsub.
  destruct f.
  - destruct (merge_all_origin ip4Net_super valid4 (above_of IPv4)
                (valid_super_merge IPv4) (above_super IPv4) (rev nets) o
                (Forall_rev_1 _ _ Hv) (fun n _ => above_refl IPv4 n) (Hsub o Ho))
      as (n & Hn & Ha).
    exists n. split; [|done]. by apply list_elem_of_In, in_rev, list_elem_of_In.
  - destruct (merge_all_origin ip6Net_super valid6 (above_of IPv6)
                (valid_super_merge IPv6) (above_super IPv6) (rev nets) o
                (Forall_rev_1 _ _ Hv) (fun n _ => above_refl IPv6 n) (Hsub o Ho))
      as (n & Hn & Ha).
    exists n. split; [|done]. by apply list_elem_of_In, in_rev, list_elem_of_In.
Qed.

(** X7. Every network that [Collapse] returns is one of the given
    networks or a supernet of one: for IPv4 networks in canonical form
    (host bits allowed) and every returned network [o] there is a given
    network [n] with [IsSubnet(o, n)], in every run. *)
Theorem Collapse_result_above ro toMerge out o :
  range_ok ro -> Forall plain4 toMerge ->
  Collapse ro toMerge = Ok out -> o ∈ out ->
  exists n, n ∈ toMerge /\ IsSubnet o n = true.
Proof.
  intros Hr Hpl Hc Ho.
  destruct (decide (toMerge = [])) as [->|Hne].
  { injection Hc as <-. by apply elem_of_nil in Ho. }
  rewrite Collapse_all4 in Hc; [|done|].
  2:{ eapply Forall_impl; [exact Hpl|]. apply plain4_is4. }
  unfold collapse4 in Hc.
  destruct (collapse4_nets ro (newIP4Net <$> toMerge)) as [ms|] eqn:Hms; [|done].
  injection Hc as <-.
  assert (Forall valid4 (newIP4Net <$> toMerge)) as Hval.
  { apply Forall_fmap. eapply Forall_impl; [exact Hpl|].
    intros n (Hl & Hb & p & Hp & Hm). cbn.
    destruct (plain4_new n p Hl Hb Hp Hm) as [-> Hr']. by split. }
  pose proof (collapse_of_valid IPv4 ro _ _ Hr Hval Hms) as Hvms.
  apply list_elem_of_fmap in Ho as (m & -> & Hm).
  rewrite Forall_forall in Hvms. destruct (Hvms m Hm) as [Ha Hp].
  destruct (collapse_of_above IPv4 ro _ _ m Hr Hval Hms Hm) as (n' & Hn' & Hle & Hin).
  apply list_elem_of_fmap in Hn' as (n & -> & Hn).
  exists n. split; [done|].
  rewrite Forall_forall in Hpl. destruct (Hpl n Hn) as (Hl & Hb & p & Hp' & Hmk).
  destruct (plain4_new n p Hl Hb Hp' Hmk) as [Hnew Hrn]. rewrite Hnew in Hle, Hin.
  cbn [prefix addr] in Hle, Hin.
  rewrite net4_asNet by done. unfold IsSubnet. apply andb_true_intro. split.
  - apply (Contains_plain4 _ (prefix m));
      [apply be_encode_length|apply be_encode_bytes|done|done|done|].
    exists (IP n). split; [unfold To4; by rewrite decide_True|].
    cbn [net4 IP].
    rewrite be_decode_encode_id by (change (256 ^ Z.of_nat 4) with (2 ^ 32); lia).
    unfold inside_of in Hin. cbn [and_of mask_of] in Hin.
    by rewrite ip4Net_mask_eq in Hin by done.
  - unfold maskPrefix. cbn [net4 Mask]. rewrite Size_CIDRMask4, Hmk, Size_CIDRMask4 by done.
    apply andb_true_intro. split; [done|by apply Z.leb_le].
Qed.

Lemma Collapse_result_above_witness :
  exists n, n ∈ [cidr4 10 0 0 0 24; cidr4 10 0 1 0 24] /\ IsSubnet (cidr4 10 0 0 0 23) n = true.
Proof.
  apply (Collapse_result_above range_id [cidr4 10 0 0 0 24; cidr4 10 0 1 0 24]
           [cidr4 10 0 0 0 23] (cidr4 10 0 0 0 23)).
  - apply range_id_ok.
  - repeat constructor; try (cbn; lia); by exists 24.
  - vm_compute. reflexivity.
  - apply elem_of_cons. by left.
Defined.

(** ** The shape of the result *)

Lemma be_decode_app l1 l2 :
  be_decode (l1 ++ l2) = be_decode l1 * 256 ^ Z.of_nat (length l2) + be_decode l2.
Proof.
  induction l2 as [|b l2 IH] using rev_ind.
  - rewrite app_nil_r. cbn. lia.
  - rewrite app_assoc, !be_decode_snoc, IH, length_app, Nat.add_1_r, Nat2Z.inj_succ,
      Z.pow_succ_r by lia. lia.
Qed.

Lemma ip_number_asNet4 n : valid4 n -> ip_number (ip4Net_asNet n) = addr n.
Proof.
  intros [Ha _]. unfold ip_number, ip4Net_asNet. cbn [IP]. rewrite from32_make4.
  apply be_decode_encode_id. change (256 ^ Z.of_nat 4) with (2 ^ 32). lia.
Qed.

Lemma ip_number_asNet6 n : valid6 n -> ip_number (ip6Net_asNet n) = u128_Z (addr n).
Proof.
  intros [[Hh Hl] _]. unfold ip_number, ip6Net_asNet. cbn [IP].
  rewrite from128_make16, be_decode_app, be_encode_length.
  rewrite !be_decode_encode_id by (change (256 ^ Z.of_nat 8) with (2 ^ 64); lia).
  reflexivity.
Qed.

Lemma plain4_asNet4 n : valid4 n -> plain4 (ip4Net_asNet n).
Proof.
  intros [Ha Hp]. rewrite net4_asNet by done. unfold net4. split; [apply be_encode_length|].
  split; [apply be_encode_bytes|]. by exists (prefix n).
Qed.

Lemma plain6_asNet6 n : good6 n -> plain6 (ip6Net_asNet n).
Proof.
  intros ([Hv Hp] & _ & Hun). unfold plain6, ip6Net_asNet. cbn [IP Mask].
  split; [by rewrite from128_make16, length_app, !be_encode_length|].
  split.
  { rewrite from128_make16. apply Forall_app. split; apply be_encode_bytes. }
  split; [by apply To4_from128|].
  exists (prefix n). split; [done|]. by apply mask6_bytes.
Qed.

Lemma StronglySorted_fmap_lt {T} (g : T -> IPNet) (val : T -> Z) (ms : list T) :
  (forall m, m ∈ ms -> ip_number (g m) = val m) ->
  StronglySorted (fun x y => val x < val y) ms ->
  StronglySorted (fun x y => ip_number x < ip_number y) (g <$> ms).
Proof.
  intros Hval Hs. induction Hs as [|m ms Hs IH Hall]; cbn; [constructor|].
  constructor.
  - apply IH. intros z Hz. apply Hval. apply elem_of_cons. by right.
  - apply Forall_fmap, Forall_forall. intros z Hz. cbn.
    rewrite !Hval by (apply elem_of_cons; auto).
    rewrite Forall_forall in Hall. by apply Hall.
Qed.

Lemma Collapse_well_formed ro toMerge out :
  range_ok ro -> well_formed toMerge -> Collapse ro toMerge = Ok out ->
  toMerge <> [] ->
  (exists ms, out = ip4Net_asNet <$> ms /\ Forall good4 ms
              /\ StronglySorted (lt_by addr) ms)
  \/ (exists ms, out = ip6Net_asNet <$> ms /\ Forall good6 ms
                 /\ StronglySorted (lt_by (fun n => u128_Z (addr n))) ms).
Proof.
  intros [Hr4 Hr6] [Hwf|Hwf] Hc Hne.
  - left. rewrite Collapse_all4 in Hc;
      [|done|by eapply Forall_impl; [exact Hwf|]; intros ? []].
    unfold collapse4 in Hc.
    destruct (collapse4_nets ro (newIP4Net <$> toMerge)) as [ms|] eqn:Hms; [|done].
    injection Hc as <-. exists ms. split; [done|].
    apply (collapse_nets_strict ip4Net_super ip4Net_mask Z.land ip4Nets_Less good4 addr)
      with (rho := range4 ro) (nets := newIP4Net <$> toMerge); try done.
    + by intros n [_ Hm].
    + apply good4_super.
    + apply Forall_fmap. eapply Forall_impl; [exact Hwf|]. by intros ? [].
  - right. rewrite Collapse_all6 in Hc;
      [|done|by eapply Forall_impl; [exact Hwf|]; intros ? []].
    unfold collapse6 in Hc.
    destruct (collapse6_nets ro (newIP6Net <$> toMerge)) as [ms|] eqn:Hms; [|done].
    injection Hc as <-. exists ms. split; [done|].
    apply (collapse_nets_strict ip6Net_super ip6Net_mask u128_And ip6Nets_Less good6
             (fun n => u128_Z (addr n)))
      with (rho := range6 ro) (nets := newIP6Net <$> toMerge); try done.
    + intros x y [[Hx _] _] [[Hy _] _]. by apply u128_Cmp_lt.
    + intros x y [[Hx _] _] [[Hy _] _]. by apply u128_Z_inj.
    + by intros n (_ & Hm & _).
    + apply good6_super.
    + apply Forall_fmap. eapply Forall_impl; [exact Hwf|]. by intros ? [].
Qed.

(** X8. [Collapse] stays within well-formed networks: on a homogeneous
    list of well-formed networks (prefix length within the width, no host
    bit set) every returned network is well-formed again and is in
    canonical form, with a mask of the width of its family. *)
Theorem Collapse_closed ro toMerge out :
  range_ok ro -> well_formed toMerge -> Collapse ro toMerge = Ok out ->
  well_formed out /\ Forall plain out.
Proof.
  intros Hr Hwf Hc.
  destruct (decide (toMerge = [])) as [->|Hne].
  { injection Hc as <-. split; [by left|constructor]. }
  destruct (Collapse_well_formed ro toMerge out Hr Hwf Hc Hne)
    as [(ms & -> & Hg & _)|(ms & -> & Hg & _)].
  - split.
    + left. apply Forall_fmap. eapply Forall_impl; [exact Hg|].
      intros m [Hv Hm]. split; [apply is4_asNet4|]. cbn. by rewrite newIP4Net_asNet.
    + apply Forall_fmap. eapply Forall_impl; [exact Hg|].
      intros m [Hv Hm]. left. by apply plain4_asNet4.
  - split.
    + right. apply Forall_fmap. eapply Forall_impl; [exact Hg|].
      intros m (Hv & Hm & Hun). split; [by apply is4_asNet6|]. cbn.
      by rewrite newIP6Net_asNet.
    + apply Forall_fmap. eapply Forall_impl; [exact Hg|].
      intros m Hm. right. by apply plain6_asNet6.
Qed.

Lemma Collapse_closed_witness :
  well_formed [cidr4 10 0 0 0 23; cidr4 10 0 2 0 24]
  /\ Forall plain [cidr4 10 0 0 0 23; cidr4 10 0 2 0 24].
Proof.
  apply (Collapse_closed range_id
           [cidr4 10 0 0 0 24; cidr4 10 0 2 0 24; cidr4 10 0 1 0 24]).
  - apply range_id_ok.
  - left. repeat (apply Forall_cons; split; [|try apply Forall_nil]);
      vm_compute; intuition congruence.
  - vm_compute. reflexivity.
Defined.

(** X9. The result of [Collapse] ascends strictly: on a homogeneous
    list of well-formed networks the addresses of the returned networks,
    read as big-endian numbers, increase strictly along the list; no two
    returned networks have the same address. *)
Theorem Collapse_ascending ro toMerge out :
  range_ok ro -> well_formed toMerge -> Collapse ro toMerge = Ok out ->
  StronglySorted (fun x y => ip_number x < ip_number y) out.
Proof.
  intros Hr Hwf Hc.
  destruct (decide (toMerge = [])) as [->|Hne].
  { injection Hc as <-. constructor. }
  destruct (Collapse_well_formed ro toMerge out Hr Hwf Hc Hne)
    as [(ms & -> & Hg & Hs)|(ms & -> & Hg & Hs)].
  - apply (StronglySorted_fmap_lt ip4Net_asNet addr); [|exact Hs].
    intros m Hm. rewrite Forall_forall in Hg. destruct (Hg m Hm) as [Hv _].
    by apply ip_number_asNet4.
  - apply (StronglySorted_fmap_lt ip6Net_asNet (fun n => u128_Z (addr n))); [|exact Hs].
    intros m Hm. rewrite Forall_forall in Hg. destruct (Hg m Hm) as [Hv _].
    by apply ip_number_asNet6.
Qed.

Lemma Collapse_ascending_witness :
  StronglySorted (fun x y => ip_number x < ip_number y)
    [cidr4 10 0 0 0 23; cidr4 10 0 2 0 24].
Proof.
  apply (Collapse_ascending range_id
           [cidr4 10 0 2 0 24; cidr4 10 0 0 0 24; cidr4 10 0 1 0 24]).
  - apply range_id_ok.
  - left. repeat (apply Forall_cons; split; [|try apply Forall_nil]);
      vm_compute; intuition congruence.
  - vm_compute. reflexivity.
Defined.

Lemma StronglySorted_sublist {T} (R : T -> T -> Prop) l l' :
  l' `sublist_of` l -> StronglySorted R l -> StronglySorted R l'.
Proof.
  intros Hsub Hs. revert l' Hsub. induction Hs as [|x l Hs IH Hall]; intros l' Hsub.
  - apply sublist_nil_r in Hsub as ->. constructor.
  - apply sublist_cons_r in Hsub as [Hsub|(k & -> & Hsub)]; [by apply IH|].
    constructor; [by apply IH|].
    apply Forall_forall. intros z Hz. rewrite Forall_forall in Hall. apply Hall.
    eapply sublist_subseteq; eauto.
Qed.

(** X10. The result of [Collapse] on IPv4 is in ascending order of
    address whatever the host bits: for a list of IPv4 networks in
    canonical form the addresses of the returned networks, read as
    big-endian numbers, never decrease along the list, in every run. *)
Theorem Collapse_sorted_ipv4 ro toMerge out :
  range_ok ro -> Forall plain4 toMerge -> Collapse ro toMerge = Ok out ->
  StronglySorted (fun x y => ip_number x <= ip_number y) out.
Proof.
  intros Hr Hpl Hc.
  destruct (decide (toMerge = [])) as [->|Hne].
  { injection Hc as <-. constructor. }
  rewrite Collapse_all4 in Hc; [|done|].
  2:{ eapply Forall_impl; [exact Hpl|]. apply plain4_is4. }
  unfold collapse4 in Hc.
  destruct (collapse4_nets ro (newIP4Net <$> toMerge)) as [ms|] eqn:Hms; [|done].
  injection Hc as <-.
  assert (Forall valid4 (newIP4Net <$> toMerge)) as Hval.
  { apply Forall_fmap. eapply Forall_impl; [exact Hpl|].
    intros n (Hl & Hb & p & Hp & Hm). cbn.
    destruct (plain4_new n p Hl Hb Hp Hm) as [-> Hr']. by split. }
  pose proof (collapse_of_valid IPv4 ro _ _ Hr Hval Hms) as Hvms.
  assert (StronglySorted (le_by addr) ms) as Hs.
  { unfold collapse4_nets, collapse_nets in Hms.
    apply coalesce_sublist in Hms.
    apply (StronglySorted_sublist _ _ _ Hms).
    apply (sort_nets_sorted ip4Nets_Less (fun _ => True) addr); [done|].
    by apply Forall_forall. }
  clear Hms. induction Hs as [|m ms Hs IH Hall]; cbn; [constructor|].
  apply Forall_cons in Hvms as [Hm Hvms].
  constructor; [by apply IH|].
  apply Forall_forall. intros z' (z & -> & Hz)%list_elem_of_fmap.
  rewrite Forall_forall in Hall, Hvms.
  rewrite (ip_number_asNet4 m Hm), (ip_number_asNet4 z (Hvms z Hz)). by apply Hall.
Qed.

Lemma Collapse_sorted_ipv4_witness :
  StronglySorted (fun x y => ip_number x <= ip_number y)
    [cidr4 10 0 0 9 24; cidr4 10 0 2 7 24].
Proof.
  apply (Collapse_sorted_ipv4 range_id [cidr4 10 0 2 7 24; cidr4 10 0 0 9 24]).
  - apply range_id_ok.
  - repeat constructor; try (cbn; lia); by exists 24.
  - vm_compute. reflexivity.
Defined.

(** ** [Contains] and [IsSubnet] *)

Lemma cidr_bytes_length l p : length (cidr_bytes l p) = l.
Proof.
  revert p. induction l as [|l IH]; intros p; cbn [cidr_bytes]; [done|].
  destruct (8 <=? p); cbn; by rewrite IH.
Qed.

Lemma plain_canonical n : plain n -> exists p, canonical n p.
Proof.
  intros [(Hl & _ & p & Hp & Hm)|(Hl & _ & Hn & p & Hp & Hm)]; exists p; unfold canonical.
  - rewrite Hm, Hl, Size_CIDRMask4 by done. split; [|split; [lia|split; [done|by left]]].
    unfold CIDRMask.
    destruct (Z.ltb_spec p 0), (Z.ltb_spec 32 p); try lia. reflexivity.
  - rewrite Hm, Hl, Size_CIDRMask6 by done. split; [|split; [lia|split; [done|by right]]].
    unfold CIDRMask.
    destruct (Z.ltb_spec p 0), (Z.ltb_spec 128 p); try lia. reflexivity.
Qed.

Lemma canonical_nnm n p : canonical n p -> networkNumberAndMask n = (IP n, Mask n).
Proof.
  intros (Hm & Hp & _ & Hl). unfold networkNumberAndMask.
  assert (length (Mask n) = length (IP n)) as Hlm by (by rewrite Hm, cidr_bytes_length).
  destruct Hl as [Hl|[Hl Hn]].
  - assert (To4 (IP n) = Some (IP n)) as -> by (unfold To4; by rewrite decide_True).
    rewrite bool_decide_eq_false_2 by done. cbn [andb].
    rewrite Hlm, Hl. by rewrite !bool_decide_eq_true_2.
  - rewrite Hn, Hlm, Hl. rewrite (bool_decide_eq_true_2 (None = None)) by done.
    rewrite (bool_decide_eq_true_2 (16%nat = 16%nat)) by done. cbn [negb andb].
    rewrite (bool_decide_eq_false_2 (16%nat = 4%nat)) by done. done.
Qed.

(** [Contains] on a network in canonical form: the address has the
    length of the network address and agrees with it under the mask,
    byte by byte. *)
Lemma Contains_canonical n p ip :
  canonical n p ->
  Contains n ip = true
  <-> length (as4 ip) = length (IP n)
      /\ forall j, (j < length (IP n))%nat ->
           Z.land (nth j (IP n) 0) (nth j (Mask n) 0)
           = Z.land (nth j (as4 ip) 0) (nth j (Mask n) 0).
Proof.
  intros Hc. unfold Contains. rewrite (canonical_nnm n p Hc). fold (as4 ip).
  destruct (decide (length (as4 ip) = length (IP n))) as [He|Hne].
  - rewrite bool_decide_eq_true_2 by done. cbn [negb]. rewrite contains_from_spec.
    rewrite He. split.
    + intros Hall. split; [done|]. intros j Hj. apply Hall. lia.
    + intros [_ Hall] j Hj. apply Hall. lia.
  - rewrite bool_decide_eq_false_2 by done. cbn [negb]. split; [done|by intros []].
Qed.

Lemma as4_own n p : canonical n p -> as4 (IP n) = IP n.
Proof.
  intros (_ & _ & _ & [Hl|[_ Hn]]); unfold as4, To4.
  - by rewrite decide_True.
  - unfold To4 in Hn. by rewrite Hn.
Qed.

(** The mask of a shorter prefix length is within the mask of a longer
    one, byte by byte. *)
Lemma cidr_byte_sub p q :
  0 <= p <= q -> q < 8 ->
  Z.land (u8 (Z.lnot (Z.shiftr 255 p))) (u8 (Z.lnot (Z.shiftr 255 q)))
  = u8 (Z.lnot (Z.shiftr 255 p)).
Proof.
  intros Hp Hq.
  assert (p = 0 \/ p = 1 \/ p = 2 \/ p = 3 \/ p = 4 \/ p = 5 \/ p = 6 \/ p = 7) as Hp' by lia.
  assert (q = 0 \/ q = 1 \/ q = 2 \/ q = 3 \/ q = 4 \/ q = 5 \/ q = 6 \/ q = 7) as Hq' by lia.
  destruct Hp' as [->|[->|[->|[->|[->|[->|[->| ->]]]]]]];
    destruct Hq' as [->|[->|[->|[->|[->|[->|[->| ->]]]]]]]; try lia; reflexivity.
Qed.

Lemma cidr_byte_range p : 0 <= u8 (Z.lnot (Z.shiftr 255 p)) < 256.
Proof. unfold u8. apply Z.mod_pos_bound. lia. Qed.

Lemma cidr_bytes_zero l j : nth j (cidr_bytes l 0) 0 = 0.
Proof.
  revert j. induction l as [|l IH]; intros j; cbn [cidr_bytes]; [by destruct j|].
  replace (8 <=? 0) with false by reflexivity. destruct j as [|j]; [reflexivity|apply IH].
Qed.

Lemma cidr_bytes_sub l p q j :
  0 <= p <= q ->
  Z.land (nth j (cidr_bytes l p) 0) (nth j (cidr_bytes l q) 0) = nth j (cidr_bytes l p) 0.
Proof.
  revert p q j. induction l as [|l IH]; intros p q j Hpq; cbn [cidr_bytes].
  - destruct j; reflexivity.
  - destruct (Z.leb_spec 8 p) as [Hp|Hp], (Z.leb_spec 8 q) as [Hq|Hq]; try lia.
    + destruct j as [|j]; [reflexivity|]. cbn [nth]. apply IH. lia.
    + destruct j as [|j]; cbn [nth].
      * pose proof (cidr_byte_range p) as Hr.
        change 255 with (Z.ones 8) at 2. rewrite Z.land_ones by lia.
        apply Z.mod_small. change (2 ^ 8) with 256. lia.
      * by rewrite cidr_bytes_zero.
    + destruct j as [|j]; cbn [nth].
      * by apply cidr_byte_sub.
      * by rewrite !cidr_bytes_zero.
Qed.

Lemma land_under_sub x y ma mb :
  Z.land ma mb = ma -> Z.land x mb = Z.land y mb -> Z.land x ma = Z.land y ma.
Proof.
  intros Hs He. rewrite <- Hs, !Z.land_assoc. rewrite <- (Z.land_comm ma x), <- (Z.land_comm ma y).
  by rewrite <- !Z.land_assoc, He.
Qed.

Lemma IsSubnet_canonical a b pa pb :
  canonical a pa -> canonical b pb -> IsSubnet a b = true ->
  length (IP a) = length (IP b) /\ pa <= pb
  /\ forall j, (j < length (IP a))%nat ->
       Z.land (nth j (IP a) 0) (nth j (Mask a) 0)
       = Z.land (nth j (IP b) 0) (nth j (Mask a) 0).
Proof.
  intros Ha Hb [Hc Hm]%andb_prop.
  apply (Contains_canonical a pa _ Ha) in Hc as [Hl Hall].
  rewrite (as4_own b pb Hb) in Hl, Hall.
  unfold maskPrefix in Hm. destruct Ha as (_ & _ & Hsa & _), Hb as (_ & _ & Hsb & _).
  rewrite Hsa, Hsb in Hm. apply andb_prop in Hm as [_ Hle%Z.leb_le].
  by split; [|split].
Qed.

(** X11. A network is a subnet of itself: [IsSubnet(a, a)] holds for
    every network in canonical form, of either family and with or
    without host bits. *)
Theorem IsSubnet_reflexive a : plain a -> IsSubnet a a = true.
Proof.
  intros [p Hc]%plain_canonical. unfold IsSubnet. apply andb_true_intro. split.
  - apply (Contains_canonical a p _ Hc). rewrite (as4_own a p Hc). by split.
  - unfold maskPrefix. destruct Hc as (_ & _ & -> & _).
    apply andb_true_intro. split; [apply Z.eqb_refl|apply Z.leb_refl].
Qed.

Lemma IsSubnet_reflexive_witness : IsSubnet (cidr4 10 0 0 5 24) (cidr4 10 0 0 5 24) = true.
Proof.
  apply (IsSubnet_reflexive (cidr4 10 0 0 5 24)).
  left. split; [reflexivity|]. split; [repeat constructor; lia|].
  exists 24. split; [lia|reflexivity].
Defined.

Lemma Contains_under_subnet a b pa pb ip :
  canonical a pa -> canonical b pb -> IsSubnet a b = true ->
  Contains b ip = true -> Contains a ip = true.
Proof.
  intros Ha Hb Hs Hin.
  destruct (IsSubnet_canonical a b pa pb Ha Hb Hs) as (Hl & Hle & Hall).
  apply (Contains_canonical b pb _ Hb) in Hin as [Hlb Hinb].
  apply (Contains_canonical a pa _ Ha). split; [congruence|].
  intros j Hj. rewrite Hall by done.
  destruct Ha as (Hma & Hpa & _), Hb as (Hmb & Hpb & _).
  apply (land_under_sub _ _ _ (nth j (Mask b) 0)).
  - rewrite Hma, Hmb, Hl. apply cidr_bytes_sub. lia.
  - apply Hinb. lia.
Qed.

(** X12. What [IsSubnet] promises about addresses: if [IsSubnet(a, b)]
    holds for two networks in canonical form then every address that
    [b.Contains] accepts is accepted by [a.Contains]. *)
Theorem IsSubnet_contains a b ip :
  plain a -> plain b -> IsSubnet a b = true ->
  Contains b ip = true -> Contains a ip = true.
Proof.
  intros [pa Ha]%plain_canonical [pb Hb]%plain_canonical.
  by apply (Contains_under_subnet a b pa pb).
Qed.

Lemma IsSubnet_contains_witness :
  Contains (cidr4 10 0 0 0 16) [10; 0; 3; 77] = true.
Proof.
  apply (IsSubnet_contains (cidr4 10 0 0 0 16) (cidr4 10 0 3 0 24) [10; 0; 3; 77]).
  - left. split; [reflexivity|]. split; [repeat constructor; lia|].
    exists 16. split; [lia|reflexivity].
  - left. split; [reflexivity|]. split; [repeat constructor; lia|].
    exists 24. split; [lia|reflexivity].
  - vm_compute. reflexivity.
  - vm_compute. reflexivity.
Defined.

(** X13. [IsSubnet] is transitive on networks in canonical form. *)
Theorem IsSubnet_transitive a b c :
  plain a -> plain b -> plain c ->
  IsSubnet a b = true -> IsSubnet b c = true -> IsSubnet a c = true.
Proof.
  intros Pa Pb Pc Hab Hbc.
  destruct (plain_canonical a Pa) as [pa Ha], (plain_canonical b Pb) as [pb Hb],
    (plain_canonical c Pc) as [pc Hc].
  destruct (IsSubnet_canonical a b pa pb Ha Hb Hab) as (Hl1 & Hle1 & _).
  destruct (IsSubnet_canonical b c pb pc Hb Hc Hbc) as (Hl2 & Hle2 & _).
  unfold IsSubnet. apply andb_true_intro. split.
  - apply (Contains_under_subnet a b pa pb); try done.
    unfold IsSubnet in Hbc. by apply andb_prop in Hbc as [? _].
  - unfold maskPrefix. destruct Ha as (_ & _ & -> & _), Hc as (_ & _ & -> & _).
    apply andb_true_intro. split; [apply Z.eqb_eq; lia|apply Z.leb_le; lia].
Qed.

Lemma IsSubnet_transitive_witness :
  IsSubnet (cidr4 10 0 0 0 8) (cidr4 10 0 3 0 24) = true.
Proof.
  apply (IsSubnet_transitive (cidr4 10 0 0 0 8) (cidr4 10 0 0 0 16) (cidr4 10 0 3 0 24)).
  - left. split; [reflexivity|]. split; [repeat constructor; lia|].
    exists 8. split; [lia|reflexivity].
  - left. split; [reflexivity|]. split; [repeat constructor; lia|].
    exists 16. split; [lia|reflexivity].
  - left. split; [reflexivity|]. split; [repeat constructor; lia|].
    exists 24. split; [lia|reflexivity].
  - vm_compute. reflexivity.
  - vm_compute. reflexivity.
Defined.

(** X14. Two networks that are subnets of each other are the same
    network up to host bits: if [IsSubnet(a, b)] and [IsSubnet(b, a)] hold
    for networks in canonical form, they have the same mask and
    [Contains] accepts the same addresses for both. *)
Theorem IsSubnet_antisymmetric a b ip :
  plain a -> plain b -> IsSubnet a b = true -> IsSubnet b a = true ->
  Mask a = Mask b /\ Contains a ip = Contains b ip.
Proof.
  intros [pa Ha]%plain_canonical [pb Hb]%plain_canonical Hab Hba.
  destruct (IsSubnet_canonical a b pa pb Ha Hb Hab) as (Hl & Hle1 & _).
  destruct (IsSubnet_canonical b a pb pa Hb Ha Hba) as (_ & Hle2 & _).
  split.
  - destruct Ha as (-> & _), Hb as (-> & _). rewrite Hl. f_equal. lia.
  - destruct (Contains a ip) eqn:Ea, (Contains b ip) eqn:Eb; try done.
    + by rewrite (Contains_under_subnet b a pb pa ip Hb Ha Hba Ea) in Eb.
    + by rewrite (Contains_under_subnet a b pa pb ip Ha Hb Hab Eb) in Ea.
Qed.

Lemma IsSubnet_antisymmetric_witness :
  Mask (cidr4 10 0 0 5 24) = Mask (cidr4 10 0 0 9 24)
  /\ Contains (cidr4 10 0 0 5 24) [10; 0; 0; 77] = Contains (cidr4 10 0 0 9 24) [10; 0; 0; 77].
Proof.
  apply (IsSubnet_antisymmetric (cidr4 10 0 0 5 24) (cidr4 10 0 0 9 24) [10; 0; 0; 77]).
  - left. split; [reflexivity|]. split; [repeat constructor; lia|].
    exists 24. split; [lia|reflexivity].
  - left. split; [reflexivity|]. split; [repeat constructor; lia|].
    exists 24. split; [lia|reflexivity].
  - vm_compute. reflexivity.
  - vm_compute. reflexivity.
Defined.

(** X15. [IsSubnet] and [IsSupernet] never relate an IPv4 network and
    an IPv6 network, in either direction. *)
Theorem IsSubnet_families a b :
  plain4 a -> plain6 b ->
  IsSubnet a b = false /\ IsSubnet b a = false
  /\ IsSupernet a b = false /\ IsSupernet b a = false.
Proof.
  intros Pa Pb.
  destruct (plain_canonical a (or_introl Pa)) as [pa Ha],
    (plain_canonical b (or_intror Pb)) as [pb Hb].
  assert (length (IP a) = 4%nat /\ length (IP b) = 16%nat) as [Hla Hlb].
  { destruct Pa as [? _], Pb as [? _]. done. }
  assert (IsSubnet a b = false /\ IsSubnet b a = false) as [H1 H2]; [|by unfold IsSupernet].
  split; apply not_true_is_false; intros Hs.
  - destruct (IsSubnet_canonical a b pa pb Ha Hb Hs) as (Hl & _). lia.
  - destruct (IsSubnet_canonical b a pb pa Hb Ha Hs) as (Hl & _). lia.
Qed.

Lemma IsSubnet_families_witness :
  IsSubnet (cidr4 10 0 0 0 8) net6_example = false
  /\ IsSubnet net6_example (cidr4 10 0 0 0 8) = false
  /\ IsSupernet (cidr4 10 0 0 0 8) net6_example = false
  /\ IsSupernet net6_example (cidr4 10 0 0 0 8) = false.
Proof.
  apply (IsSubnet_families (cidr4 10 0 0 0 8) net6_example).
  - split; [reflexivity|]. split; [repeat constructor; lia|].
    exists 8. split; [lia|reflexivity].
  - split; [reflexivity|]. split; [repeat constructor; lia|]. split; [reflexivity|].
    exists 64. split; [lia|reflexivity].
Defined.

(** ** [Supernet] and [Broadcast] on IPv4 *)

Lemma pow2_mask_range k : 0 <= k <= 32 -> 0 <= 2 ^ 32 - 2 ^ k < 2 ^ 32.
Proof.
  intros Hk. assert (0 < 2 ^ k <= 2 ^ 32); [|lia].
  split; [apply Z.pow_pos_nonneg; lia|apply Z.pow_le_mono_r; lia].
Qed.

Lemma land_mask_sub W p q :
  0 <= q <= p -> p <= W ->
  Z.land (2 ^ W - 2 ^ (W - p)) (2 ^ W - 2 ^ (W - q)) = 2 ^ W - 2 ^ (W - q).
Proof.
  intros Hq Hp. apply Z.bits_inj'. intros i Hi.
  rewrite Z.land_spec, !testbit_pow2_diff by lia.
  destruct (Z.leb_spec (W - p) i), (Z.leb_spec (W - q) i), (Z.ltb_spec i W); try done; lia.
Qed.

Lemma land_mask_range a k : 0 <= a < 2 ^ 32 -> 0 <= k <= 32 ->
  0 <= Z.land a (2 ^ 32 - 2 ^ k) < 2 ^ 32.
Proof.
  intros Ha Hk. pose proof (pow2_mask_range k Hk).
  pose proof (land_le_l a (2 ^ 32 - 2 ^ k) ltac:(lia) ltac:(lia)). lia.
Qed.

Lemma ip_number_range4 a : length (IP a) = 4%nat -> is_bytes (IP a) -> 0 <= ip_number a < 2 ^ 32.
Proof.
  intros Hl Hb. pose proof (be_decode_range _ Hb) as Hr. by rewrite Hl in Hr.
Qed.

Lemma Supernet_net4 a newPrefix ones :
  length (IP a) = 4%nat -> Size (Mask a) = (ones, 32) ->
  0 <= newPrefix <= ones -> ones <= 32 ->
  Supernet a newPrefix
  = Ok (net4 (Z.land (ip_number a) (2 ^ 32 - 2 ^ (32 - newPrefix))) newPrefix).
Proof. intros. by apply (Supernet_ipv4 a newPrefix ones). Qed.

(** X16. [Supernet] on IPv4: for a four-byte address and a mask of
    [ones] leading ones out of 32, [Supernet(a, newPrefix)] with
    [0 <= newPrefix <= ones] is the network of the first [newPrefix]
    bits of the address with the mask of [newPrefix] ones; it is in
    canonical form and has no host bit set. *)
Theorem Supernet_ipv4_masks a newPrefix ones :
  length (IP a) = 4%nat -> is_bytes (IP a) -> Size (Mask a) = (ones, 32) ->
  0 <= newPrefix <= ones -> ones <= 32 ->
  exists b, Supernet a newPrefix = Ok b
            /\ b = net4 (Z.land (ip_number a) (2 ^ 32 - 2 ^ (32 - newPrefix))) newPrefix
            /\ plain4 b /\ good4 (newIP4Net b).
Proof.
  intros Hl Hb Hs Hp Ho. eexists. split; [by apply (Supernet_net4 a newPrefix ones)|].
  split; [done|].
  pose proof (ip_number_range4 a Hl Hb) as Hr.
  pose proof (land_mask_range (ip_number a) (32 - newPrefix) Hr ltac:(lia)) as Hr'.
  split.
  - split; [apply be_encode_length|]. split; [apply be_encode_bytes|].
    exists newPrefix. split; [lia|done].
  - rewrite net4_new by (done || lia). split; [split; cbn; lia|].
    unfold masked4. cbn [addr]. rewrite ip4Net_mask_eq by (cbn; lia). cbn [prefix].
    by rewrite <- Z.land_assoc, Z.land_diag.
Qed.

Lemma Supernet_ipv4_masks_witness :
  exists b, Supernet (cidr4 10 0 5 9 24) 22 = Ok b
            /\ b = net4 (Z.land (ip_number (cidr4 10 0 5 9 24)) (2 ^ 32 - 2 ^ (32 - 22))) 22
            /\ plain4 b /\ good4 (newIP4Net b).
Proof.
  apply (Supernet_ipv4_masks (cidr4 10 0 5 9 24) 22 24).
  - reflexivity.
  - repeat constructor; lia.
  - vm_compute. reflexivity.
  - lia.
  - lia.
Defined.

(** X17. The result of [Supernet] is a supernet in the sense of
    [IsSupernet]: for an IPv4 network [a] as in X16,
    [IsSupernet(a, Supernet(a, newPrefix))] holds, that is
    [IsSubnet(Supernet(a, newPrefix), a)]. *)
Theorem Supernet_is_supernet a newPrefix ones b :
  length (IP a) = 4%nat -> is_bytes (IP a) -> Size (Mask a) = (ones, 32) ->
  0 <= newPrefix <= ones -> ones <= 32 ->
  Supernet a newPrefix = Ok b ->
  IsSupernet a b = true /\ IsSubnet b a = true.
Proof.
  intros Hl Hb Hs Hp Ho Hsup.
  rewrite (Supernet_net4 a newPrefix ones) in Hsup by done. injection Hsup as <-.
  assert (IsSubnet (net4 (Z.land (ip_number a) (2 ^ 32 - 2 ^ (32 - newPrefix))) newPrefix) a
          = true) as Hsub; [|by unfold IsSupernet].
  pose proof (ip_number_range4 a Hl Hb) as Hr.
  pose proof (land_mask_range (ip_number a) (32 - newPrefix) Hr ltac:(lia)) as Hr'.
  unfold IsSubnet. apply andb_true_intro. split.
  - apply (Contains_plain4 _ newPrefix);
      [apply be_encode_length|apply be_encode_bytes|lia|done|done|].
    exists (IP a). split; [unfold To4; by rewrite decide_True|].
    cbn [net4 IP].
    rewrite be_decode_encode_id by (change (256 ^ Z.of_nat 4) with (2 ^ 32); done).
    by rewrite <- Z.land_assoc, Z.land_diag.
  - unfold maskPrefix. cbn [net4 Mask]. rewrite Size_CIDRMask4, Hs by lia.
    apply andb_true_intro. split; [done|apply Z.leb_le; lia].
Qed.

Lemma Supernet_is_supernet_witness :
  IsSupernet (cidr4 10 0 5 9 24) (cidr4 10 0 4 0 22) = true
  /\ IsSubnet (cidr4 10 0 4 0 22) (cidr4 10 0 5 9 24) = true.
Proof.
  apply (Supernet_is_supernet (cidr4 10 0 5 9 24) 22 24 (cidr4 10 0 4 0 22)).
  - reflexivity.
  - repeat constructor; lia.
  - vm_compute. reflexivity.
  - lia.
  - lia.
  - vm_compute. reflexivity.
Defined.

(** X18. [Supernet] composes: shortening an IPv4 network to [p] bits
    and the result to [q <= p] bits is shortening it to [q] bits at
    once. *)
Theorem Supernet_twice a ones p q b :
  length (IP a) = 4%nat -> is_bytes (IP a) -> Size (Mask a) = (ones, 32) ->
  0 <= q <= p -> p <= ones -> ones <= 32 ->
  Supernet a p = Ok b -> Supernet b q = Supernet a q.
Proof.
  intros Hl Hb Hs Hq Hp Ho Hsup.
  rewrite (Supernet_net4 a p ones) in Hsup by (done || lia). injection Hsup as <-.
  pose proof (ip_number_range4 a Hl Hb) as Hr.
  pose proof (land_mask_range (ip_number a) (32 - p) Hr ltac:(lia)) as Hr'.
  rewrite (Supernet_net4 a q ones) by (done || lia).
  rewrite (Supernet_net4 _ q p); [|apply be_encode_length|apply Size_CIDRMask4; lia|done|lia].
  do 2 f_equal. unfold ip_number at 1. cbn [net4 IP].
  rewrite be_decode_encode_id by (change (256 ^ Z.of_nat 4) with (2 ^ 32); done).
  by rewrite <- Z.land_assoc, land_mask_sub by lia.
Qed.

Lemma Supernet_twice_witness :
  Supernet (cidr4 10 0 4 0 22) 16 = Supernet (cidr4 10 0 5 9 24) 16.
Proof.
  apply (Supernet_twice (cidr4 10 0 5 9 24) 24 22 16 (cidr4 10 0 4 0 22)).
  - reflexivity.
  - repeat constructor; lia.
  - vm_compute. reflexivity.
  - lia.
  - lia.
  - lia.
  - vm_compute. reflexivity.
Defined.

(** X19. When [Supernet] panics: for a network in canonical form whose
    mask has [p] leading ones, of either family, [Supernet(a, newPrefix)]
    panics exactly when [newPrefix] is negative or greater than [p], and
    returns a network exactly when [0 <= newPrefix <= p], equality
    included. *)
Theorem Supernet_panics_iff a p bits newPrefix :
  plain a -> Size (Mask a) = (p, bits) ->
  (Supernet a newPrefix = Panic "new prefix must be less than current"
   <-> newPrefix < 0 \/ p < newPrefix)
  /\ ((exists b, Supernet a newPrefix = Ok b) <-> 0 <= newPrefix <= p).
Proof.
  intros [p' (_ & Hp & Hs & _)]%plain_canonical Hsz.
  rewrite Hs in Hsz. injection Hsz as -> <-.
  unfold Supernet. rewrite Hs.
  destruct (Z.ltb_spec newPrefix 0) as [H0|H0]; cbn [orb].
  { split; [split; [by left|done]|]. split; [by intros [b Hb]|lia]. }
  destruct (Z.ltb_spec p newPrefix) as [H1|H1]; cbn [orb].
  { split; [split; [by right|done]|]. split; [by intros [b Hb]|lia]. }
  destruct (Z.ltb_spec (8 * Z.of_nat (length (IP a))) newPrefix) as [H2|H2]; [lia|].
  destruct (To4 (IP a));
    (split; [split; [done|lia]|split; [lia|intros _; by eexists]]).
Qed.

Lemma Supernet_panics_iff_witness :
  (Supernet (cidr4 10 0 0 0 24) 25 = Panic "new prefix must be less than current"
   <-> 25 < 0 \/ 24 < 25)
  /\ ((exists b, Supernet (cidr4 10 0 0 0 24) 25 = Ok b) <-> 0 <= 25 <= 24).
Proof.
  apply (Supernet_panics_iff (cidr4 10 0 0 0 24) 24 32 25).
  - left. split; [reflexivity|]. split; [repeat constructor; lia|].
    exists 24. split; [lia|reflexivity].
  - vm_compute. reflexivity.
Defined.

Lemma lor_low_bits a k :
  0 <= a < 2 ^ 32 -> 0 <= k <= 32 ->
  Z.lor a (2 ^ k - 1) = Z.land a (2 ^ 32 - 2 ^ k) + (2 ^ k - 1).
Proof.
  intros Ha Hk.
  assert (Z.land (Z.land a (2 ^ 32 - 2 ^ k)) (2 ^ k - 1) = 0) as Hdisj.
  { apply Z.bits_inj'. intros i Hi. rewrite !Z.land_spec, testbit_pow2_diff by lia.
    rewrite Z.bits_0. change (2 ^ k - 1) with (Z.pred (2 ^ k)). rewrite <- Z.ones_equiv.
    destruct (Z.ltb_spec i k).
    - rewrite Z.ones_spec_low by lia.
      replace (k <=? i) with false by (symmetry; apply Z.leb_gt; lia).
      by rewrite !andb_false_r.
    - rewrite Z.ones_spec_high by lia. by rewrite andb_false_r. }
  rewrite <- Z.lor_0_r at 1. rewrite Z.add_nocarry_lor by done.
  apply Z.bits_inj'. intros i Hi. rewrite !Z.lor_spec, Z.land_spec, testbit_pow2_diff by lia.
  rewrite Z.bits_0, orb_false_r.
  change (2 ^ k - 1) with (Z.pred (2 ^ k)). rewrite <- Z.ones_equiv.
  destruct (Z.ltb_spec i k).
  - rewrite Z.ones_spec_low by lia. by rewrite !orb_true_r.
  - rewrite Z.ones_spec_high by lia.
    replace (k <=? i) with true by (symmetry; apply Z.leb_le; lia).
    destruct (Z.ltb_spec i 32).
    + by rewrite andb_true_r.
    + rewrite (testbit_above 32 a i) by done. done.
Qed.

Lemma split_at_mask y k :
  0 <= y < 2 ^ 32 -> 0 <= k <= 32 ->
  y = Z.land y (2 ^ 32 - 2 ^ k) + y mod 2 ^ k.
Proof.
  intros Hy Hk. rewrite <- Z.land_ones by lia.
  assert (Z.land (Z.land y (2 ^ 32 - 2 ^ k)) (Z.land y (Z.ones k)) = 0) as Hdisj.
  { apply Z.bits_inj'. intros i Hi. rewrite !Z.land_spec, testbit_pow2_diff by lia.
    rewrite Z.bits_0. destruct (Z.ltb_spec i k).
    - replace (k <=? i) with false by (symmetry; apply Z.leb_gt; lia).
      by rewrite !andb_false_r.
    - rewrite Z.ones_spec_high by lia. by rewrite !andb_false_r. }
  rewrite Z.add_nocarry_lor by done.
  apply Z.bits_inj'. intros i Hi. rewrite Z.lor_spec, !Z.land_spec, testbit_pow2_diff by lia.
  destruct (Z.ltb_spec i k).
  - rewrite Z.ones_spec_low by lia.
    replace (k <=? i) with false by (symmetry; apply Z.leb_gt; lia).
    by rewrite andb_true_r, andb_false_r.
  - rewrite Z.ones_spec_high by lia.
    replace (k <=? i) with true by (symmetry; apply Z.leb_le; lia).
    destruct (Z.ltb_spec i 32).
    + by rewrite !andb_true_r, andb_false_r, orb_false_r.
    + rewrite (testbit_above 32 y i) by done. done.
Qed.

Lemma Broadcast_number4 a p :
  length (IP a) = 4%nat -> is_bytes (IP a) -> 0 <= p <= 32 -> Mask a = CIDRMask p 32 ->
  Broadcast a = be_encode 4 (Z.lor (ip_number a) (2 ^ (32 - p) - 1))
  /\ be_decode (Broadcast a) = Z.lor (ip_number a) (2 ^ (32 - p) - 1)
  /\ 0 <= Z.lor (ip_number a) (2 ^ (32 - p) - 1) < 2 ^ 32.
Proof.
  intros Hl Hb Hp Hm.
  pose proof (ip_number_range4 a Hl Hb) as Hr.
  pose proof (land_mask_range (ip_number a) (32 - p) Hr ltac:(lia)) as Hr'.
  pose proof (pow2_mask_range (32 - p) ltac:(lia)) as Hmr.
  assert (Broadcast a = be_encode 4 (Z.lor (ip_number a) (2 ^ (32 - p) - 1))) as Hbc.
  { apply (Broadcast_ipv4 a p); [done| |done]. rewrite Hm. by apply Size_CIDRMask4. }
  assert (Z.land (ip_number a) (2 ^ 32 - 2 ^ (32 - p)) <= 2 ^ 32 - 2 ^ (32 - p)) as Hle.
  { rewrite Z.land_comm. apply land_le_l; lia. }
  assert (0 <= Z.lor (ip_number a) (2 ^ (32 - p) - 1) < 2 ^ 32) as Hbr.
  { rewrite lor_low_bits by (done || lia). lia. }
  split; [done|]. split; [|done].
  rewrite Hbc. apply be_decode_encode_id. by change (256 ^ Z.of_nat 4) with (2 ^ 32).
Qed.

(** X20. [Broadcast] on IPv4 lies in its network: for a network in
    canonical form with prefix length [p] (host bits allowed) it is the
    address with the low [32 - p] bits set, and [Contains] accepts it. *)
Theorem Broadcast_ipv4_contained a p :
  length (IP a) = 4%nat -> is_bytes (IP a) -> 0 <= p <= 32 -> Mask a = CIDRMask p 32 ->
  Broadcast a = be_encode 4 (Z.lor (ip_number a) (2 ^ (32 - p) - 1))
  /\ Contains a (Broadcast a) = true.
Proof.
  intros Hl Hb Hp Hm.
  destruct (Broadcast_number4 a p Hl Hb Hp Hm) as (Hbc & Hnum & Hbr).
  split; [done|].
  apply (Contains_plain4 a p); try done.
  { rewrite Hbc. apply be_encode_bytes. }
  exists (Broadcast a). split.
  - unfold To4. rewrite decide_True; [done|]. rewrite Hbc. apply be_encode_length.
  - rewrite Hnum. fold (ip_number a).
    apply Z.bits_inj'. intros i Hi.
    rewrite !Z.land_spec, Z.lor_spec, testbit_pow2_diff by lia.
    change (2 ^ (32 - p) - 1) with (Z.pred (2 ^ (32 - p))). rewrite <- Z.ones_equiv.
    destruct (Z.ltb_spec i (32 - p)).
    + replace (32 - p <=? i) with false by (symmetry; apply Z.leb_gt; lia).
      by rewrite !andb_false_r.
    + rewrite Z.ones_spec_high by lia. by rewrite orb_false_r.
Qed.

Lemma Broadcast_ipv4_contained_witness :
  Broadcast (cidr4 10 0 4 7 22)
  = be_encode 4 (Z.lor (ip_number (cidr4 10 0 4 7 22)) (2 ^ (32 - 22) - 1))
  /\ Contains (cidr4 10 0 4 7 22) (Broadcast (cidr4 10 0 4 7 22)) = true.
Proof.
  apply (Broadcast_ipv4_contained (cidr4 10 0 4 7 22) 22).
  - reflexivity.
  - repeat constructor; lia.
  - lia.
  - reflexivity.
Defined.

(** X21. [Broadcast] on IPv4 is the last address of its network: no
    four-byte address that [Contains] accepts is greater, as a
    big-endian number, than the address [Broadcast] returns. *)
Theorem Broadcast_ipv4_greatest a p ip :
  length (IP a) = 4%nat -> is_bytes (IP a) -> 0 <= p <= 32 -> Mask a = CIDRMask p 32 ->
  length ip = 4%nat -> is_bytes ip -> Contains a ip = true ->
  be_decode ip <= be_decode (Broadcast a).
Proof.
  intros Hl Hb Hp Hm Hil Hib Hc.
  destruct (Broadcast_number4 a p Hl Hb Hp Hm) as (Hbc & Hnum & Hbr).
  pose proof (ip_number_range4 a Hl Hb) as Hr.
  apply (Contains_plain4 a p) in Hc as (y & Hy & Hi); try done.
  assert (y = ip) as ->.
  { unfold To4 in Hy. rewrite decide_True in Hy by done. congruence. }
  pose proof (be_decode_range _ Hib) as Hyr. rewrite Hil in Hyr.
  change (256 ^ Z.of_nat 4) with (2 ^ 32) in Hyr.
  rewrite Hnum, lor_low_bits by (done || lia).
  rewrite (split_at_mask (be_decode ip) (32 - p)) at 1 by (done || lia).
  fold (ip_number a) in Hi. rewrite Hi.
  assert (0 <= be_decode ip mod 2 ^ (32 - p) < 2 ^ (32 - p)); [|lia].
  apply Z.mod_pos_bound. apply Z.pow_pos_nonneg; lia.
Qed.

Lemma Broadcast_ipv4_greatest_witness :
  be_decode [10; 0; 6; 1] <= be_decode (Broadcast (cidr4 10 0 4 7 22)).
Proof.
  apply (Broadcast_ipv4_greatest (cidr4 10 0 4 7 22) 22 [10; 0; 6; 1]).
  - reflexivity.
  - repeat constructor; lia.
  - lia.
  - reflexivity.
  - reflexivity.
  - repeat constructor; lia.
  - vm_compute. reflexivity.
Defined.

(** ** [Supernet] and [Broadcast] on IPv6 *)

(** X22. [Supernet] on IPv6 returns the address as it was given: for
    every sixteen-byte address that is not IPv4-mapped and every
    [0 <= newPrefix <= ones], the result has the address bytes of the
    argument and the mask of [newPrefix] ones; no bit of the address is
    cleared. *)
Theorem Supernet_ipv6_as_given a newPrefix ones :
  length (IP a) = 16%nat -> is_bytes (IP a) -> To4 (IP a) = None ->
  Size (Mask a) = (ones, 128) -> 0 <= newPrefix <= ones -> ones <= 128 ->
  Supernet a newPrefix = Ok {| IP := IP a; Mask := CIDRMask newPrefix 128 |}.
Proof.
  intros Hlen Hb H4 Hs Hp Hones. unfold Supernet. rewrite Hs, H4.
  destruct (Z.ltb_spec newPrefix 0), (Z.ltb_spec ones newPrefix),
    (Z.ltb_spec 128 newPrefix); try lia. cbn [orb].
  rewrite from128_to128; [done..|]. unfold make. by rewrite length_replicate.
Qed.

Lemma Supernet_ipv6_as_given_witness :
  Supernet net6_example 48 = Ok {| IP := IP net6_example; Mask := CIDRMask 48 128 |}.
Proof.
  apply (Supernet_ipv6_as_given net6_example 48 64).
  - reflexivity.
  - repeat constructor; lia.
  - reflexivity.
  - vm_compute. reflexivity.
  - lia.
  - lia.
Defined.

(** X23. [Broadcast] on IPv6 returns the address as it was given: for
    every sixteen-byte address that is not IPv4-mapped, whatever the
    mask, the result has the address bytes of the argument; no host bit
    is set. *)
Theorem Broadcast_ipv6_as_given a :
  length (IP a) = 16%nat -> is_bytes (IP a) -> To4 (IP a) = None ->
  Broadcast a = IP a.
Proof.
  intros Hlen Hb H4. unfold Broadcast. rewrite H4. destruct (Size (Mask a)).
  rewrite firstn_all. by apply from128_to128.
Qed.

Lemma Broadcast_ipv6_as_given_witness : Broadcast net6_example = IP net6_example.
Proof.
  apply (Broadcast_ipv6_as_given net6_example).
  - reflexivity.
  - repeat constructor; lia.
  - reflexivity.
Defined.

(** ** Typed networks and their rendering *)

(** X24. [mask()] has exactly the first [prefix] bits of the width set:
    for both families and every prefix length from 0 to the width, the
    mask as a number is [2 ^ width - 2 ^ (width - prefix)]; it is 0 for
    prefix length 0 and all ones for the full width. *)
Theorem mask_of_number {A} (f : family A) (n : typedNet A) :
  0 <= prefix n <= width_of f ->
  number_of f (mask_of f n) = 2 ^ width_of f - 2 ^ (width_of f - prefix n).
Proof.
  intros Hp. destruct f; cbn [number_of mask_of width_of] in *.
  - by apply ip4Net_mask_eq.
  - unfold ip6Net_mask.
    apply (forall_range
             (fun p => u128_Z (u128_Not (u128_Minus (u128_Lsh (U128 0 1) (u64 (128 - p)))
                                                    (U128 0 1)))
                       = 2 ^ 128 - 2 ^ (128 - p)) 0 129);
      [vm_compute; reflexivity | lia].
Qed.

Lemma mask_of_number_witness :
  number_of IPv6 (mask_of IPv6 (TypedNet (U128 0 0) 0))
  = 2 ^ width_of IPv6 - 2 ^ (width_of IPv6 - 0).
Proof.
  apply (mask_of_number IPv6 (TypedNet (U128 0 0) 0)). cbn. lia.
Defined.

(** X25. Reading back what [asNet] renders gives the typed network:
    for both families, [newIP4Net(n.asNet()) = n] (for IPv6
    [newIP6Net(n.asNet()) = n]) whenever the address of [n] fits its
    integer type and its prefix length is within the width. *)
Theorem asNet_read_back {A} (f : family A) (n : typedNet A) :
  valid_of f n -> newNet_of f (asNet_of f n) = n.
Proof.
  intros Hv. destruct f; cbn [newNet_of asNet_of valid_of] in *.
  - by apply newIP4Net_asNet.
  - by apply newIP6Net_asNet.
Qed.

Lemma asNet_read_back_witness :
  newNet_of IPv6 (asNet_of IPv6 (TypedNet (U128 2306139568115548160 1) 127))
  = TypedNet (U128 2306139568115548160 1) 127.
Proof.
  apply (asNet_read_back IPv6 (TypedNet (U128 2306139568115548160 1) 127)).
  cbn. unfold valid6, valid128. cbn. lia.
Defined.

(** X26. Rendering what was read gives the network back: for a network
    [x] in canonical form, of either family and with or without host
    bits, [newIP4Net(x).asNet()] (for IPv6 [newIP6Net(x).asNet()]) has the
    address bytes and the mask bytes of [x]. *)
Theorem asNet_of_read x :
  plain x ->
  (if is4 x then ip4Net_asNet (newIP4Net x) else ip6Net_asNet (newIP6Net x)) = x.
Proof.
  intros [Hx|Hx].
  - rewrite plain4_is4 by done. by apply plain4_asNet.
  - rewrite plain6_is4 by done. by apply plain6_asNet.
Qed.

Lemma asNet_of_read_witness :
  (if is4 net6_example then ip4Net_asNet (newIP4Net net6_example)
   else ip6Net_asNet (newIP6Net net6_example)) = net6_example.
Proof.
  apply (asNet_of_read net6_example). right.
  split; [reflexivity|]. split; [repeat constructor; lia|]. split; [reflexivity|].
  exists 64. split; [lia|reflexivity].
Defined.

(** ** What [Collapse] returns in memory *)

Lemma ip4Net_asNet_mem_allocates : allocates ip4Net_asNet_mem.
Proof.
  intros h n. unfold ip4Net_asNet_mem. cbn. split; [done|].
  eexists. split; [apply list_lookup_middle; done|].
  split; [|by rewrite length_app, Nat.add_1_r].
  split; intros r [= <-]; cbn; rewrite ?length_app; lia.
Qed.

Lemma ip6Net_asNet_mem_allocates : allocates ip6Net_asNet_mem.
Proof.
  intros h n. unfold ip6Net_asNet_mem. cbn. split; [done|].
  eexists. split; [apply list_lookup_middle; done|].
  split; [|by rewrite length_app, Nat.add_1_r].
  split; intros r [= <-]; cbn; rewrite ?length_app; lia.
Qed.

Lemma fresh_cell_mono h0 h c : preserved h0 h -> fresh_cell h c -> fresh_cell h0 c.
Proof.
  intros Hp%preserved_length [Hi Hm]. split; intros r Hr; [apply Hi in Hr|apply Hm in Hr]; lia.
Qed.

Lemma render_fresh {T} (asNet_mem : heap -> T -> heap * nat) h0 h ms :
  (forall h n, preserved h (asNet_mem h n).1) -> allocates asNet_mem ->
  preserved h0 h ->
  (render asNet_mem h ms).2 = seq (length (cells h)) (length ms)
  /\ forall p, p ∈ (render asNet_mem h ms).2 ->
       exists c, cells (render asNet_mem h ms).1 !! p = Some c /\ fresh_cell h0 c.
Proof.
  intros Hpres Halloc. revert h. induction ms as [|m ms IH]; intros h H0; cbn.
  - split; [done|]. intros p Hp. by apply elem_of_nil in Hp.
  - destruct (Halloc h m) as (Hp & c & Hc & Hf & Hlen).
    pose proof (Hpres h m) as H1.
    destruct (asNet_mem h m) as [h1 p]. cbn [fst snd] in *. subst p.
    destruct (IH h1 (preserved_trans _ _ _ H0 H1)) as [Hps Hall].
    pose proof (render_preserved asNet_mem h1 ms Hpres) as H2.
    destruct (render asNet_mem h1 ms) as [h2 ps]. cbn [fst snd] in *.
    split; [by rewrite Hps, Hlen|].
    intros q [->|Hq]%elem_of_cons; [|by apply Hall].
    exists c. split; [by apply H2|]. by eapply fresh_cell_mono.
Qed.

(** X27. [Collapse] returns networks of its own: the pointers it
    returns are pairwise different, none of them is one of the pointers
    it was given, and the structs they point to hold slices of arrays
    that did not exist before the call. A write through a result
    touches no array the caller had. *)
Theorem Collapse_mem_fresh ro h toMerge h' ps :
  Collapse_mem ro h toMerge = (h', Ok ps) ->
  NoDup ps
  /\ forall p, p ∈ ps ->
       (p ∉ toMerge) /\ exists c, cells h' !! p = Some c /\ fresh_cell h c.
Proof.
  unfold Collapse_mem. destruct (mapM _ toMerge) as [cs|] eqn:Hcs; [|done].
  assert (forall p, p ∈ toMerge -> (p < length (cells h))%nat) as Hold.
  { intros p Hp. apply mapM_Some_1 in Hcs.
    apply list_elem_of_lookup in Hp as [i Hi].
    destruct (Forall2_lookup_l _ _ _ _ _ Hcs Hi) as (c & _ & Hc).
    by apply lookup_lt_Some in Hc. }
  assert (forall {T} (asNet_mem : heap -> T -> heap * nat) ms,
             (forall h n, preserved h (asNet_mem h n).1) -> allocates asNet_mem ->
             render asNet_mem h ms = (h', ps) ->
             NoDup ps
             /\ forall p, p ∈ ps ->
                  (p ∉ toMerge) /\ exists c, cells h' !! p = Some c /\ fresh_cell h c) as Hrender.
  { intros T asNet_mem ms Hpres Halloc Hr.
    destruct (render_fresh asNet_mem h h ms Hpres Halloc (preserved_refl h)) as [Hps Hall].
    rewrite Hr in Hps, Hall. cbn [fst snd] in *. split.
    - rewrite Hps. apply NoDup_seq.
    - intros p Hp. split; [|by apply Hall].
      intros Hin%Hold. rewrite Hps in Hp. apply elem_of_seq in Hp. lia. }
  destruct (snapshot h <$> cs) as [|first others].
  { intros [= <- <-]. split; [constructor|]. intros p Hp. by apply elem_of_nil in Hp. }
  destruct (forallb _ others); [|done].
  destruct (is4 first).
  - destruct (collapse4_nets _ _) as [ms|]; [|done].
    destruct (render ip4Net_asNet_mem h ms) as [h1 ps1] eqn:Hr. intros [= <- <-].
    by apply (Hrender _ ip4Net_asNet_mem ms ip4Net_asNet_mem_preserved
                ip4Net_asNet_mem_allocates).
  - destruct (collapse6_nets _ _) as [ms|]; [|done].
    destruct (render ip6Net_asNet_mem h ms) as [h1 ps1] eqn:Hr. intros [= <- <-].
    by apply (Hrender _ ip6Net_asNet_mem ms ip6Net_asNet_mem_preserved
                ip6Net_asNet_mem_allocates).
Qed.

Lemma Collapse_mem_fresh_witness :
  NoDup [2%nat]
  /\ forall p, p ∈ [2%nat] ->
       (p ∉ [0%nat])
       /\ exists c, cells (Collapse_mem range_id heap_example [0%nat]).1 !! p = Some c
                    /\ fresh_cell heap_example c.
Proof.
  apply (Collapse_mem_fresh range_id heap_example [0%nat]).
  vm_compute. reflexivity.
Defined.

(** * Minimality of the result *)

(** C7, as stated, fails. 10.0.0.5/24 and 10.0.1.0/24 lie under the same
    immediate parent 10.0.0.0/23, which is their union. [super] clears
    one bit, so it files them under 10.0.0.5/23 and 10.0.0.0/23, and
    [Collapse] returns both, in every run. *)
Lemma Collapse_leaves_siblings :
  (forall ro, range_ok ro ->
     Collapse ro [cidr4 10 0 0 5 24; cidr4 10 0 1 0 24]
     = Ok [cidr4 10 0 0 5 24; cidr4 10 0 1 0 24])
  /\ immediate_parent (cidr4 10 0 0 5 24) = (167772160, 23, 32)
  /\ immediate_parent (cidr4 10 0 1 0 24) = (167772160, 23, 32).
Proof.
  split; [|split; vm_compute; reflexivity].
  intros ro [H4 _].
  assert (forall l, l ≡ₚ [TypedNet 167772165 24; TypedNet 167772416 24] ->
            coalesce ip4Net_mask Z.land (sort_nets ip4Nets_Less l)
            = Ok [TypedNet 167772165 24; TypedNet 167772416 24]) as Hboth.
  { intros l [->| ->]%perm_pair; vm_compute; reflexivity. }
  assert (values (merge_all ip4Net_super
                    (rev (newIP4Net <$> [cidr4 10 0 0 5 24; cidr4 10 0 1 0 24])))
          ≡ₚ [TypedNet 167772165 24; TypedNet 167772416 24]) as Hvals.
  { vm_compute. apply Permutation_refl || apply Permutation_swap. }
  unfold Collapse. cbn [forallb].
  change (is4 (cidr4 10 0 0 5 24)) with true.
  change (is4 (cidr4 10 0 1 0 24)) with true. cbn [Bool.eqb andb].
  unfold collapse4, collapse4_nets, collapse_nets, survivors.
  rewrite Hboth; [vm_compute; reflexivity|].
  by rewrite H4.
Qed.

(** Clearing the low [j] bits of a number, by division and by a mask. *)
Lemma div_mul_land W a j :
  0 <= a < 2 ^ W -> 0 <= j <= W -> a / 2 ^ j * 2 ^ j = Z.land a (2 ^ W - 2 ^ j).
Proof.
  intros Ha Hj. rewrite <- Z.shiftr_div_pow2, <- Z.shiftl_mul_pow2 by lia.
  apply Z.bits_inj'. intros i Hi.
  rewrite Z.land_spec, testbit_pow2_diff by lia.
  destruct (Z.leb_spec j i) as [Hge|Hlt].
  - rewrite Z.shiftl_spec, Z.shiftr_spec by lia. replace (i - j + j) with i by lia.
    destruct (Z.ltb_spec i W); [by rewrite andb_true_r|].
    rewrite (testbit_above W a i) by done. done.
  - rewrite Z.shiftl_spec_low by lia. by rewrite andb_false_r.
Qed.

Lemma u128_Z_land a b :
  valid128 a -> valid128 b -> u128_Z (u128_And a b) = Z.land (u128_Z a) (u128_Z b).
Proof.
  intros [Hah Hal] [Hbh Hbl]. unfold u128_Z, u128_And. cbn [hi lo].
  pose proof (land_le_l (lo a) (lo b) ltac:(lia) ltac:(lia)) as Hr.
  apply Z.bits_inj'. intros i Hi.
  rewrite Z.land_spec, !testbit_shift_add by lia.
  destruct (i <? 64); by rewrite Z.land_spec.
Qed.

Lemma number_and {A} (f : family A) (a b : A) :
  in_range f a -> in_range f b ->
  number_of f (and_of f a b) = Z.land (number_of f a) (number_of f b).
Proof.
  destruct f; cbn [in_range number_of and_of]; intros Ha Hb; [done|].
  by apply u128_Z_land.
Qed.

Lemma number_range {A} (f : family A) (a : A) :
  in_range f a -> 0 <= number_of f a < 2 ^ width_of f.
Proof.
  destruct f; cbn [in_range number_of width_of]; [done|].
  intros [Hh Hl]. unfold u128_Z. change (2 ^ 128) with (2 ^ 64 * 2 ^ 64). lia.
Qed.

Lemma number_inj {A} (f : family A) (a b : A) :
  in_range f a -> in_range f b -> number_of f a = number_of f b -> a = b.
Proof.
  destruct f; cbn [in_range number_of]; [done|]. apply u128_Z_inj.
Qed.

Lemma mask_number {A} (f : family A) (n : typedNet A) :
  0 <= prefix n <= width_of f ->
  number_of f (mask_of f n) = 2 ^ width_of f - 2 ^ (width_of f - prefix n)
  /\ in_range f (mask_of f n).
Proof.
  intros Hp. destruct f; cbn [number_of mask_of width_of in_range] in *.
  - rewrite ip4Net_mask_eq by done. split; [done|].
    assert (0 < 2 ^ (32 - prefix n) <= 2 ^ 32); [|lia].
    split; [apply Z.pow_pos_nonneg; lia|apply Z.pow_le_mono_r; lia].
  - unfold ip6Net_mask.
    apply (forall_range
             (fun p => u128_Z (u128_Not (u128_Minus (u128_Lsh (U128 0 1) (u64 (128 - p)))
                                                    (U128 0 1)))
                       = 2 ^ 128 - 2 ^ (128 - p)
                       /\ valid128 (u128_Not (u128_Minus (u128_Lsh (U128 0 1) (u64 (128 - p)))
                                                         (U128 0 1)))) 0 129);
      [vm_compute; reflexivity | lia].
Qed.

Lemma valid_in_range {A} (f : family A) (n : typedNet A) :
  valid_of f n -> in_range f (addr n) /\ 0 <= prefix n <= width_of f.
Proof. destruct f; cbn [valid_of in_range width_of]; by intros []. Qed.

Lemma super_prefix {A} (f : family A) (n : typedNet A) :
  valid_of f n -> 1 <= prefix n ->
  prefix (super_of f n) = prefix n - 1 /\ valid_of f (super_of f n).
Proof.
  intros Hv Hp. destruct f; cbn [valid_of super_of] in *.
  - split; [|by apply ip4Net_super_valid]. destruct Hv. by rewrite ip4Net_super_eq by lia.
  - split; [|by apply ip6Net_super_valid]. by rewrite ip6Net_super_eq.
Qed.

Lemma super_covers {A} (f : family A) (n : typedNet A) :
  valid_of f n -> 1 <= prefix n -> masked_of f n ->
  and_of f (addr n) (mask_of f (super_of f n)) = addr (super_of f n).
Proof.
  intros Hv Hp Hm. destruct f; cbn [valid_of super_of and_of mask_of] in *.
  - by apply ip4Net_super_covers.
  - by apply ip6Net_super_covers.
Qed.

Lemma asNet_read {A} (f : family A) (n : typedNet A) :
  valid_of f n ->
  Size (Mask (asNet_of f n)) = (prefix n, width_of f)
  /\ ip_number (asNet_of f n) = number_of f (addr n).
Proof.
  intros Hv. destruct f; cbn [valid_of asNet_of width_of number_of] in *.
  - split; [|by apply ip_number_asNet4]. destruct Hv. by apply Size_mask4.
  - split; [|by apply ip_number_asNet6]. destruct Hv. by apply Size_mask6.
Qed.

(** For a network without host bits the immediate parent of the
    specification is the network that [super] returns. *)
Lemma parent_is_super {A} (f : family A) (m : typedNet A) :
  valid_of f m -> masked_of f m -> 1 <= prefix m ->
  immediate_parent (asNet_of f m)
  = (number_of f (addr (super_of f m)), prefix m - 1, width_of f).
Proof.
  intros Hv Hm Hp.
  destruct (valid_in_range f m Hv) as [Hr Hpw].
  destruct (asNet_read f m Hv) as [Hs Hn].
  destruct (super_prefix f m Hv Hp) as [Hsp Hsv].
  destruct (mask_number f (super_of f m)) as [Hmn Hmr]; [rewrite Hsp; lia|].
  unfold immediate_parent. rewrite Hs, Hn. do 2 f_equal.
  rewrite (div_mul_land (width_of f)) by (by apply number_range || lia).
  rewrite <- (super_covers f m Hv Hp Hm) at 1.
  rewrite number_and, Hmn, Hsp by done. do 3 f_equal. lia.
Qed.

Lemma prefix0_number {A} (f : family A) (m : typedNet A) :
  valid_of f m -> masked_of f m -> prefix m = 0 -> number_of f (addr m) = 0.
Proof.
  intros Hv Hm Hp. destruct (valid_in_range f m Hv) as [Hr Hpw].
  destruct (mask_number f m Hpw) as [Hmn Hmr].
  unfold masked_of in Hm. rewrite <- Hm, number_and, Hmn, Hp by done.
  rewrite Z.sub_0_r, Z.sub_diag. apply Z.land_0_r.
Qed.

(** Two networks without host bits that have the same immediate parent
    are filed under the same key by the loop. *)
Lemma same_parent_same_super {A} (f : family A) (m m' : typedNet A) :
  valid_of f m -> masked_of f m -> valid_of f m' -> masked_of f m' ->
  immediate_parent (asNet_of f m) = immediate_parent (asNet_of f m') ->
  super_of f m = super_of f m'.
Proof.
  intros Hv Hm Hv' Hm' Heq.
  destruct (valid_in_range f m Hv) as [Hr Hpw].
  destruct (valid_in_range f m' Hv') as [Hr' Hpw'].
  assert (prefix m = prefix m') as Hpp.
  { unfold immediate_parent in Heq.
    destruct (asNet_read f m Hv) as [Hs _], (asNet_read f m' Hv') as [Hs' _].
    rewrite Hs, Hs' in Heq. injection Heq as _ Hq. lia. }
  destruct (decide (prefix m = 0)) as [H0|H0].
  - assert (m = m') as ->; [|done].
    assert (addr m = addr m') as Ha.
    { apply (number_inj f); [done..|].
      rewrite !prefix0_number by (done || lia). done. }
    destruct m, m'. cbn in *. by subst.
  - rewrite !parent_is_super in Heq by (done || lia).
    injection Heq as Hn _.
    destruct (super_prefix f m Hv ltac:(lia)) as [Hsp Hsv].
    destruct (super_prefix f m' Hv' ltac:(lia)) as [Hsp' Hsv'].
    apply (number_inj f) in Hn; [|by apply valid_in_range..].
    destruct (super_of f m), (super_of f m'). cbn in *. subst. f_equal. lia.
Qed.

(** C7, amended (minimality). On a homogeneous list of well-formed
    networks (prefix length within the width, no host bit set) no two
    networks that [Collapse] returns, at different places of the result,
    have the same immediate parent, whatever the order in which the map
    is walked. The immediate parent is the network one bit shorter that
    contains the network, as the specification has it; it is not taken
    from the code. *)
Theorem Collapse_no_shared_parent ro toMerge out i j x y :
  range_ok ro -> well_formed toMerge -> Collapse ro toMerge = Ok out ->
  out !! i = Some x -> out !! j = Some y -> i <> j ->
  immediate_parent x <> immediate_parent y.
Proof.
  intros Hr Hwf Hc Hi Hj Hij Heq. apply Hij. clear Hij.
  destruct (decide (toMerge = [])) as [->|Hne].
  { injection Hc as <-. by rewrite lookup_nil in Hi. }
  destruct Hwf as [Hwf|Hwf].
  - rewrite Collapse_all4 in Hc;
      [|done|by eapply Forall_impl; [exact Hwf|]; intros ? []].
    unfold collapse4 in Hc.
    destruct (collapse4_nets ro (newIP4Net <$> toMerge)) as [ms|] eqn:Hms; [|done].
    injection Hc as <-.
    destruct (collapse4_nets_rerun ro ro (newIP4Net <$> toMerge) ms Hr Hr) as [Hg _];
      [|done|].
    { apply Forall_fmap. eapply Forall_impl; [exact Hwf|]. by intros ? []. }
    apply list_lookup_fmap_Some in Hi as (mx & -> & Hi).
    apply list_lookup_fmap_Some in Hj as (my & -> & Hj).
    rewrite Forall_forall in Hg.
    destruct (Hg mx (list_elem_of_lookup_2 _ _ _ Hi)) as [Hvx Hmx].
    destruct (Hg my (list_elem_of_lookup_2 _ _ _ Hj)) as [Hvy Hmy].
    destruct Hr as [Hr4 _].
    apply (collapse_nets_distinct_super ip4Net_super ip4Net_mask Z.land ip4Nets_Less
             (range4 ro) Hr4 _ ms i j mx my Hms Hi Hj).
    by apply (same_parent_same_super IPv4).
  - rewrite Collapse_all6 in Hc;
      [|done|by eapply Forall_impl; [exact Hwf|]; intros ? []].
    unfold collapse6 in Hc.
    destruct (collapse6_nets ro (newIP6Net <$> toMerge)) as [ms|] eqn:Hms; [|done].
    injection Hc as <-.
    destruct (collapse6_nets_rerun ro ro (newIP6Net <$> toMerge) ms Hr Hr) as [Hg _];
      [|done|].
    { apply Forall_fmap. eapply Forall_impl; [exact Hwf|]. by intros ? []. }
    apply list_lookup_fmap_Some in Hi as (mx & -> & Hi).
    apply list_lookup_fmap_Some in Hj as (my & -> & Hj).
    rewrite Forall_forall in Hg.
    destruct (Hg mx (list_elem_of_lookup_2 _ _ _ Hi)) as (Hvx & Hmx & _).
    destruct (Hg my (list_elem_of_lookup_2 _ _ _ Hj)) as (Hvy & Hmy & _).
    destruct Hr as [_ Hr6].
    apply (collapse_nets_distinct_super ip6Net_super ip6Net_mask u128_And ip6Nets_Less
             (range6 ro) Hr6 _ ms i j mx my Hms Hi Hj).
    by apply (same_parent_same_super IPv6).
Qed.

Lemma Collapse_no_shared_parent_witness :
  immediate_parent (cidr4 10 0 0 0 23) <> immediate_parent (cidr4 10 0 2 0 24).
Proof.
  apply (Collapse_no_shared_parent range_long_first
           [cidr4 10 0 0 0 24; cidr4 10 0 2 0 24; cidr4 10 0 1 0 24]
           [cidr4 10 0 0 0 23; cidr4 10 0 2 0 24] 0 1).
  - apply range_long_first_ok.
  - left. repeat (apply Forall_cons; split; [|try apply Forall_nil]);
      vm_compute; intuition congruence.
  - vm_compute. reflexivity.
  - reflexivity.
  - reflexivity.
  - lia.
Defined.
